(** * flate-ts: a shallow embedding of the inflate engine

    The development follows the TypeScript sources: [input.ts]
    (InputBuffer), [huffman-trees.ts] (HuffmanTree), [inflate.ts]
    (Inflate), [flate-ts.ts] and [zlib-iterable.ts] (the exported
    functions, FlateEnumerable and ZLibInflate).

    JavaScript numbers that the code manipulates are integers; they are
    modelled as [Z], and every bitwise operator is written out with the
    conversion to a signed 32-bit integer that JavaScript performs.
    Objects are records that the methods pass along.  A method that
    throws ends the run: the assignments it had made to the object before
    throwing are not kept. *)

From Stdlib Require Import ZArith Lia String.
From stdpp Require Import base list gmap.

#[local] Open Scope Z_scope.

(** ** JavaScript arithmetic *)

Module Js.

(** ToInt32: reduce modulo 2^32 into [-2^31, 2^31). *)
Definition ToInt32 (z : Z) : Z := (z + 2 ^ 31) mod 2 ^ 32 - 2 ^ 31.

(** [a << b], [a >> b]: the shift count is taken modulo 32. *)
Definition shl (a b : Z) : Z := ToInt32 (Z.shiftl (ToInt32 a) (b mod 32)).
Definition shr (a b : Z) : Z := Z.shiftr (ToInt32 a) (b mod 32).
Definition and (a b : Z) : Z := Z.land (ToInt32 a) (ToInt32 b).
Definition or (a b : Z) : Z := Z.lor (ToInt32 a) (ToInt32 b).
Definition not (a : Z) : Z := Z.lnot (ToInt32 a).

(** [a % b] takes the sign of the dividend. *)
Definition rem (a b : Z) : Z := Z.rem a b.

(** Reading [a[i]]: [None] is [undefined] (index outside the array). *)
Definition get {A} (a : list A) (i : Z) : option A :=
  if i <? 0 then None else a !! Z.to_nat i.

(** Writing an element of a [Uint8Array]: the value is stored modulo 256
    and a write outside the array is ignored. *)
Definition ToUint8 (v : Z) : Z := v mod 256.
Definition set_u8 (a : list Z) (i : Z) (v : Z) : list Z :=
  if i <? 0 then a else <[Z.to_nat i := ToUint8 v]> a.

(** [new Uint8Array(n)] *)
Definition new_u8 (n : Z) : list Z := replicate (Z.to_nat n) 0.

(** The property names that [for (k in a)] enumerates on an array. *)
Definition keys {A} (a : list A) : list Z :=
  Z.of_nat <$> seq 0 (length a).

End Js.

(** ** Results of running a method *)

Inductive exn :=
| Thrown (msg : string)   (* throw "msg" *)
| ThrownUndefined         (* throw of a property that does not exist *)
| TypeError.              (* call of a property that is not a function *)

(** [Stuck]: the source reads outside an array and goes on computing with
    [undefined], which turns a number of the engine (the bit count, a
    checksum, a byte of the window) into NaN or [undefined]; the
    embedding, whose numbers are integers, stops there.  The loops of
    CreateTable are followed through such reads.  [OutOfFuel]: the bound
    given to a loop was too small. *)
Inductive outcome (A : Type) :=
| Ok (a : A)
| Throw (e : exn)
| Stuck
| OutOfFuel.
Arguments Ok {A} a.
Arguments Throw {A} e.
Arguments Stuck {A}.
Arguments OutOfFuel {A}.

#[global] Instance outcome_bind : MBind outcome := fun A B k c =>
  match c with
  | Ok a => k a
  | Throw e => Throw e
  | Stuck => Stuck
  | OutOfFuel => OutOfFuel
  end.

(** [a[i]] where the source goes on to compute with the element. *)
Definition defined {A} (o : option A) : outcome A :=
  match o with Some a => Ok a | None => Stuck end.

(** ** Byte producers

    The engine is typed over [Iterator<number>] but receives whatever the
    caller hands over.  Two values occur in the sources: an iterator over
    the numbers of an iterable, and the method [target[Symbol.iterator]]
    itself (a function, which has no [next] property). *)

Inductive Iterable := ArrayOf (elems : list Z).

Inductive jsIterator :=
| ArrayIterator (rest : list Z)
| IteratorMethod (target : Iterable).

(** [target[Symbol.iterator]()] *)
Definition GetIterator (target : Iterable) : jsIterator :=
  match target with ArrayOf elems => ArrayIterator elems end.

(** [it.next()]: [None] is [{done: true}]. *)
Definition iterator_next (it : jsIterator) : outcome (option Z * jsIterator) :=
  match it with
  | ArrayIterator [] => Ok (None, ArrayIterator [])
  | ArrayIterator (b :: rest) => Ok (Some b, ArrayIterator rest)
  | IteratorMethod _ => Throw TypeError
  end.

(** ** input.ts *)

Module InputBuffer.

Record t := mk {
  _bitBuffer : Z;
  _bitsInBuffer : Z;
  _iterator : jsIterator
}.

Definition new (iterator : jsIterator) : t :=
  {| _bitBuffer := 0; _bitsInBuffer := 0; _iterator := iterator |}.

Definition AvailableBits (ib : t) : Z := _bitsInBuffer ib.

(** One test
    [(this._bitsInBuffer < count) && !(result = this._iterator.next()).done]
    with the two statements it guards.  The boolean tells whether the
    guarded statements ran. *)
Definition load (count : Z) (ib : t) : outcome (bool * t) :=
  if _bitsInBuffer ib <? count then
    '(result, it) ← iterator_next (_iterator ib);
    match result with
    | Some value =>
        Ok (true,
            {| _bitBuffer := Js.or (_bitBuffer ib) (Js.shl value (_bitsInBuffer ib));
               _bitsInBuffer := _bitsInBuffer ib + 8;
               _iterator := it |})
    | None =>
        Ok (false,
            {| _bitBuffer := _bitBuffer ib;
               _bitsInBuffer := _bitsInBuffer ib;
               _iterator := it |})
    end
  else Ok (false, ib).

(** The nested [if] that opens both TryGetBits and GetBits. *)
Definition fill (count : Z) (ib : t) : outcome t :=
  '(loaded, ib1) ← load count ib;
  if loaded : bool then
    '(_, ib2) ← load count ib1; Ok ib2
  else Ok ib1.

Definition TryGetBits (count : Z) (ib : t) : outcome (Z * t) :=
  ib' ← fill count ib;
  Ok (_bitBuffer ib', ib').

Definition GetBits (count : Z) (ib : t) : outcome (Z * t) :=
  ib' ← fill count ib;
  let bits := Js.and (_bitBuffer ib') (Js.shl 1 count - 1) in
  Ok (bits,
      {| _bitBuffer := Js.shr (_bitBuffer ib') count;
         _bitsInBuffer := _bitsInBuffer ib' - count;
         _iterator := _iterator ib' |}).

Definition SkipBits (n : Z) (ib : t) : t :=
  {| _bitBuffer := Js.shr (_bitBuffer ib) n;
     _bitsInBuffer := _bitsInBuffer ib - n;
     _iterator := _iterator ib |}.

Definition SkipToByteBoundary (ib : t) : t :=
  {| _bitBuffer := Js.shr (_bitBuffer ib) (Js.rem (_bitsInBuffer ib) 8);
     _bitsInBuffer := _bitsInBuffer ib - Js.rem (_bitsInBuffer ib) 8;
     _iterator := _iterator ib |}.

End InputBuffer.

(** ** huffman-trees.ts *)

Module HuffmanTree.

Definition MaxLiteralTreeElements : Z := 288.
Definition MaxDistTreeElements : Z := 32.
Definition EndOfBlockCode : Z := 256.
Definition NumberOfCodeLengthTreeElements : Z := 19.

Record t := mk {
  _tableBits : Z;
  _table : list Z;          (* Uint8Array *)
  _left : list Z;           (* Uint8Array *)
  _right : list Z;          (* Uint8Array *)
  _codeLengthArray : list Z;
  _tableMask : Z;
  _maxCodeLength : Z
}.

(** The body of the [do ... while (--length > 0)] loop runs once and then
    [n] more times. *)
Fixpoint BitReverse_loop (n : nat) (num code : Z) : Z :=
  let num := Js.or num (Js.and code 1) in
  let num := Js.shl num 1 in
  let code := Js.shr code 1 in
  match n with
  | O => num
  | S n' => BitReverse_loop n' num code
  end.

Definition BitReverse (code length : Z) : Z :=
  Js.shr (BitReverse_loop (Z.to_nat (length - 1)) 0 code) 1.

(** [for (i = lo; i <= hi; i++) a[i] = v] on a Uint8Array *)
Definition assign_range (lo hi v : Z) (a : list Z) : list Z :=
  foldl (fun a i => Js.set_u8 a i v) a (seqZ lo (hi - lo + 1)).

Definition GetStaticLiteralTreeLength : list Z :=
  assign_range 280 287 8
    (assign_range 256 279 7
       (assign_range 144 255 9
          (assign_range 0 143 8 (Js.new_u8 MaxLiteralTreeElements)))).

Definition GetStaticDistanceTreeLength : list Z :=
  assign_range 0 (MaxDistTreeElements - 1) 5 (Js.new_u8 MaxDistTreeElements).

(** [a[k]++] on a Uint8Array: outside the array the read is [undefined]
    and the write is dropped. *)
Definition incr_u8 (a : list Z) (k : Z) : list Z :=
  match Js.get a k with
  | Some v => Js.set_u8 a k (v + 1)
  | None => a
  end.

(** The first loop of CalculateHuffmanCode is a [for ... in]: the loop
    variable ranges over the indices of the code-length array. *)
Definition bitLengthCount (codeLengthArray : list Z) : list Z :=
  Js.set_u8
    (foldl (fun blc codeLength => incr_u8 blc codeLength)
           (Js.new_u8 17) (Js.keys codeLengthArray))
    0 0.

(** [for (bits = 1; bits <= 16; bits++)]; [blc[bits - 1]] is inside the
    17-element array. *)
Definition nextCode_init (blc : list Z) : list Z :=
  snd (foldl (fun '(tempCode, nextCode) bits =>
                let tempCode := Js.shl (tempCode + default 0 (Js.get blc (bits - 1))) 1 in
                (tempCode, Js.set_u8 nextCode bits tempCode))
             (0, Js.new_u8 17) (seqZ 1 16)).

(** One turn of the last loop of CalculateHuffmanCode.  [nextCode[len]]
    is [undefined] for [len >= 17]; BitReverse only applies [&] and [>>]
    to it, under which [undefined] is 0. *)
Definition assign_code (codeLengthArray : list Z)
    (acc : list Z * list Z) (i : Z) : list Z * list Z :=
  let '(nextCode, code) := acc in
  let len := default 0 (Js.get codeLengthArray i) in
  if 0 <? len then
    (incr_u8 nextCode len,
     Js.set_u8 code i (BitReverse (default 0 (Js.get nextCode len)) len))
  else acc.

Definition CalculateHuffmanCode (codeLengthArray : list Z) : list Z :=
  let nextCode := nextCode_init (bitLengthCount codeLengthArray) in
  snd (foldl (assign_code codeLengthArray)
             (nextCode, Js.new_u8 MaxLiteralTreeElements)
             (Js.keys codeLengthArray)).

(** The three arrays that CreateTable fills, the counter [avail], and the
    variable [array] of the source, which refers to one of the three. *)
Inductive which := Table | Left | Right.

Record arrays := mkArrays {
  a_table : list Z;
  a_left : list Z;
  a_right : list Z;
  avail : Z
}.

Definition read (w : which) (a : arrays) (index : Z) : option Z :=
  match w with
  | Table => Js.get (a_table a) index
  | Left => Js.get (a_left a) index
  | Right => Js.get (a_right a) index
  end.

Definition write (w : which) (a : arrays) (index v : Z) : arrays :=
  match w with
  | Table => mkArrays (Js.set_u8 (a_table a) index v) (a_left a) (a_right a) (avail a)
  | Left => mkArrays (a_table a) (Js.set_u8 (a_left a) index v) (a_right a) (avail a)
  | Right => mkArrays (a_table a) (a_left a) (Js.set_u8 (a_right a) index v) (avail a)
  end.

Definition InvalidHuffmanData : exn := Thrown "InvalidHuffmanData".

(** [for (j = 0; j < locs; j++) { table[start] = ch; start += increment }] *)
Fixpoint duplicate (locs : nat) (start increment ch : Z) (table : list Z) : list Z :=
  match locs with
  | O => table
  | S locs' => duplicate locs' (start + increment) increment ch (Js.set_u8 table start ch)
  end.

(** The [do ... while (overflowBits != 0)] loop, entered with
    [overflowBits = len - tableBits > 0].  [index] is [None] when it is
    NaN.  An element read outside the array, or at NaN, is [undefined]:
    it passes neither [value == 0] nor [value > 0], nothing is written or
    thrown, and [index = -value] becomes NaN. *)
Fixpoint descend (overflowBits : nat) (start codeBitMask : Z)
    (array : which) (index : option Z) (a : arrays)
    : outcome (which * option Z * arrays) :=
  match overflowBits with
  | O => Ok (array, index, a)
  | S overflowBits' =>
      let next := if Js.and start codeBitMask =? 0 then Left else Right in
      match index, index ≫= read array a with
      | Some index, Some value =>
          let '(value, a) :=
            if value =? 0
            then (- avail a,
                  let a' := write array a index (- avail a) in
                  mkArrays (a_table a') (a_left a') (a_right a') (avail a + 1))
            else (value, a) in
          if 0 <? value then Throw InvalidHuffmanData
          else descend overflowBits' start (Js.shl codeBitMask 1) next (Some (- value)) a
      | _, _ => descend overflowBits' start (Js.shl codeBitMask 1) next None a
      end
  end.

(** One turn of the loop over [ch] in CreateTable.  [codeArray] has 288
    elements: for a larger [ch] the variable [start] is [undefined].  In
    the first branch the test [start >= increment] then fails, the first
    assignment sets the property ["undefined"] of [_table], which is not
    an element, and the others are at NaN and dropped: the elements stay
    as they are.  In the second branch [start] is only an operand of [&],
    which takes [undefined] as 0.  The last assignment, [array[index] =
    ch], is dropped when [index] is NaN. *)
Definition insert_symbol (tableBits : Z) (codeLengthArray codeArray : list Z)
    (a : arrays) (ch : Z) : outcome arrays :=
  let len := default 0 (Js.get codeLengthArray ch) in
  if 0 <? len then
    let start := Js.get codeArray ch in
    if len <=? tableBits then
      match start with
      | Some start =>
          let increment := Js.shl 1 len in
          if increment <=? start then Throw InvalidHuffmanData
          else
            let locs := Js.shl 1 (tableBits - len) in
            Ok (mkArrays (duplicate (Z.to_nat locs) start increment ch (a_table a))
                         (a_left a) (a_right a) (avail a))
      | None => Ok a
      end
    else
      let start := default 0 start in
      let overflowBits := len - tableBits in
      let codeBitMask := Js.shl 1 tableBits in
      let index := Js.and start (Js.shl 1 tableBits - 1) in
      '(array, index, a) ←
        descend (Z.to_nat overflowBits) start codeBitMask Table (Some index) a;
      Ok (match index with
          | Some index => write array a index ch
          | None => a
          end)
  else Ok a.

Fixpoint insert_symbols (tableBits : Z) (codeLengthArray codeArray : list Z)
    (chs : list Z) (a : arrays) : outcome arrays :=
  match chs with
  | [] => Ok a
  | ch :: chs' =>
      a' ← insert_symbol tableBits codeLengthArray codeArray a ch;
      insert_symbols tableBits codeLengthArray codeArray chs' a'
  end.

Definition CreateTable (tableBits : Z) (codeLengthArray : list Z) : outcome arrays :=
  let codeArray := CalculateHuffmanCode codeLengthArray in
  let n := Z.of_nat (length codeLengthArray) in
  insert_symbols tableBits codeLengthArray codeArray (Js.keys codeLengthArray)
    (mkArrays (Js.new_u8 (Js.shl 1 tableBits))
              (Js.new_u8 (2 * n)) (Js.new_u8 (2 * n)) n).

(** The constructor.  Its first loop is a [for ... in] as well:
    [_maxCodeLength] becomes the largest index of [codeLengths]. *)
Definition new (codeLengths : list Z) : outcome t :=
  let maxCodeLength := foldl (fun m length => Z.max length m) 0 (Js.keys codeLengths) in
  let '(tableBits, tableMask) :=
    if Z.of_nat (length codeLengths) =? MaxLiteralTreeElements
    then (9, 511) else (7, 127) in
  a ← CreateTable tableBits codeLengths;
  Ok {| _tableBits := tableBits;
        _table := a_table a;
        _left := a_left a;
        _right := a_right a;
        _codeLengthArray := codeLengths;
        _tableMask := tableMask;
        _maxCodeLength := maxCodeLength |}.

Definition s_staticLiteralLengthTree : outcome t := new GetStaticLiteralTreeLength.
Definition s_staticDistanceTree : outcome t := new GetStaticDistanceTreeLength.

Definition EndOfStreamException : exn := Thrown "EndOfStreamException()".

(** The [do ... while (symbol < 0)] loop of GetNextSymbol.  A walk that
    does not come back to a node takes at most as many turns as [_left]
    has elements, which is the bound GetNextSymbol gives. *)
Fixpoint walk (fuel : nat) (tree : t) (bitBuffer mask symbol : Z) : outcome Z :=
  match fuel with
  | O => OutOfFuel
  | S fuel' =>
      let symbol := - symbol in
      symbol ← defined (if Js.and bitBuffer mask =? 0
                        then Js.get (_left tree) symbol
                        else Js.get (_right tree) symbol);
      if symbol <? 0 then walk fuel' tree bitBuffer (Js.shl mask 1) symbol
      else Ok symbol
  end.

(** The first two statements of GetNextSymbol: the bits looked at and
    the entry of the direct table that they select. *)
Definition consult (tree : t) (input : InputBuffer.t)
    : outcome (Z * Z * InputBuffer.t) :=
  '(bitBuffer, input) ← InputBuffer.TryGetBits (_maxCodeLength tree) input;
  symbol ← defined (Js.get (_table tree) (Js.and bitBuffer (_tableMask tree)));
  Ok (bitBuffer, symbol, input).

(** GetNextSymbol.  For a symbol that [_codeLengthArray] has no element
    for, [codeLength] is [undefined]: the source throws nothing,
    [SkipBits(undefined)] makes [_bitsInBuffer] NaN and the symbol is
    returned.  The count of the embedding is an integer: the embedding
    stops there ([Stuck]), and the statements about GetNextSymbol are
    about tables on which this can not happen. *)
Definition GetNextSymbol (tree : t) (input : InputBuffer.t)
    : outcome (Z * InputBuffer.t) :=
  '(bitBuffer, symbol, input) ← consult tree input;
  symbol ← (if symbol <? 0
            then walk (S (length (_left tree))) tree bitBuffer
                      (Js.shl 1 (_tableBits tree)) symbol
            else Ok symbol);
  codeLength ← defined (Js.get (_codeLengthArray tree) symbol);
  if InputBuffer.AvailableBits input <? codeLength then Throw EndOfStreamException
  else Ok (symbol, InputBuffer.SkipBits codeLength input).

End HuffmanTree.

(** ** inflate.ts *)

Module Inflate.

Definition BASE : Z := 65521.
Definition WindowSize : Z := 32768.
Definition WindowMask : Z := 32767.

Inductive State :=
| ReadingUncompressed   (* = 0 *)
| ReadingStatic         (* = 1 *)
| ReadingDynamic        (* = 2 *)
| UnknownBlockType      (* = 3 *)
| DecodingBlock
| ReadingFinalBit
| ReadingBlockType
| Done.

(** [<State> n]; a number that names no member reaches the [default]
    label of the switch in Decode. *)
Definition State_of_Z (n : Z) : option State :=
  match n with
  | 0 => Some ReadingUncompressed
  | 1 => Some ReadingStatic
  | 2 => Some ReadingDynamic
  | 3 => Some UnknownBlockType
  | 4 => Some DecodingBlock
  | 5 => Some ReadingFinalBit
  | 6 => Some ReadingBlockType
  | 7 => Some Done
  | _ => None
  end.

Definition s_extraLengthBits : list Z :=
  [0; 0; 0; 0; 0; 0; 0; 0; 1; 1; 1; 1; 2; 2;
   2; 2; 3; 3; 3; 3; 4; 4; 4; 4; 5; 5; 5; 5; 0].

Definition s_lengthBase : list Z :=
  [3; 4; 5; 6; 7; 8; 9; 10; 11; 13;
   15; 17; 19; 23; 27; 31; 35; 43; 51; 59;
   67; 83; 99; 115; 131; 163; 195; 227; 258].

Definition s_distanceBasePosition : list Z :=
  [1; 2; 3; 4; 5; 7; 9; 13; 17; 25; 33; 49; 65;
   97; 129; 193; 257; 385; 513; 769; 1025; 1537;
   2049; 3073; 4097; 6145; 8193; 12289; 16385;
   24577; 0; 0].

Definition s_codeOrder : list Z :=
  [16; 17; 18; 0; 8; 7; 9; 6; 10; 5;
   11; 4; 12; 3; 13; 2; 14; 1; 15].

Definition s_staticDistanceTreeTable : list Z :=
  [0x00; 0x10; 0x08; 0x18; 0x04; 0x14; 0x0c; 0x1c; 0x02; 0x12; 0x0a; 0x1a;
   0x06; 0x16; 0x0e; 0x1e; 0x01; 0x11; 0x09; 0x19; 0x05; 0x15; 0x0d; 0x1d;
   0x03; 0x13; 0x0b; 0x1b; 0x07; 0x17; 0x0f; 0x1f].

(** The checksum callback is a closure over the iterator that the engine
    reads from: it is given the checksum and the iterator's state and
    hands the iterator's state back. *)
Definition verifier : Type := Z -> jsIterator -> outcome jsIterator.

(** [this._iterator] and [this._input._iterator] are one object; the
    embedding keeps it in [_input] only.  [_window] is an Array created
    with 32768 holes: a slot is present once it has been written.
    [_bfinal], [_isDynamic] and the trees are unassigned until Decode
    assigns them.  [_codeList] and [_codeLengthTreeCodeLength] are the
    scratch arrays of DecodeDynamicBlockHeader, which assigns every
    element before it reads it: they are values of its embedding and not
    fields here. *)
Record t := mk {
  s1 : Z;
  s2 : Z;
  _literalLengthTree : option HuffmanTree.t;
  _distanceTree : option HuffmanTree.t;
  _end_of_block_code_seen : bool;
  _bfinal : Z;
  _isDynamic : bool;
  _state : State;
  _input : InputBuffer.t;
  _end : Z;
  _current : Z;
  _window : gmap Z Z;
  _lengthDecompressed : Z;
  _lengthUncompressed : Z;
  _verifyAdler : option verifier
}.

Definition new (iterator : jsIterator) (verify : option verifier) : t :=
  {| s1 := 1; s2 := 0;
     _literalLengthTree := None; _distanceTree := None;
     _end_of_block_code_seen := false; _bfinal := 0; _isDynamic := false;
     _state := ReadingFinalBit;
     _input := InputBuffer.new iterator;
     _end := 0; _current := 0; _window := ∅;
     _lengthDecompressed := 0; _lengthUncompressed := 0;
     _verifyAdler := verify |}.

(** Assignments to single fields. *)
Definition set_input (i : InputBuffer.t) (e : t) : t :=
  mk (s1 e) (s2 e) (_literalLengthTree e) (_distanceTree e)
     (_end_of_block_code_seen e) (_bfinal e) (_isDynamic e) (_state e) i
     (_end e) (_current e) (_window e) (_lengthDecompressed e)
     (_lengthUncompressed e) (_verifyAdler e).
Definition set_state (s : State) (e : t) : t :=
  mk (s1 e) (s2 e) (_literalLengthTree e) (_distanceTree e)
     (_end_of_block_code_seen e) (_bfinal e) (_isDynamic e) s (_input e)
     (_end e) (_current e) (_window e) (_lengthDecompressed e)
     (_lengthUncompressed e) (_verifyAdler e).
Definition set_seen (b : bool) (e : t) : t :=
  mk (s1 e) (s2 e) (_literalLengthTree e) (_distanceTree e)
     b (_bfinal e) (_isDynamic e) (_state e) (_input e)
     (_end e) (_current e) (_window e) (_lengthDecompressed e)
     (_lengthUncompressed e) (_verifyAdler e).
Definition set_bfinal (b : Z) (e : t) : t :=
  mk (s1 e) (s2 e) (_literalLengthTree e) (_distanceTree e)
     (_end_of_block_code_seen e) b (_isDynamic e) (_state e) (_input e)
     (_end e) (_current e) (_window e) (_lengthDecompressed e)
     (_lengthUncompressed e) (_verifyAdler e).
Definition set_trees (l d : option HuffmanTree.t) (e : t) : t :=
  mk (s1 e) (s2 e) l d
     (_end_of_block_code_seen e) (_bfinal e) (_isDynamic e) (_state e) (_input e)
     (_end e) (_current e) (_window e) (_lengthDecompressed e)
     (_lengthUncompressed e) (_verifyAdler e).
Definition set_isDynamic (b : bool) (e : t) : t :=
  mk (s1 e) (s2 e) (_literalLengthTree e) (_distanceTree e)
     (_end_of_block_code_seen e) (_bfinal e) b (_state e) (_input e)
     (_end e) (_current e) (_window e) (_lengthDecompressed e)
     (_lengthUncompressed e) (_verifyAdler e).
Definition set_current (c : Z) (e : t) : t :=
  mk (s1 e) (s2 e) (_literalLengthTree e) (_distanceTree e)
     (_end_of_block_code_seen e) (_bfinal e) (_isDynamic e) (_state e) (_input e)
     (_end e) c (_window e) (_lengthDecompressed e)
     (_lengthUncompressed e) (_verifyAdler e).
Definition set_lengthDecompressed (n : Z) (e : t) : t :=
  mk (s1 e) (s2 e) (_literalLengthTree e) (_distanceTree e)
     (_end_of_block_code_seen e) (_bfinal e) (_isDynamic e) (_state e) (_input e)
     (_end e) (_current e) (_window e) n
     (_lengthUncompressed e) (_verifyAdler e).
Definition set_lengthUncompressed (n : Z) (e : t) : t :=
  mk (s1 e) (s2 e) (_literalLengthTree e) (_distanceTree e)
     (_end_of_block_code_seen e) (_bfinal e) (_isDynamic e) (_state e) (_input e)
     (_end e) (_current e) (_window e) (_lengthDecompressed e)
     n (_verifyAdler e).
Definition set_adler (a b : Z) (e : t) : t :=
  mk a b (_literalLengthTree e) (_distanceTree e)
     (_end_of_block_code_seen e) (_bfinal e) (_isDynamic e) (_state e) (_input e)
     (_end e) (_current e) (_window e) (_lengthDecompressed e)
     (_lengthUncompressed e) (_verifyAdler e).
Definition set_window (w : gmap Z Z) (end_ : Z) (e : t) : t :=
  mk (s1 e) (s2 e) (_literalLengthTree e) (_distanceTree e)
     (_end_of_block_code_seen e) (_bfinal e) (_isDynamic e) (_state e) (_input e)
     end_ (_current e) w (_lengthDecompressed e)
     (_lengthUncompressed e) (_verifyAdler e).

(** [this.s1 += b; this.s2 += this.s1] *)
Definition adler_add (b : Z) (e : t) : t :=
  set_adler (s1 e + b) (s2 e + (s1 e + b)) e.

Definition Write (b : Z) (e : t) : t :=
  let e := set_window (<[_end e := b]> (_window e)) (Js.and (_end e + 1) WindowMask) e in
  let e := set_lengthDecompressed (_lengthDecompressed e + 1) e in
  adler_add b e.

(** The first [while (length-- > 0)] loop of WriteLengthDistance. *)
Fixpoint copy_straight (length : nat) (copyStart : Z) (e : t) : outcome t :=
  match length with
  | O => Ok e
  | S length' =>
      source ← defined (_window e !! copyStart);
      let e := set_window (<[_end e := source]> (_window e)) (_end e + 1) e in
      copy_straight length' (copyStart + 1) (adler_add source e)
  end.

(** The second one, which copies byte by byte and wraps both cursors. *)
Fixpoint copy_wrapping (length : nat) (copyStart : Z) (e : t) : outcome t :=
  match length with
  | O => Ok e
  | S length' =>
      source ← defined (_window e !! copyStart);
      let e := set_window (<[_end e := source]> (_window e))
                          (Js.and (_end e + 1) WindowMask) e in
      copy_wrapping length' (Js.and (copyStart + 1) WindowMask) (adler_add source e)
  end.

Definition WriteLengthDistance (length distance : Z) (e : t) : outcome t :=
  let e := set_lengthDecompressed (_lengthDecompressed e + length) e in
  let copyStart := Js.and (_end e - distance) WindowMask in
  let border := WindowSize - length in
  if (copyStart <=? border) && (_end e <? border)
  then copy_straight (Z.to_nat length) copyStart e
  else copy_wrapping (Z.to_nat length) copyStart e.

(** The private method [adler32(index, len)], which nothing calls.  One
    statement pair [this.s1 += this._window[index++]; this.s2 += this.s1]: *)
Definition adler32_byte (index : Z) (e : t) : outcome t :=
  b ← defined (_window e !! index);
  Ok (adler_add b e).

(** its inner loop [while (len-- > 0)], *)
Fixpoint adler32_rest (len : nat) (index : Z) (e : t) : outcome t :=
  match len with
  | O => Ok e
  | S len' =>
      e ← adler32_byte index e;
      adler32_rest len' (index + 1) e
  end.

(** the sixteen statement pairs of its branch [len >= 16], *)
Definition adler32_sixteen (index : Z) (e : t) : outcome t :=
  e ← adler32_byte index e;
  e ← adler32_byte (index + 1) e;
  e ← adler32_byte (index + 2) e;
  e ← adler32_byte (index + 3) e;
  e ← adler32_byte (index + 4) e;
  e ← adler32_byte (index + 5) e;
  e ← adler32_byte (index + 6) e;
  e ← adler32_byte (index + 7) e;
  e ← adler32_byte (index + 8) e;
  e ← adler32_byte (index + 9) e;
  e ← adler32_byte (index + 10) e;
  e ← adler32_byte (index + 11) e;
  e ← adler32_byte (index + 12) e;
  e ← adler32_byte (index + 13) e;
  e ← adler32_byte (index + 14) e;
  adler32_byte (index + 15) e.

(** and its outer loop [while (len > 0)]: the inner loop leaves [len] at
    -1, which ends the outer one. *)
Fixpoint adler32 (fuel : nat) (index len : Z) (e : t) : outcome t :=
  if 0 <? len then
    match fuel with
    | O => OutOfFuel
    | S fuel' =>
        if 16 <=? len then
          e ← adler32_sixteen index e;
          adler32 fuel' (index + 16) (len - 16) e
        else adler32_rest (Z.to_nat len) index e
    end
  else Ok e.

Definition InvalidBlockLength : exn := Thrown "InvalidBlockLength".
Definition GenericInvalidData : exn := Thrown "GenericInvalidData".
Definition InvalidDataException : exn := Thrown "Invalid Data Exception".
Definition UnknownBlockTypeException : exn := Thrown "Unknown Block Type".
Definition EndOfStreamException : exn := Thrown "End Of Stream Exception".

(** [this._input.GetBits(count)] *)
Definition GetBits (count : Z) (e : t) : outcome (Z * t) :=
  '(bits, input) ← InputBuffer.GetBits count (_input e);
  Ok (bits, set_input input e).

(** [tree.GetNextSymbol(this._input)]; the call fails on a tree that has
    not been assigned. *)
Definition GetNextSymbol (tree : option HuffmanTree.t) (e : t) : outcome (Z * t) :=
  match tree with
  | None => Throw TypeError
  | Some tree =>
      '(symbol, input) ← HuffmanTree.GetNextSymbol tree (_input e);
      Ok (symbol, set_input input e)
  end.

Definition DecodeUncompressedBlock (e : t) : outcome (bool * t) :=
  let e := set_input (InputBuffer.SkipToByteBoundary (_input e)) e in
  '(lo, e) ← GetBits 8 e;
  '(hi, e) ← GetBits 8 e;
  let e := set_lengthUncompressed (lo + hi * 256) e in
  '(lo, e) ← GetBits 8 e;
  '(hi, e) ← GetBits 8 e;
  let blockLengthComplement := lo + hi * 256 in
  if negb (_lengthUncompressed e =? Js.not blockLengthComplement)
  then Throw InvalidBlockLength
  else Ok (true, set_state ReadingFinalBit e).

(** DecodeBlock, from [smbl -= 257] to [length = s_lengthBase[length] + bits]:
    the match length that a length code stands for. *)
Definition DecodeLength (smbl : Z) (e : t) : outcome (Z * t) :=
  let smbl := smbl - 257 in
  '(smbl, extraBits) ←
    (if smbl <? 8 then Ok (smbl + 3, 0)
     else if smbl =? 28 then Ok (258, 0)
     else if (smbl <? 0) || (Z.of_nat (length s_extraLengthBits) <=? smbl)
          then Throw GenericInvalidData
          else extraBits ← defined (Js.get s_extraLengthBits smbl);
               Ok (smbl, extraBits));
  let length_ := smbl in
  if 0 <? extraBits then
    '(bits, e) ← GetBits extraBits e;
    if (length_ <? 0) || (Z.of_nat (length s_lengthBase) <=? length_)
    then Throw GenericInvalidData
    else base ← defined (Js.get s_lengthBase length_);
         Ok (base + bits, e)
  else Ok (length_, e).

(** DecodeBlock, [var distanceCode; if (this._isDynamic) ... else ...] *)
Definition DecodeDistanceCode (e : t) : outcome (Z * t) :=
  if _isDynamic e then GetNextSymbol (_distanceTree e) e
  else
    '(distanceCode, e) ← GetBits 5 e;
    if 0 <=? distanceCode then
      distanceCode ← defined (Js.get s_staticDistanceTreeTable distanceCode);
      Ok (distanceCode, e)
    else Ok (distanceCode, e).

(** DecodeBlock, [var offset; if (distanceCode > 3) ... else ...] *)
Definition DecodeOffset (distanceCode : Z) (e : t) : outcome (Z * t) :=
  if 3 <? distanceCode then
    let extraBits := Js.shr (distanceCode - 2) 1 in
    '(bits, e) ← GetBits extraBits e;
    base ← defined (Js.get s_distanceBasePosition distanceCode);
    Ok (base + bits, e)
  else Ok (distanceCode + 1, e).

(** The part of the loop body of DecodeBlock that handles a length and
    distance pair, from the comment [length/distance pair] to
    WriteLengthDistance.  The result carries [length], which the loop
    subtracts from [freeBytes]. *)
Definition DecodePair (smbl : Z) (e : t) : outcome (Z * t) :=
  '(length_, e) ← DecodeLength smbl e;
  '(distanceCode, e) ← DecodeDistanceCode e;
  '(offset, e) ← DecodeOffset distanceCode e;
  e ← WriteLengthDistance length_ offset e;
  Ok (length_, e).

(** [while (freeBytes > 258)]: every turn lowers [freeBytes]. *)
Fixpoint DecodeBlock_loop (fuel : nat) (freeBytes : Z) (e : t) : outcome (bool * t) :=
  if 258 <? freeBytes then
    match fuel with
    | O => OutOfFuel
    | S fuel' =>
        '(smbl, e) ← GetNextSymbol (_literalLengthTree e) e;
        if smbl <? 256 then
          DecodeBlock_loop fuel' (freeBytes - 1) (Write smbl e)
        else if smbl =? 256 then
          Ok (true, set_seen true (set_state ReadingFinalBit e))
        else
          '(length_, e) ← DecodePair smbl e;
          DecodeBlock_loop fuel' (freeBytes - length_) e
    end
  else Ok (true, set_seen false (set_state DecodingBlock e)).

Definition DecodeBlock (e : t) : outcome (bool * t) :=
  let freeBytes := WindowSize - _lengthDecompressed e in
  DecodeBlock_loop (Z.to_nat freeBytes) freeBytes e.

(** DecodeDynamicBlockHeader.  [_codeLengthTreeCodeLength] is assigned at
    each of its 19 positions by the first two loops.  [_codeList] is
    assigned at positions 0, 1, 2, ... in order and read below
    [loopCounter] only: the embedding keeps the part assigned so far, so
    that [loopCounter] is its length. *)
Fixpoint read_code_length_lengths (n : nat) (loopCounter : Z)
    (codeLengthTreeCodeLength : list Z) (e : t) : outcome (list Z * t) :=
  match n with
  | O => Ok (codeLengthTreeCodeLength, e)
  | S n' =>
      '(bits, e) ← GetBits 3 e;
      position ← defined (Js.get s_codeOrder loopCounter);
      read_code_length_lengths n' (loopCounter + 1)
        (<[Z.to_nat position := bits]> codeLengthTreeCodeLength) e
  end.

Definition clear_code_length_lengths (codeLengthCodeCount : Z)
    (codeLengthTreeCodeLength : list Z) : list Z :=
  foldl (fun cl i => <[Z.to_nat (default 0 (Js.get s_codeOrder i)) := 0]> cl)
        codeLengthTreeCodeLength
        (seqZ codeLengthCodeCount (Z.of_nat (length s_codeOrder) - codeLengthCodeCount)).

Fixpoint read_code_list (fuel : nat) (codeLengthTree : HuffmanTree.t)
    (codeArraySize : Z) (codeList : list Z) (e : t) : outcome (list Z * t) :=
  let loopCounter := Z.of_nat (length codeList) in
  if loopCounter <? codeArraySize then
    match fuel with
    | O => OutOfFuel
    | S fuel' =>
        '(lengthCode, e) ← GetNextSymbol (Some codeLengthTree) e;
        match lengthCode with
        | 18 =>
            '(bits, e) ← GetBits 7 e;
            let repeatCount := bits + 11 in
            if codeArraySize <? loopCounter + repeatCount
            then Throw InvalidDataException
            else read_code_list fuel' codeLengthTree codeArraySize
                   (codeList ++ replicate (Z.to_nat repeatCount) 0) e
        | 17 =>
            '(bits, e) ← GetBits 3 e;
            let repeatCount := bits + 3 in
            if codeArraySize <? loopCounter + repeatCount
            then Throw InvalidDataException
            else read_code_list fuel' codeLengthTree codeArraySize
                   (codeList ++ replicate (Z.to_nat repeatCount) 0) e
        | 16 =>
            if loopCounter =? 0 then Throw InvalidDataException
            else
              previousCode ← defined (Js.get codeList (loopCounter - 1));
              '(bits, e) ← GetBits 2 e;
              let repeatCount := bits + 3 in
              if codeArraySize <? loopCounter + repeatCount
              then Throw InvalidDataException
              else read_code_list fuel' codeLengthTree codeArraySize
                     (codeList ++ replicate (Z.to_nat repeatCount) previousCode) e
        | _ =>
            read_code_list fuel' codeLengthTree codeArraySize
              (codeList ++ [lengthCode]) e
        end
    end
  else Ok (codeList, e).

(** [a.slice(from, to)] followed by [push(0)] up to [size] elements *)
Definition slice_pad (a : list Z) (from to size : Z) : list Z :=
  let s := take (Z.to_nat (to - from)) (drop (Z.to_nat from) a) in
  s ++ replicate (Z.to_nat size - length s) 0.

Definition DecodeDynamicBlockHeader (e : t) : outcome (bool * t) :=
  '(literalLengthCodeCount, e) ← GetBits 5 e;
  '(distanceCodeCount, e) ← GetBits 5 e;
  '(codeLengthCodeCount, e) ← GetBits 4 e;
  let literalLengthCodeCount := literalLengthCodeCount + 257 in
  let distanceCodeCount := distanceCodeCount + 1 in
  let codeLengthCodeCount := codeLengthCodeCount + 4 in
  '(codeLengthTreeCodeLength, e) ←
    read_code_length_lengths (Z.to_nat codeLengthCodeCount) 0
      (replicate (Z.to_nat HuffmanTree.NumberOfCodeLengthTreeElements) 0) e;
  let codeLengthTreeCodeLength :=
    clear_code_length_lengths codeLengthCodeCount codeLengthTreeCodeLength in
  codeLengthTree ← HuffmanTree.new codeLengthTreeCodeLength;
  let codeArraySize := literalLengthCodeCount + distanceCodeCount in
  '(codeList, e) ←
    read_code_list (Z.to_nat codeArraySize) codeLengthTree codeArraySize [] e;
  let literalTreeCodeLength :=
    slice_pad codeList 0 literalLengthCodeCount HuffmanTree.MaxLiteralTreeElements in
  let distanceTreeCodeLength :=
    slice_pad codeList literalLengthCodeCount
              (literalLengthCodeCount + distanceCodeCount)
              HuffmanTree.MaxDistTreeElements in
  if default 0 (Js.get literalTreeCodeLength HuffmanTree.EndOfBlockCode) =? 0
  then Throw InvalidDataException
  else
    literalLengthTree ← HuffmanTree.new literalTreeCodeLength;
    distanceTree ← HuffmanTree.new distanceTreeCodeLength;
    Ok (true, set_trees (Some literalLengthTree) (Some distanceTree) e).

(** The [while (true) { switch (this._state) ... }] of Decode.  A turn
    ends in [continue] (a recursive call) or in [break]; at most three
    turns are taken. *)
Fixpoint Decode_switch (fuel : nat) (e : t) : outcome (bool * t) :=
  match fuel with
  | O => OutOfFuel
  | S fuel' =>
      let ReadingBlockType_case (e : t) :=
        '(bits, e) ← GetBits 2 e;
        match State_of_Z bits with
        | Some s => Decode_switch fuel' (set_state s e)
        | None => Throw UnknownBlockTypeException
        end in
      match _state e with
      | ReadingFinalBit =>
          '(bits, e) ← GetBits 1 e;
          ReadingBlockType_case (set_state ReadingBlockType (set_bfinal bits e))
      | ReadingBlockType => ReadingBlockType_case e
      | ReadingStatic =>
          literalLengthTree ← HuffmanTree.s_staticLiteralLengthTree;
          distanceTree ← HuffmanTree.s_staticDistanceTree;
          let e := set_trees (Some literalLengthTree) (Some distanceTree) e in
          Decode_switch fuel' (set_state DecodingBlock (set_isDynamic false e))
      | ReadingDynamic =>
          '(_, e) ← DecodeDynamicBlockHeader e;
          DecodeBlock (set_isDynamic true e)
      | DecodingBlock => DecodeBlock e
      | ReadingUncompressed =>
          '(result, e) ← DecodeUncompressedBlock e;
          Ok (result, set_seen true e)
      | UnknownBlockType | Done => Throw UnknownBlockTypeException
      end
  end.

Definition Decode (e : t) : outcome (bool * t) :=
  '(result, e) ← Decode_switch 3 (set_seen false e);
  if _end_of_block_code_seen e && negb (_bfinal e =? 0)
  then Ok (result, set_state Done e)
  else Ok (result, e).

(** [{done: false, value}] and [{done: true, value: undefined}]; a value
    read from a hole of the window is [undefined]. *)
Inductive IteratorResult :=
| Value (value : option Z)
| DoneResult.

Definition is_Done (s : State) : bool :=
  match s with Done => true | _ => false end.

(** The statements of [next] after its loop. *)
Definition finish (e : t) : outcome (IteratorResult * t) :=
  e ← match _verifyAdler e with
      | Some verify =>
          let input := _input e in
          it ← verify (Js.or (Js.shl (Js.rem (s2 e) BASE) 16) (Js.rem (s1 e) BASE))
                      (InputBuffer._iterator input);
          Ok (set_input (InputBuffer.mk (InputBuffer._bitBuffer input)
                                        (InputBuffer._bitsInBuffer input) it) e)
      | None => Ok e
      end;
  Ok (DoneResult, set_current (-1) e).

(** [next]: the [do ... while] loop takes a further turn after each call
    of Decode that returns [true]; [fuel] bounds the number of turns. *)
Fixpoint next (fuel : nat) (e : t) : outcome (IteratorResult * t) :=
  match fuel with
  | O => OutOfFuel
  | S fuel' =>
      if 0 <? _lengthDecompressed e then
        let e := set_current (Js.and (_end e - _lengthDecompressed e) WindowMask) e in
        let e := set_lengthDecompressed (_lengthDecompressed e - 1) e in
        Ok (Value (_window e !! _current e), e)
      else if 0 <? _lengthUncompressed e then
        let input := _input e in
        '(result, it) ← iterator_next (InputBuffer._iterator input);
        let e := set_input (InputBuffer.mk (InputBuffer._bitBuffer input)
                                           (InputBuffer._bitsInBuffer input) it) e in
        match result with
        | None => Throw EndOfStreamException
        | Some value =>
            let e := set_current (_end e) e in
            let e := set_window (<[_current e := value]> (_window e))
                                (Js.and (_end e + 1) WindowMask) e in
            let e := set_lengthUncompressed (_lengthUncompressed e - 1) e in
            Ok (Value (Some value), adler_add value e)
        end
      else
        let e := set_adler (Js.rem (s1 e) BASE) (Js.rem (s2 e) BASE) e in
        '(again, e) ← (if is_Done (_state e) then Ok (false, e) else Decode e);
        if again : bool then next fuel' e else finish e
  end.

End Inflate.

(** ** flate-ts.ts and zlib-iterable.ts

    What a caller can pass for the optional parameter [source]. *)

Inductive argument :=
| ArgNull
| ArgUndefined
| ArgIterable (source : Iterable).

(** [class FlateEnumerable], declared with the same text in both files. *)
Record FlateEnumerable := mkFlateEnumerable {
  _target : argument;
  _factory : jsIterator -> Inflate.t
}.

(** [FlateEnumerable.prototype[Symbol.iterator]]: the factory receives the
    property [this._target[Symbol.iterator]], which is not called.  Reading
    a property of [null] or [undefined] fails. *)
Definition FlateEnumerable_iterator (this : FlateEnumerable) : outcome Inflate.t :=
  match _target this with
  | ArgIterable target => Ok (_factory this (IteratorMethod target))
  | ArgNull | ArgUndefined => Throw TypeError
  end.

(** The value an exported function returns: [None] is [null]. *)
Definition exported : Type := argument -> outcome (option FlateEnumerable).

Module FlateTs.

Definition asInflatable : exported := fun source =>
  match source with
  | ArgNull => Throw (Thrown "No Inflate source specidied")
  | _ => Ok (Some {| _target := source;
                     _factory := fun iterator => Inflate.new iterator None |})
  end.

Definition zlibInflate : exported := fun source => Ok None.

Definition exports : list exported := [asInflatable; zlibInflate].

End FlateTs.

(** A third file, whose name is not known, declares [inflate] and
    [zlibInflate] with empty bodies that return [null]. *)
Module Placeholder.

Definition inflate : exported := fun source => Ok None.

Definition zlibInflate : exported := fun source => Ok None.

End Placeholder.

Module ZlibIterable.

Definition asInflatable : exported := fun deflated =>
  match deflated with
  | ArgNull => Throw (Thrown "No Inflate source specidied")
  | _ => Ok (Some {| _target := deflated;
                     _factory := fun iterator => Inflate.new iterator None |})
  end.

Definition zlibInflate : exported := fun source => Ok None.

Definition exports : list exported := [asInflatable; zlibInflate].

(** [class ZLibInflate extends Inflate], which the file does not export. *)
Module ZLibInflate.

(** The [while] loop of the checksum callback with the [switch] it
    contains; [byteSignificance] counts down from 4. *)
Fixpoint read_need (byteSignificance : nat) (need : Z) (iterator : jsIterator)
    : outcome (Z * jsIterator) :=
  match byteSignificance with
  | O => Ok (need, iterator)
  | S byteSignificance' =>
      '(result, iterator) ← iterator_next iterator;
      match result with
      | None => Ok (need, iterator)
      | Some value =>
          let need :=
            match byteSignificance with
            | 4%nat => Js.and (Js.shl (Js.and value 0xff) 24) 0xff000000
            | 3%nat => need + Js.and (Js.shl (Js.and value 0xff) 16) 0xff0000
            | 2%nat => need + Js.and (Js.shl (Js.and value 0xff) 8) 0xff00
            | 1%nat => need + Js.and (Js.and value 0xff) 0xff
            | _ => need
            end in
          read_need byteSignificance' need iterator
      end
  end.

(** The arrow function handed to [super]. *)
Definition verify : Inflate.verifier := fun adler32 iterator =>
  '(need, iterator) ← read_need 4 0 iterator;
  if negb (need =? adler32) then Throw (Thrown "Invalid Adler-32 checksum")
  else Ok iterator.

(** The constructor; [Inflate.endOfStreamEx] is not declared anywhere,
    so the two [throw Inflate.endOfStreamEx] throw [undefined]. *)
Definition new (iterator : jsIterator) : outcome Inflate.t :=
  '(result, iterator) ← iterator_next iterator;
  match result with
  | None => Throw ThrownUndefined
  | Some cm =>
      if negb (0x08 =? Js.and cm 0xf) then Throw (Thrown "unknown compression method")
      else if 0x0F <? Js.shr cm 4 + 8 then Throw (Thrown "invalid window size")
      else
        '(result, iterator) ← iterator_next iterator;
        match result with
        | None => Throw ThrownUndefined
        | Some value =>
            if negb (Js.rem (Js.shl cm 8 + value) 31 =? 0)
            then Throw (Thrown "incorrect header check")
            else Ok (Inflate.new iterator (Some verify))
        end
  end.

End ZLibInflate.

End ZlibIterable.

(** * Auxiliary definitions for the statements *)

(** The number of bytes that the nested [if] of TryGetBits and GetBits
    takes from an iterator with [rest] left. *)
Definition taken (count bitsInBuffer : Z) (rest : list Z) : nat :=
  match rest with
  | [] => 0
  | _ :: rest' =>
      if bitsInBuffer <? count then
        match rest' with
        | [] => 1
        | _ :: _ => if bitsInBuffer + 8 <? count then 2 else 1
        end
      else 0
  end.

(** [mirror k x]: the low [k] bits of [x] in the opposite order. *)
Fixpoint mirror (k : nat) (x : Z) : Z :=
  match k with
  | O => 0
  | S k' => (x mod 2) * 2 ^ Z.of_nat k' + mirror k' (x / 2)
  end.

(** The engine reads from an iterator of numbers. *)
Definition over_array (e : Inflate.t) : Prop :=
  exists rest, InputBuffer._iterator (Inflate._input e) = ArrayIterator rest.

(** Every element is a value that a Uint8Array can hold. *)
Definition bytes (a : list Z) : Prop := Forall (fun x => 0 <= x < 256) a.

Definition bytes_arrays (a : HuffmanTree.arrays) : Prop :=
  bytes (HuffmanTree.a_table a) /\ bytes (HuffmanTree.a_left a) /\
  bytes (HuffmanTree.a_right a).

(** An engine at the distance code of a static block whose next five
    bits are 01111, which [s_staticDistanceTreeTable] turns into code 30, *)
Definition static_code_15 : Inflate.t :=
  Inflate.new (ArrayIterator [0x0F; 0x00; 0x00]) None.

(** and the same engine once the five bits have been read. *)
Definition static_code_15_read : Inflate.t :=
  Inflate.set_input (InputBuffer.mk 0 3 (ArrayIterator [0x00; 0x00])) static_code_15.

(** A table that the constructor has returned. *)
Definition constructed (tree : HuffmanTree.t) : Prop :=
  exists codeLengths, HuffmanTree.new codeLengths = Ok tree.

(** A table on which GetNextSymbol always finds a code length: one built
    from at least 256 code lengths (every entry of the direct table is a
    byte), or from lengths that all fit a direct table of 7 bits (every
    entry is then a symbol of the alphabet). *)
Definition decodable (tree : HuffmanTree.t) : Prop :=
  exists codeLengths,
    HuffmanTree.new codeLengths = Ok tree /\
    (256 <= Z.of_nat (length codeLengths) \/
     (codeLengths <> [] /\ Forall (fun len => 0 <= len <= 7) codeLengths)).

(** The states in which [next] finds an engine that was created over an
    iterator of numbers: before the first block, or inside a compressed
    block with a literal/length table that is [decodable], as the tables
    of 288 code lengths are that Decode installs. *)
Definition between_pulls (e : Inflate.t) : Prop :=
  (Inflate._state e = Inflate.ReadingFinalBit /\ over_array e) \/
  (Inflate._state e = Inflate.DecodingBlock /\
   exists tree, Inflate._literalLengthTree e = Some tree /\ decodable tree).

(** What a call of Decode or of one of its parts ends in, for an engine
    found [between_pulls]: an exception other than "GenericInvalidData",
    or a window that is full up to the last 258 bytes, inside a block. *)
Definition decoded_some (o : outcome (bool * Inflate.t)) : Prop :=
  match o with
  | Ok (result, e') =>
      result = true /\
      Inflate._state e' = Inflate.DecodingBlock /\
      Inflate._end_of_block_code_seen e' = false /\
      (exists tree, Inflate._literalLengthTree e' = Some tree /\ decodable tree) /\
      Inflate.WindowSize - Inflate._lengthDecompressed e' <= 258
  | Throw x => x <> Inflate.GenericInvalidData
  | Stuck | OutOfFuel => False
  end.

(** * Auxiliary definitions for the further properties *)

(** The arrays of a table keep their sizes. *)
Definition same_lengths (a a' : HuffmanTree.arrays) : Prop :=
  length (HuffmanTree.a_table a') = length (HuffmanTree.a_table a) /\
  length (HuffmanTree.a_left a') = length (HuffmanTree.a_left a) /\
  length (HuffmanTree.a_right a') = length (HuffmanTree.a_right a).

(** The table of an outcome, for examples. *)
Definition tree_or_empty (o : outcome HuffmanTree.t) : HuffmanTree.t :=
  match o with
  | Ok tree => tree
  | _ => HuffmanTree.mk 0 [] [] [] [] 0 0
  end.

(** The codes that CalculateHuffmanCode assigns: the array has 288
    entries, and the entry of a symbol with a length from 1 to 16 is
    below 2 to that length. *)
Definition code_fits (codeLengthArray code : list Z) (i : Z) : Prop :=
  forall len, Js.get codeLengthArray i = Some len -> 0 < len <= 16 ->
    exists start, Js.get code i = Some start /\ 0 <= start < 2 ^ len.

(** [writes bs e]: Write called with the bytes of [bs] in turn. *)
Definition writes (bs : list Z) (e : Inflate.t) : Inflate.t :=
  foldl (fun e b => Inflate.Write b e) e bs.

(** [pulls n e]: [n] calls of [next], each with fuel for one turn of its
    loop. *)
Fixpoint pulls (n : nat) (e : Inflate.t)
    : outcome (list Inflate.IteratorResult * Inflate.t) :=
  match n with
  | O => Ok ([], e)
  | S n' =>
      '(r, e) ← Inflate.next 1 e;
      '(rs, e) ← pulls n' e;
      Ok (r :: rs, e)
  end.

(** The position of the window [i] places after [_end]. *)
Definition slot (e : Inflate.t) (i : Z) : Z :=
  (Inflate._end e + i) mod Inflate.WindowSize.

(** An engine with two bytes written to its window, for examples. *)
Definition two_written : Inflate.t :=
  writes [0x61; 0x62] (Inflate.new (ArrayIterator []) None).

(** Adler-32 as RFC 1950 defines it: both sums are taken modulo 65521
    after each byte, from 1 and 0. *)
Definition rfc1950_adler32_step (ab : Z * Z) (x : Z) : Z * Z :=
  let a := (fst ab + x) mod 65521 in (a, (snd ab + a) mod 65521).

Definition rfc1950_adler32 (bs : list Z) : Z * Z :=
  foldl rfc1950_adler32_step (1, 0) bs.

(** The number that the first four elements of [bs] spell, most
    significant first; a missing element counts as 0. *)
Definition big_endian_32 (bs : list Z) : Z :=
  default 0 (bs !! 0%nat) * 2 ^ 24 + default 0 (bs !! 1%nat) * 2 ^ 16 +
  default 0 (bs !! 2%nat) * 2 ^ 8 + default 0 (bs !! 3%nat).

(** An engine of a ZLIB stream that has reached [Done] with the sums of
    the bytes 61 62 63, before the four bytes of the trailer. *)
Definition finished_abc : Inflate.t :=
  Inflate.set_adler 0x127 0x24d
    (Inflate.set_state Inflate.Done
       (Inflate.new (ArrayIterator [0x02; 0x4d; 0x01; 0x27])
                    (Some ZlibIterable.ZLibInflate.verify))).

(** 32 code lengths of which the first eight, 8 to 15, are longer than
    the direct table of 7 bits: their codes need more nodes than [_left]
    and [_right] have elements. *)
Definition deep_code_lengths : list Z :=
  [8; 9; 10; 11; 12; 13; 14; 15] ++ replicate 24 0.

(** The static literal/length table, for examples. *)
Definition static_literal_tree : HuffmanTree.t :=
  tree_or_empty HuffmanTree.s_staticLiteralLengthTree.

(** A dynamic block whose distance code lengths are [deep_code_lengths]
    and whose only literal/length code is that of the end-of-block
    symbol: three bits of block header, HLIT = 0, HDIST = 7, HCLEN = 15,
    nineteen lengths of 3, the 265 code lengths, and two bytes more. *)
Definition deep_block_bytes : list Z :=
  [0x05; 0xE7; 0xDB; 0xB6; 0x6D; 0xDB; 0xB6; 0x6D; 0xDB; 0x86; 0x7F;
   0x58; 0x7F; 0xC6; 0x85; 0x54; 0xDA; 0x58; 0x00; 0x00; 0x00; 0x00].

(** The engine over those bytes when Decode has read the three bits of
    the block header. *)
Definition deep_block_header : Inflate.t :=
  Inflate.set_input (InputBuffer.mk 0 5 (ArrayIterator (drop 1 deep_block_bytes)))
                    (Inflate.new (ArrayIterator []) None).

(** The [n] elements of the window from [index] on; a hole counts as 0. *)
Fixpoint window_slice (window : gmap Z Z) (index : Z) (n : nat) : list Z :=
  match n with
  | O => []
  | S n' => default 0 (window !! index) :: window_slice window (index + 1) n'
  end.

(** An engine with the bytes 1 to 33 written to its window, for examples. *)
Definition filled_window : Inflate.t :=
  writes (seqZ 1 33) (Inflate.new (ArrayIterator []) None).

(** A final dynamic block in the format of RFC 1951 whose first match has
    distance code 30.  The header announces 258 literal/length codes, 31
    distance codes and 18 code length codes; the code length code has 1
    bit for symbol 18 and 2 bits for symbols 1 and 2; the literal/length
    code has 1 bit for symbol 257 and 2 bits for symbols 65 and 256; the
    only distance code is 30, with 1 bit.  The data are the literal 65,
    length symbol 257, distance code 30, thirteen zero bits and the
    end-of-block symbol. *)
Definition distance_30_block : list Z :=
  [0x0D; 0xDE; 0x81; 0x00; 0x00; 0x00; 0x00; 0x80; 0x20; 0xB6; 0xFD;
   0xA5; 0xCE; 0xA4; 0x00; 0x00; 0x03].

(** * Properties *)

(** ** JavaScript arithmetic on small numbers *)

Lemma ToInt32_small (z : Z) : - 2 ^ 31 <= z < 2 ^ 31 -> Js.ToInt32 z = z.
Proof.
  intros H. unfold Js.ToInt32.
  rewrite Z.mod_small by lia. lia.
Qed.

Lemma ToInt32_range (z : Z) : - 2 ^ 31 <= Js.ToInt32 z < 2 ^ 31.
Proof.
  unfold Js.ToInt32.
  pose proof (Z.mod_pos_bound (z + 2 ^ 31) (2 ^ 32)). lia.
Qed.

(** ToInt32 keeps the low [n] bits, for [n] up to 32. *)
Lemma ToInt32_low_bits (z n : Z) :
  0 <= n <= 32 -> Js.ToInt32 z mod 2 ^ n = z mod 2 ^ n.
Proof.
  intros Hn. unfold Js.ToInt32.
  rewrite (Z.mod_eq (z + 2 ^ 31) (2 ^ 32)) by lia.
  set (q := (z + 2 ^ 31) / 2 ^ 32).
  replace (z + 2 ^ 31 - 2 ^ 32 * q - 2 ^ 31)
    with (z + (- q * 2 ^ (32 - n)) * 2 ^ n).
  - apply Z_mod_plus_full.
  - replace (2 ^ 32) with (2 ^ (32 - n) * 2 ^ n).
    + ring.
    + rewrite <- Z.pow_add_r by lia. f_equal. lia.
Qed.

(** Checking a decidable property on an interval by evaluation. *)
Lemma seqZ_forallb (f : Z -> bool) (lo len : Z) :
  forallb f (seqZ lo len) = true -> forall n, lo <= n < lo + len -> f n = true.
Proof.
  intros H n Hn.
  rewrite forallb_forall in H. apply H.
  apply list_elem_of_In, elem_of_seqZ. lia.
Qed.

(** The mask [(1 << count) - 1], once converted by [&]. *)
Lemma mask_ones (n : Z) :
  0 <= n <= 31 -> Js.ToInt32 (Js.shl 1 n - 1) = Z.ones n.
Proof.
  intros Hn.
  apply Z.eqb_eq.
  apply (seqZ_forallb (fun n => Js.ToInt32 (Js.shl 1 n - 1) =? Z.ones n) 0 32);
    [vm_compute; reflexivity | lia].
Qed.

Lemma and_mask (x n : Z) :
  0 <= n <= 31 -> Js.and x (Js.shl 1 n - 1) = x mod 2 ^ n.
Proof.
  intros Hn. unfold Js.and.
  rewrite mask_ones by lia.
  rewrite Z.land_ones by lia.
  apply ToInt32_low_bits. lia.
Qed.

Lemma and_mask_range (x n : Z) :
  0 <= n <= 31 -> 0 <= Js.and x (Js.shl 1 n - 1) < 2 ^ n.
Proof.
  intros Hn. rewrite and_mask by lia. apply Z.mod_pos_bound. lia.
Qed.

(** ** InputBuffer over an iterator of numbers *)

Lemma taken_le_2 count bitsInBuffer rest : (taken count bitsInBuffer rest <= 2)%nat.
Proof.
  unfold taken. destruct rest as [|? [|? ?]]; repeat case_match; lia.
Qed.

Lemma fill_array (count bitBuffer bitsInBuffer : Z) (rest : list Z) :
  exists bitBuffer',
    InputBuffer.fill count (InputBuffer.mk bitBuffer bitsInBuffer (ArrayIterator rest)) =
    Ok (InputBuffer.mk bitBuffer'
          (bitsInBuffer + 8 * Z.of_nat (taken count bitsInBuffer rest))
          (ArrayIterator (drop (taken count bitsInBuffer rest) rest))).
Proof.
  unfold InputBuffer.fill, InputBuffer.load, taken; cbn.
  destruct (bitsInBuffer <? count) eqn:H1; cbn.
  - destruct rest as [|b rest]; cbn.
    + eexists. do 2 f_equal. lia.
    + destruct (bitsInBuffer + 8 <? count) eqn:H2; cbn.
      * destruct rest as [|b' rest]; cbn.
        -- eexists. do 2 f_equal.
        -- eexists. do 2 f_equal. lia.
      * destruct rest; eexists; do 2 f_equal.
  - destruct rest; eexists; do 2 f_equal; lia.
Qed.

Lemma fill_exhausted (count bitBuffer bitsInBuffer : Z) :
  InputBuffer.fill count (InputBuffer.mk bitBuffer bitsInBuffer (ArrayIterator [])) =
  Ok (InputBuffer.mk bitBuffer bitsInBuffer (ArrayIterator [])).
Proof.
  unfold InputBuffer.fill, InputBuffer.load; cbn.
  destruct (bitsInBuffer <? count); reflexivity.
Qed.

(** GetBits never throws on an iterator of numbers. *)
Lemma GetBits_array (count bitBuffer bitsInBuffer : Z) (rest : list Z) :
  exists bitBuffer0 bitBuffer',
    InputBuffer.GetBits count (InputBuffer.mk bitBuffer bitsInBuffer (ArrayIterator rest)) =
    Ok (Js.and bitBuffer0 (Js.shl 1 count - 1),
        InputBuffer.mk bitBuffer'
          (bitsInBuffer + 8 * Z.of_nat (taken count bitsInBuffer rest) - count)
          (ArrayIterator (drop (taken count bitsInBuffer rest) rest))).
Proof.
  unfold InputBuffer.GetBits.
  destruct (fill_array count bitBuffer bitsInBuffer rest) as [bb' ->]; cbn.
  eauto.
Qed.

(** C10: GetBits takes at most two bytes from the producer and then lowers
    the count by [n] whatever was loaded; it never throws.  With the
    producer exhausted and fewer than [n] bits buffered it still returns
    the register masked with [(1 << n) - 1], which is its low [n] bits for
    [n] up to 31, and leaves AvailableBits negative. *)
Theorem GetBits_unconditional_decrement
    (bitBuffer bitsInBuffer n : Z) (rest : list Z) :
  let ib := InputBuffer.mk bitBuffer bitsInBuffer (ArrayIterator rest) in
  (exists bits ib' (k : nat),
      InputBuffer.GetBits n ib = Ok (bits, ib') /\
      (k <= 2)%nat /\
      InputBuffer._iterator ib' = ArrayIterator (drop k rest) /\
      InputBuffer.AvailableBits ib' = bitsInBuffer + 8 * Z.of_nat k - n) /\
  (rest = [] -> bitsInBuffer < n ->
   exists ib',
     InputBuffer.GetBits n ib = Ok (Js.and bitBuffer (Js.shl 1 n - 1), ib') /\
     InputBuffer.AvailableBits ib' = bitsInBuffer - n /\
     InputBuffer.AvailableBits ib' < 0 /\
     (0 <= n <= 31 -> Js.and bitBuffer (Js.shl 1 n - 1) = bitBuffer mod 2 ^ n)).
Proof.
  intros ib. split.
  - destruct (GetBits_array n bitBuffer bitsInBuffer rest) as (b0 & b' & H).
    eexists _, _, (taken n bitsInBuffer rest).
    split; [exact H|]. split; [apply taken_le_2|]. split; reflexivity.
  - intros -> Hlt. subst ib.
    unfold InputBuffer.GetBits. rewrite fill_exhausted. cbn.
    eexists. split; [reflexivity|]. cbn.
    split; [lia|]. split; [lia|]. apply and_mask.
Qed.

Lemma GetBits_unconditional_decrement_witness :
  exists ib',
    InputBuffer.GetBits 3 (InputBuffer.mk 5 1 (ArrayIterator []))
    = Ok (Js.and 5 (Js.shl 1 3 - 1), ib') /\
    InputBuffer.AvailableBits ib' = 1 - 3 /\
    InputBuffer.AvailableBits ib' < 0 /\
    (0 <= 3 <= 31 -> Js.and 5 (Js.shl 1 3 - 1) = 5 mod 2 ^ 3).
Proof.
  apply (proj2 (GetBits_unconditional_decrement 5 1 3 [])); [reflexivity | lia].
Defined.

(** ** BitReverse *)

Lemma mirror_range (k : nat) (x : Z) : 0 <= mirror k x < 2 ^ Z.of_nat k.
Proof.
  revert x. induction k as [|k IH]; intros x.
  - cbn. lia.
  - cbn [mirror]. specialize (IH (x / 2)).
    pose proof (Z.mod_pos_bound x 2).
    rewrite Nat2Z.inj_succ, Z.pow_succ_r by lia.
    nia.
Qed.

Lemma lor_even_bit (h b : Z) : 0 <= b <= 1 -> Z.lor (2 * h) b = 2 * h + b.
Proof.
  intros Hb. assert (b = 0 \/ b = 1) as [-> | ->] by lia.
  - rewrite Z.lor_0_r. lia.
  - apply Z.bits_inj'. intros i Hi.
    rewrite Z.lor_spec.
    destruct (Z.eq_dec i 0) as [-> | Hne].
    + rewrite Z.testbit_odd_0. apply orb_true_r.
    + replace i with (Z.succ (i - 1)) by lia.
      rewrite Z.testbit_even_succ, Z.testbit_odd_succ by lia.
      replace (Z.testbit 1 (Z.succ (i - 1))) with false; [apply orb_false_r|].
      symmetry. apply (Z.bits_above_log2 1); cbn; lia.
Qed.

Lemma BitReverse_loop_mirror (n : nat) (h code : Z) :
  0 <= h -> 0 <= code < 2 ^ 31 ->
  2 ^ (Z.of_nat n + 2) * (h + 1) <= 2 ^ 31 ->
  HuffmanTree.BitReverse_loop n (2 * h) code =
  2 ^ (Z.of_nat n + 1) * (2 * h) + 2 * mirror (S n) code.
Proof.
  revert h code. induction n as [|n IH]; intros h code Hh Hcode Hbound.
  all: pose proof (Z.mod_pos_bound code 2 ltac:(lia)) as Hb.
  all: assert (Hand : Js.and code 1 = code mod 2)
         by (unfold Js.and; rewrite !ToInt32_small by lia;
             change 1 with (Z.ones 1); rewrite Z.land_ones by lia; reflexivity).
  - cbn [HuffmanTree.BitReverse_loop mirror]. rewrite Hand.
    change (2 ^ (Z.of_nat 0 + 2)) with 4 in Hbound.
    assert (Hor : Js.or (2 * h) (code mod 2) = 2 * h + code mod 2).
    { unfold Js.or. rewrite (ToInt32_small (code mod 2)) by lia.
      rewrite ToInt32_small; [apply lor_even_bit; lia| lia]. }
    rewrite Hor.
    unfold Js.shl. change (1 mod 32) with 1.
    rewrite Z.shiftl_mul_pow2 by lia.
    rewrite (ToInt32_small (2 * h + code mod 2)) by lia.
    rewrite ToInt32_small by lia.
    change (Z.of_nat 0) with 0. lia.
  - assert (Hpow : 2 ^ (Z.of_nat (S n) + 2) = 2 * 2 ^ (Z.of_nat n + 2)).
    { rewrite Nat2Z.inj_succ. replace (Z.succ (Z.of_nat n) + 2) with (Z.succ (Z.of_nat n + 2)) by lia.
      apply Z.pow_succ_r. lia. }
    assert (0 < 2 ^ (Z.of_nat n + 2)) by (apply Z.pow_pos_nonneg; lia).
    assert (4 <= 2 ^ (Z.of_nat n + 2)).
    { change 4 with (2 ^ 2). apply Z.pow_le_mono_r; lia. }
    assert (Hsmall : 8 * (h + 1) <= 2 ^ 31) by (rewrite Hpow in Hbound; nia).
    cbn [HuffmanTree.BitReverse_loop]. rewrite Hand.
    assert (Hor' : Js.or (2 * h) (code mod 2) = 2 * h + code mod 2).
    { unfold Js.or. rewrite (ToInt32_small (code mod 2)) by lia.
      rewrite ToInt32_small; [apply lor_even_bit; lia| lia]. }
    rewrite Hor'.
    assert (Hshl : Js.shl (2 * h + code mod 2) 1 = 2 * (2 * h + code mod 2)).
    { unfold Js.shl. change (1 mod 32) with 1.
      rewrite Z.shiftl_mul_pow2 by lia.
      rewrite (ToInt32_small (2 * h + code mod 2)) by lia.
      rewrite ToInt32_small by lia. lia. }
    rewrite Hshl.
    assert (Hshr : Js.shr code 1 = code / 2).
    { unfold Js.shr. change (1 mod 32) with 1.
      rewrite ToInt32_small by lia. rewrite Z.shiftr_div_pow2 by lia. reflexivity. }
    rewrite Hshr.
    rewrite IH.
    + cbn [mirror].
      rewrite !Nat2Z.inj_succ.
      replace (Z.succ (Z.of_nat n) + 1) with (Z.succ (Z.of_nat n + 1)) by lia.
      rewrite Z.pow_succ_r by lia.
      rewrite (Z.pow_succ_r 2 (Z.of_nat n)) by lia.
      replace (Z.of_nat n + 1) with (Z.succ (Z.of_nat n)) by lia.
      rewrite (Z.pow_succ_r 2 (Z.of_nat n)) by lia.
      ring.
    + lia.
    + split; [apply Z.div_pos; lia|]. apply Z.div_lt_upper_bound; lia.
    + nia.
Qed.

(** BitReverse computes [mirror] on the widths the tables use. *)
Lemma BitReverse_mirror (x n : Z) :
  1 <= n <= 16 -> 0 <= x < 2 ^ 31 ->
  HuffmanTree.BitReverse x n = mirror (Z.to_nat n) x.
Proof.
  intros Hn Hx. unfold HuffmanTree.BitReverse.
  assert (Hpow : 2 ^ (Z.of_nat (Z.to_nat (n - 1)) + 2) <= 2 ^ 17)
    by (apply Z.pow_le_mono_r; lia).
  change 0 with (2 * 0) at 1.
  rewrite BitReverse_loop_mirror by lia.
  replace (S (Z.to_nat (n - 1))) with (Z.to_nat n) by lia.
  pose proof (mirror_range (Z.to_nat n) x) as Hr.
  assert (2 ^ Z.of_nat (Z.to_nat n) <= 2 ^ 16) by (apply Z.pow_le_mono_r; lia).
  unfold Js.shr. change (1 mod 32) with 1.
  rewrite ToInt32_small by lia.
  rewrite Z.shiftr_div_pow2 by lia.
  change (2 * 0) with 0. rewrite Z.mul_0_r, Z.add_0_l.
  change (2 ^ 1) with 2. rewrite Z.mul_comm. apply Z.div_mul. lia.
Qed.

Lemma mirror_testbit (k : nat) (x i : Z) :
  0 <= i < Z.of_nat k ->
  Z.testbit (mirror k x) i = Z.testbit x (Z.of_nat k - 1 - i).
Proof.
  revert x i. induction k as [|k IH]; intros x i Hi; [lia|].
  cbn [mirror].
  pose proof (mirror_range k (x / 2)) as Hr.
  destruct (Z.eq_dec i (Z.of_nat k)) as [-> | Hne].
  - replace (Z.of_nat (S k) - 1 - Z.of_nat k) with 0 by lia.
    replace (Z.of_nat k) with (0 + Z.of_nat k) at 2 by lia.
    rewrite <- Z.div_pow2_bits by lia.
    rewrite Z.div_add_l by lia.
    rewrite (Z.div_small (mirror k (x / 2))) by lia.
    rewrite Z.add_0_r.
    change 2 with (2 ^ 1) at 1.
    apply Z.mod_pow2_bits_low. lia.
  - assert (Hlt : 0 <= i < Z.of_nat k) by lia.
    rewrite <- (Z.mod_pow2_bits_low _ (Z.of_nat k)) by lia.
    rewrite Z.add_comm, Z_mod_plus_full.
    rewrite Z.mod_small by lia.
    rewrite IH by lia.
    change 2 with (2 ^ 1).
    rewrite Z.div_pow2_bits by lia.
    f_equal. lia.
Qed.

Lemma mirror_involutive (k : nat) (x : Z) :
  0 <= x < 2 ^ Z.of_nat k -> mirror k (mirror k x) = x.
Proof.
  intros Hx. apply Z.bits_inj'. intros i Hi.
  destruct (Z_lt_dec i (Z.of_nat k)) as [Hlt | Hge].
  - rewrite !mirror_testbit by lia. f_equal. lia.
  - pose proof (mirror_range k (mirror k x)) as Hr.
    rewrite <- (Z.mod_small (mirror k (mirror k x)) (2 ^ Z.of_nat k)) by lia.
    rewrite <- (Z.mod_small x (2 ^ Z.of_nat k)) at 2 by lia.
    rewrite !Z.mod_pow2_bits_high by lia. reflexivity.
Qed.

(** C9: reversing the low [n] bits twice gives the number back, for every
    width from 1 to 16. *)
Theorem BitReverse_involutive (x n : Z) :
  1 <= n <= 16 -> 0 <= x < 2 ^ n ->
  HuffmanTree.BitReverse (HuffmanTree.BitReverse x n) n = x.
Proof.
  intros Hn Hx.
  assert (2 ^ n <= 2 ^ 16) by (apply Z.pow_le_mono_r; lia).
  rewrite (BitReverse_mirror x n) by lia.
  pose proof (mirror_range (Z.to_nat n) x) as Hr.
  rewrite Z2Nat.id in Hr by lia.
  rewrite BitReverse_mirror by lia.
  apply mirror_involutive. rewrite Z2Nat.id by lia. lia.
Qed.

Lemma BitReverse_involutive_witness :
  HuffmanTree.BitReverse (HuffmanTree.BitReverse 6 3) 3 = 6.
Proof.
  apply (BitReverse_involutive 6 3); [lia | split; [lia | reflexivity]].
Defined.

(** ** The engine over an iterator of numbers *)

Lemma Inflate_GetBits_array (n : Z) (e : Inflate.t) :
  over_array e -> 0 <= n <= 31 ->
  exists bits e',
    Inflate.GetBits n e = Ok (bits, e') /\ 0 <= bits < 2 ^ n /\ over_array e'.
Proof.
  intros [rest Hrest] Hn. unfold Inflate.GetBits.
  destruct (Inflate._input e) as [bb cnt it] eqn:Hin. cbn in Hrest. subst it.
  destruct (GetBits_array n bb cnt rest) as (b0 & b' & ->). cbn.
  eexists _, _. split; [reflexivity|].
  split; [apply and_mask_range; lia|].
  eexists. reflexivity.
Qed.

(** The comparison [LEN != ~NLEN] has a non-negative number on the left
    and a negative one on the right: every stored block is refused. *)
Lemma DecodeUncompressedBlock_always_throws (e : Inflate.t) :
  over_array e ->
  Inflate.DecodeUncompressedBlock e = Throw Inflate.InvalidBlockLength.
Proof.
  intros He. unfold Inflate.DecodeUncompressedBlock.
  set (e0 := Inflate.set_input _ e).
  assert (H0 : over_array e0).
  { destruct He as [rest Hrest]. exists rest. subst e0. cbn. exact Hrest. }
  destruct (Inflate_GetBits_array 8 e0 H0 ltac:(lia)) as (lo & e1 & -> & Hlo & H1); cbn.
  destruct (Inflate_GetBits_array 8 e1 H1 ltac:(lia)) as (hi & e2 & -> & Hhi & H2); cbn.
  set (e3 := Inflate.set_lengthUncompressed _ e2).
  assert (H3 : over_array e3) by exact H2.
  destruct (Inflate_GetBits_array 8 e3 H3 ltac:(lia)) as (lo' & e4 & E4 & Hlo' & H4).
  rewrite E4; cbn.
  destruct (Inflate_GetBits_array 8 e4 H4 ltac:(lia)) as (hi' & e5 & E5 & Hhi' & H5).
  rewrite E5; cbn.
  assert (Hlen : Inflate._lengthUncompressed e5 = lo + hi * 256).
  { unfold Inflate.GetBits in E4, E5.
    destruct (InputBuffer.GetBits 8 (Inflate._input e3)) as [[? ?]| | |]; cbn in E4; try discriminate.
    destruct (InputBuffer.GetBits 8 (Inflate._input e4)) as [[? ?]| | |]; cbn in E5; try discriminate.
    injection E4 as _ <-. injection E5 as _ <-. reflexivity. }
  rewrite Hlen.
  unfold Js.not. rewrite ToInt32_small by lia.
  unfold Z.lnot.
  destruct (Z.eqb_spec (lo + hi * 256) (Z.pred (- (lo' + hi' * 256)))) as [Heq | Hne]; [lia|].
  reflexivity.
Qed.

(** C1: the stored block of scenario S2 has LEN = 1 and NLEN = 0xFFFE, so
    LEN is the 16-bit complement of NLEN, but the engine refuses it at the
    first pull: the code compares LEN with the 32-bit complement. *)
Theorem stored_block_S2_refused (fuel : nat) :
  Z.land (Z.lnot 0xFFFE) 0xFFFF = 1 /\
  Js.not 0xFFFE = -65535 /\
  Inflate.next (S fuel)
    (Inflate.new (ArrayIterator [0x01; 0x01; 0x00; 0xFE; 0xFF; 0x41]) None)
  = Throw Inflate.InvalidBlockLength.
Proof.
  split; [reflexivity|]. split; [reflexivity|].
  vm_compute. reflexivity.
Qed.

(** C2: on the three bytes of scenario S3 the first pull throws the
    exception of GetNextSymbol; no byte is produced.  The lengths of the
    static tree are counted by index, the largest index becomes the
    number of bits to load, and the bits 0x89 that follow the block
    header select the entry 27. *)
Theorem static_block_S3_throws (fuel : nat) :
  HuffmanTree.bitLengthCount HuffmanTree.GetStaticLiteralTreeLength
  = [0; 1; 1; 1; 1; 1; 1; 1; 1; 1; 1; 1; 1; 1; 1; 1; 1] /\
  (exists tree,
      HuffmanTree.s_staticLiteralLengthTree = Ok tree /\
      HuffmanTree._maxCodeLength tree = 287 /\
      Js.get (HuffmanTree._table tree) 0x89 = Some 27) /\
  Inflate.next (S fuel) (Inflate.new (ArrayIterator [0x4B; 0x04; 0x00]) None)
  = Throw HuffmanTree.EndOfStreamException.
Proof.
  split; [vm_compute; reflexivity|].
  split; [eexists; split; [vm_compute; reflexivity|]; split; reflexivity|].
  vm_compute. reflexivity.
Qed.

(** ** The arrays of a Huffman table hold bytes *)

Lemma bytes_new_u8 (n : Z) : bytes (Js.new_u8 n).
Proof.
  unfold bytes, Js.new_u8. apply Forall_replicate. lia.
Qed.

Lemma bytes_set_u8 (a : list Z) (i v : Z) : bytes a -> bytes (Js.set_u8 a i v).
Proof.
  intros Ha. unfold Js.set_u8. destruct (i <? 0); [exact Ha|].
  apply Forall_insert; [exact Ha|].
  unfold Js.ToUint8. apply Z.mod_pos_bound. lia.
Qed.

Lemma bytes_get (a : list Z) (i x : Z) : bytes a -> Js.get a i = Some x -> 0 <= x < 256.
Proof.
  unfold bytes, Js.get. intros Ha Hget.
  destruct (i <? 0); [discriminate|].
  rewrite Forall_lookup in Ha. exact (Ha _ _ Hget).
Qed.

Lemma bytes_write (w : HuffmanTree.which) (a : HuffmanTree.arrays) (i v : Z) :
  bytes_arrays a -> bytes_arrays (HuffmanTree.write w a i v).
Proof.
  intros (Ht & Hl & Hr).
  destruct w; repeat split; cbn; auto using bytes_set_u8.
Qed.

Lemma bytes_duplicate (locs : nat) (start increment ch : Z) (table : list Z) :
  bytes table -> bytes (HuffmanTree.duplicate locs start increment ch table).
Proof.
  revert start table. induction locs as [|locs IH]; intros start table Ht; cbn.
  - exact Ht.
  - apply IH, bytes_set_u8, Ht.
Qed.

Lemma bytes_descend (n : nat) (start mask : Z) (w : HuffmanTree.which)
    (index : option Z) (a : HuffmanTree.arrays) w' index' a' :
  bytes_arrays a ->
  HuffmanTree.descend n start mask w index a = Ok (w', index', a') ->
  bytes_arrays a'.
Proof.
  revert mask w index a. induction n as [|n IH]; intros mask w index a Ha H;
    cbn [HuffmanTree.descend] in H.
  - injection H as _ _ <-. exact Ha.
  - destruct index as [i|]; cbn in H; [|eapply IH; [exact Ha | exact H]].
    destruct (HuffmanTree.read w a i) as [value|]; cbn in H;
      [|eapply IH; [exact Ha | exact H]].
    destruct (value =? 0).
    + destruct (0 <? - HuffmanTree.avail a); [discriminate|].
      eapply IH; [|exact H].
      destruct (bytes_write w a i (- HuffmanTree.avail a) Ha) as (? & ? & ?).
      repeat split; assumption.
    + destruct (0 <? value); [discriminate|].
      eapply IH; [exact Ha | exact H].
Qed.

Lemma bytes_insert_symbol (tableBits : Z) (cl code : list Z)
    (a : HuffmanTree.arrays) (ch : Z) a' :
  bytes_arrays a ->
  HuffmanTree.insert_symbol tableBits cl code a ch = Ok a' ->
  bytes_arrays a'.
Proof.
  intros Ha H. unfold HuffmanTree.insert_symbol in H.
  destruct (0 <? default 0 (Js.get cl ch)); [|injection H as <-; exact Ha].
  destruct (default 0 (Js.get cl ch) <=? tableBits).
  - destruct (Js.get code ch) as [start|]; [|injection H as <-; exact Ha].
    destruct (Js.shl 1 (default 0 (Js.get cl ch)) <=? start); [discriminate|].
    injection H as <-. destruct Ha as (Ht & Hl & Hr).
    repeat split; cbn; auto using bytes_duplicate.
  - destruct (HuffmanTree.descend _ _ _ _ _ _) as [[[w index] a1]| | |] eqn:Hd;
      cbn in H; try discriminate.
    injection H as <-.
    assert (Ha1 : bytes_arrays a1) by (eapply bytes_descend; [exact Ha | exact Hd]).
    destruct index as [i|]; [apply bytes_write|]; exact Ha1.
Qed.

Lemma bytes_insert_symbols (tableBits : Z) (cl code chs : list Z)
    (a : HuffmanTree.arrays) a' :
  bytes_arrays a ->
  HuffmanTree.insert_symbols tableBits cl code chs a = Ok a' ->
  bytes_arrays a'.
Proof.
  revert a. induction chs as [|ch chs IH]; intros a Ha H; cbn in H.
  - injection H as <-. exact Ha.
  - destruct (HuffmanTree.insert_symbol tableBits cl code a ch) as [a1| | |] eqn:H1;
      cbn in H; try discriminate.
    eapply IH; [|exact H]. eapply bytes_insert_symbol; [exact Ha | exact H1].
Qed.

(** Whatever the code lengths, a table that the constructor returns has
    no negative entry in [_table], [_left] or [_right]. *)
Lemma constructed_tables_hold_bytes (codeLengths : list Z) (tree : HuffmanTree.t) :
  HuffmanTree.new codeLengths = Ok tree ->
  bytes (HuffmanTree._table tree) /\ bytes (HuffmanTree._left tree) /\
  bytes (HuffmanTree._right tree).
Proof.
  unfold HuffmanTree.new, HuffmanTree.CreateTable. intros H.
  destruct (Z.of_nat (length codeLengths) =? HuffmanTree.MaxLiteralTreeElements).
  all: match type of H with
       | context [HuffmanTree.insert_symbols ?b ?c ?d ?k ?a] =>
           destruct (HuffmanTree.insert_symbols b c d k a) as [a'| | |] eqn:Hi;
           cbn in H; try discriminate;
           injection H as <-; cbn;
           apply (bytes_insert_symbols b c d k a a'); [|exact Hi];
           repeat split; cbn; apply bytes_new_u8
       end.
Qed.

(** Hence GetNextSymbol on a constructed table never takes the branch
    [symbol < 0], and the symbol it returns is the entry of the direct
    table, a number below 256. *)
Lemma GetNextSymbol_never_walks (codeLengths : list Z) (tree : HuffmanTree.t)
    (input : InputBuffer.t) :
  HuffmanTree.new codeLengths = Ok tree ->
  HuffmanTree.GetNextSymbol tree input =
    ('(bitBuffer, symbol, input) ← HuffmanTree.consult tree input;
     codeLength ← defined (Js.get (HuffmanTree._codeLengthArray tree) symbol);
     if InputBuffer.AvailableBits input <? codeLength
     then Throw HuffmanTree.EndOfStreamException
     else Ok (symbol, InputBuffer.SkipBits codeLength input)) /\
  match HuffmanTree.consult tree input with
  | Ok (_, symbol, _) => 0 <= symbol < 256
  | _ => True
  end.
Proof.
  intros Hnew. destruct (constructed_tables_hold_bytes _ _ Hnew) as (Ht & _ & _).
  unfold HuffmanTree.GetNextSymbol.
  assert (Hc : match HuffmanTree.consult tree input with
               | Ok (_, symbol, _) => 0 <= symbol < 256
               | _ => True
               end).
  { unfold HuffmanTree.consult.
    destruct (InputBuffer.TryGetBits _ input) as [[bb input']| | |]; cbn; try exact I.
    destruct (Js.get _ _) as [symbol|] eqn:Hget; cbn; [|exact I].
    eapply bytes_get; eassumption. }
  split; [|exact Hc].
  destruct (HuffmanTree.consult tree input) as [[[bb symbol] input']| | |]; cbn; try reflexivity.
  destruct (Z.ltb_spec symbol 0); [lia|]. reflexivity.
Qed.

Lemma GetNextSymbol_below_256 (codeLengths : list Z) (tree : HuffmanTree.t)
    (input input' : InputBuffer.t) (symbol : Z) :
  HuffmanTree.new codeLengths = Ok tree ->
  HuffmanTree.GetNextSymbol tree input = Ok (symbol, input') ->
  0 <= symbol < 256.
Proof.
  intros Hnew H.
  destruct (GetNextSymbol_never_walks codeLengths tree input Hnew) as [Heq Hc].
  rewrite Heq in H.
  destruct (HuffmanTree.consult tree input) as [[[bb s] i]| | |]; cbn in H; try discriminate.
  destruct (Js.get _ s) as [cl|]; cbn in H; [|discriminate].
  destruct (_ <? cl); [discriminate|].
  injection H as <- _. exact Hc.
Qed.

(** C3: in the table built from 32 code lengths of which the first is 8,
    the code of symbol 0 is longer than the 7 bits of the direct table.
    The entry for its first seven bits is written as [-avail] = -32 and
    reads back as 224: not negative, and not a symbol of the alphabet.
    GetNextSymbol consults this entry on the bits 1111111 and its test
    [symbol < 0] fails. *)
Theorem long_code_entry_reads_back_positive :
  exists tree,
    HuffmanTree.new (8 :: replicate 31 0) = Ok tree /\
    HuffmanTree._tableBits tree = 7 /\
    Js.get (HuffmanTree.CalculateHuffmanCode (8 :: replicate 31 0)) 0 = Some 127 /\
    Js.ToUint8 (-32) = 224 /\
    Js.get (HuffmanTree._table tree) 127 = Some 224 /\
    Js.get (HuffmanTree._left tree) 32 = Some 0 /\
    (exists input',
        HuffmanTree.consult tree (InputBuffer.new (ArrayIterator [0x7F; 0x00]))
        = Ok (0x7F, 224, input')) /\
    (224 <? 0) = false /\
    Js.get (HuffmanTree._codeLengthArray tree) 224 = None.
Proof.
  eexists. split; [vm_compute; reflexivity|].
  repeat split; try (vm_compute; reflexivity).
  eexists. vm_compute. reflexivity.
Qed.

(** C4: the calls that the engine makes on the InputBuffer for a static
    block take the count out of 0..32.  Every GetNextSymbol asks
    TryGetBits for 287 bits, so two bytes are loaded whenever they are
    there, and a symbol gives back 8 or 9: before the third symbol the
    count is 21, the second byte loaded is shifted by 29 and loses its five
    high bits, and the count becomes 37.  On an exhausted producer GetBits
    leaves the count at -1. *)
Theorem InputBuffer_count_leaves_its_range :
  (exists tree b1 ib1 b2 ib2 s1 ib3 s2 ib4 ib4' ib5,
      HuffmanTree.s_staticLiteralLengthTree = Ok tree /\
      InputBuffer.GetBits 1
        (InputBuffer.new (ArrayIterator [0x4B; 0; 0; 0; 0; 0; 0xFF])) = Ok (b1, ib1) /\
      InputBuffer.GetBits 2 ib1 = Ok (b2, ib2) /\
      HuffmanTree.GetNextSymbol tree ib2 = Ok (s1, ib3) /\
      HuffmanTree.GetNextSymbol tree ib3 = Ok (s2, ib4) /\
      InputBuffer._bitsInBuffer ib4 = 21 /\
      InputBuffer.load (HuffmanTree._maxCodeLength tree) ib4 = Ok (true, ib4') /\
      InputBuffer._bitsInBuffer ib4' = 29 /\
      InputBuffer._iterator ib4' = ArrayIterator [0xFF] /\
      InputBuffer.load (HuffmanTree._maxCodeLength tree) ib4' = Ok (true, ib5) /\
      InputBuffer._bitsInBuffer ib5 = 37 /\
      InputBuffer._bitBuffer ib5 = Js.ToInt32 (0x07 * 2 ^ 29)) /\
  (exists bits ib,
      InputBuffer.GetBits 1 (InputBuffer.new (ArrayIterator [])) = Ok (bits, ib) /\
      InputBuffer._bitsInBuffer ib = -1).
Proof.
  split.
  - eexists _, _, _, _, _, _, _, _, _, _, _.
    repeat (split; [vm_compute; reflexivity|]).
    vm_compute; reflexivity.
  - eexists _, _. split; vm_compute; reflexivity.
Qed.

(** C5: for an iterable [source], the enumerable that asInflatable returns
    builds its engine on the method [source[Symbol.iterator]], not on the
    iterator that the method would return, and the first [next()] of the
    engine fails with a TypeError.  Both files declare the function with
    the same text. *)
Theorem asInflatable_first_next_fails (source : Iterable) (fuel : nat) :
  exists enumerable engine,
    FlateTs.asInflatable (ArgIterable source) = Ok (Some enumerable) /\
    ZlibIterable.asInflatable (ArgIterable source) = Ok (Some enumerable) /\
    FlateEnumerable_iterator enumerable = Ok engine /\
    InputBuffer._iterator (Inflate._input engine) = IteratorMethod source /\
    IteratorMethod source <> GetIterator source /\
    Inflate.next (S fuel) engine = Throw TypeError.
Proof.
  eexists _, _.
  split; [reflexivity|]. split; [reflexivity|]. split; [reflexivity|].
  split; [reflexivity|]. split; [destruct source; discriminate|].
  reflexivity.
Qed.

(** C6: zlibInflate returns null for every argument, in each file that
    declares it.  An engine made through an exported function of
    zlib-iterable.ts is a plain Inflate without a checksum callback, while
    every ZLibInflate carries its callback: no exported function builds a
    ZLibInflate. *)
Theorem zlibInflate_returns_null (source : argument) :
  ZlibIterable.zlibInflate source = Ok None /\
  FlateTs.zlibInflate source = Ok None /\
  Placeholder.zlibInflate source = Ok None /\
  Forall (fun f : exported =>
            match f source with
            | Ok (Some enumerable) =>
                forall iterator, _factory enumerable iterator = Inflate.new iterator None
            | _ => True
            end) ZlibIterable.exports /\
  (forall iterator,
      match ZlibIterable.ZLibInflate.new iterator with
      | Ok engine => Inflate._verifyAdler engine = Some ZlibIterable.ZLibInflate.verify
      | _ => True
      end).
Proof.
  split; [reflexivity|]. split; [reflexivity|]. split; [reflexivity|]. split.
  - unfold ZlibIterable.exports. repeat constructor.
    destruct source; cbn; auto.
  - intros iterator. unfold ZlibIterable.ZLibInflate.new.
    destruct (iterator_next iterator) as [[[cm|] it1]| | |]; cbn; try exact I.
    destruct (negb _); [exact I|].
    destruct (_ <? _); [exact I|].
    destruct (iterator_next it1) as [[[value|] it2]| | |]; cbn; try exact I.
    destruct (negb _); [exact I|]. reflexivity.
Qed.

(** ** Distance codes 30 and 31 *)

(** The table of base distances has 32 entries; the last two, which its
    comment does not count ("distance code 0 - 29"), are 0. *)
Lemma s_distanceBasePosition_30_31 :
  length Inflate.s_distanceBasePosition = 32%nat /\
  Js.get Inflate.s_distanceBasePosition 30 = Some 0 /\
  Js.get Inflate.s_distanceBasePosition 31 = Some 0.
Proof. repeat split. Qed.

Lemma GetBits_throws_only_TypeError (n : Z) (e : Inflate.t) (x : exn) :
  Inflate.GetBits n e = Throw x -> x = TypeError.
Proof.
  unfold Inflate.GetBits, InputBuffer.GetBits, InputBuffer.fill, InputBuffer.load.
  destruct (InputBuffer._bitsInBuffer (Inflate._input e) <? n); cbn; [|discriminate].
  destruct (InputBuffer._iterator (Inflate._input e)) as [[|b rest]|target]; cbn;
    try discriminate.
  - destruct (InputBuffer._bitsInBuffer (Inflate._input e) + 8 <? n); cbn; [|discriminate].
    destruct rest; cbn; discriminate.
  - intros H. injection H as <-. reflexivity.
Qed.

Lemma copy_straight_never_throws (length_ : nat) (copyStart : Z) (e : Inflate.t) (x : exn) :
  Inflate.copy_straight length_ copyStart e <> Throw x.
Proof.
  revert copyStart e. induction length_ as [|length_ IH]; intros copyStart e; cbn.
  - discriminate.
  - destruct (Inflate._window e !! copyStart); cbn; [apply IH | discriminate].
Qed.

Lemma copy_wrapping_never_throws (length_ : nat) (copyStart : Z) (e : Inflate.t) (x : exn) :
  Inflate.copy_wrapping length_ copyStart e <> Throw x.
Proof.
  revert copyStart e. induction length_ as [|length_ IH]; intros copyStart e; cbn.
  - discriminate.
  - destruct (Inflate._window e !! copyStart); cbn; [apply IH | discriminate].
Qed.

Lemma WriteLengthDistance_never_throws (length_ distance : Z) (e : Inflate.t) (x : exn) :
  Inflate.WriteLengthDistance length_ distance e <> Throw x.
Proof.
  unfold Inflate.WriteLengthDistance.
  destruct (_ && _); [apply copy_straight_never_throws | apply copy_wrapping_never_throws].
Qed.

(** The loop body of DecodeBlock tests the length symbol against its
    tables and throws GenericInvalidData outside them, but it has no such
    test for the distance code.  Were a length symbol ever decoded and
    the distance code 30 or 31, the body would look up
    [s_distanceBasePosition], find 0, read 14 extra bits and copy from the
    distance [0 + bits]. *)
Lemma distance_codes_30_31_take_14_bits
    (smbl length_ distanceCode : Z) (e e1 e2 : Inflate.t) :
  Inflate.DecodeLength smbl e = Ok (length_, e1) ->
  Inflate.DecodeDistanceCode e1 = Ok (distanceCode, e2) ->
  distanceCode = 30 \/ distanceCode = 31 ->
  Js.get Inflate.s_distanceBasePosition distanceCode = Some 0 /\
  Inflate.DecodeOffset distanceCode e2 =
    ('(bits, e3) ← Inflate.GetBits 14 e2; Ok (0 + bits, e3)) /\
  Inflate.DecodePair smbl e =
    ('(bits, e3) ← Inflate.GetBits 14 e2;
     e4 ← Inflate.WriteLengthDistance length_ (0 + bits) e3;
     Ok (length_, e4)) /\
  Inflate.DecodePair smbl e <> Throw Inflate.GenericInvalidData.
Proof.
  intros Hlen Hcode Hd.
  assert (Hoff : Inflate.DecodeOffset distanceCode e2 =
                 ('(bits, e3) ← Inflate.GetBits 14 e2; Ok (0 + bits, e3))).
  { destruct Hd as [-> | ->]; unfold Inflate.DecodeOffset; cbn;
      destruct (Inflate.GetBits _ e2) as [[bits e3]| | |]; reflexivity. }
  assert (Hpair : Inflate.DecodePair smbl e =
                  ('(bits, e3) ← Inflate.GetBits 14 e2;
                   e4 ← Inflate.WriteLengthDistance length_ (0 + bits) e3;
                   Ok (length_, e4))).
  { unfold Inflate.DecodePair. rewrite Hlen; cbn. rewrite Hcode; cbn.
    rewrite Hoff.
    destruct (Inflate.GetBits 14 e2) as [[bits e3]| | |]; reflexivity. }
  split; [destruct Hd as [-> | ->]; reflexivity|].
  split; [exact Hoff|]. split; [exact Hpair|].
  rewrite Hpair.
  destruct (Inflate.GetBits 14 e2) as [[bits e3]|x| |] eqn:Hbits; cbn; try discriminate.
  - pose proof (WriteLengthDistance_never_throws length_ (0 + bits) e3
                  Inflate.GenericInvalidData) as Hw.
    destruct (Inflate.WriteLengthDistance length_ (0 + bits) e3); cbn;
      [discriminate | | discriminate | discriminate].
    intros H. injection H as ->. apply Hw. reflexivity.
  - apply GetBits_throws_only_TypeError in Hbits. subst x. discriminate.
Qed.

Lemma distance_codes_30_31_take_14_bits_witness :
  Js.get Inflate.s_distanceBasePosition 30 = Some 0 /\
  Inflate.DecodeOffset 30 static_code_15_read =
    ('(bits, e3) ← Inflate.GetBits 14 static_code_15_read; Ok (0 + bits, e3)) /\
  Inflate.DecodePair 257 static_code_15 =
    ('(bits, e3) ← Inflate.GetBits 14 static_code_15_read;
     e4 ← Inflate.WriteLengthDistance 3 (0 + bits) e3;
     Ok (3, e4)) /\
  Inflate.DecodePair 257 static_code_15 <> Throw Inflate.GenericInvalidData.
Proof.
  apply (distance_codes_30_31_take_14_bits 257 3 30 static_code_15 static_code_15
           static_code_15_read);
    [vm_compute; reflexivity | vm_compute; reflexivity | left; reflexivity].
Defined.

(** The first two calls of [next] on [distance_30_block]. *)
Lemma distance_30_block_pulls :
  match Inflate.next 2 (Inflate.new (ArrayIterator distance_30_block) None) with
  | Ok (Inflate.Value value, e') =>
      value = Some 0x41 /\
      match Inflate.next 1 e' with
      | Ok (Inflate.Value value', _) => value' = Some 0x01
      | _ => False
      end
  | _ => False
  end.
Proof.
  vm_compute. split; reflexivity.
Qed.


(** ** The ZLIB header *)

Lemma header_arithmetic (cmf flg : Z) :
  0 <= cmf < 256 -> 0 <= flg < 256 ->
  Js.and cmf 0xf = cmf mod 16 /\
  Js.shr cmf 4 = cmf / 16 /\
  Js.rem (Js.shl cmf 8 + flg) 31 = (cmf * 256 + flg) mod 31.
Proof.
  intros Hc Hf. repeat split.
  - unfold Js.and. rewrite !ToInt32_small by lia.
    change 15 with (Z.ones 4). apply Z.land_ones. lia.
  - unfold Js.shr. rewrite ToInt32_small by lia. change (4 mod 32) with 4.
    apply Z.shiftr_div_pow2. lia.
  - unfold Js.rem, Js.shl. change (8 mod 32) with 8.
    rewrite (ToInt32_small cmf) by lia.
    rewrite Z.shiftl_mul_pow2 by lia.
    rewrite ToInt32_small by lia.
    change (2 ^ 8) with 256.
    apply Z.rem_mod_nonneg; lia.
Qed.

(** C8, as stated, fails: the header 78 20 has FDICT set and satisfies
    the three constraints, and the constructor returns an engine. *)
Lemma FDICT_header_is_accepted :
  Z.testbit 0x20 5 = true /\
  0x78 mod 16 = 8 /\ 0x78 / 16 + 8 <= 15 /\ (0x78 * 256 + 0x20) mod 31 = 0 /\
  ZlibIterable.ZLibInflate.new (ArrayIterator [0x78; 0x20])
  = Ok (Inflate.new (ArrayIterator []) (Some ZlibIterable.ZLibInflate.verify)) /\
  forall e : exn, ZlibIterable.ZLibInflate.new (ArrayIterator [0x78; 0x20]) <> Throw e.
Proof.
  assert (Hnew : ZlibIterable.ZLibInflate.new (ArrayIterator [0x78; 0x20])
                 = Ok (Inflate.new (ArrayIterator [])
                         (Some ZlibIterable.ZLibInflate.verify))) by reflexivity.
  split; [reflexivity|]. split; [reflexivity|]. split; [vm_compute; discriminate|].
  split; [reflexivity|]. split; [exact Hnew|].
  intros e. rewrite Hnew. discriminate.
Qed.

(** C8, amended: the constructor does not look at the FDICT bit.  When
    CMF and FLG satisfy the constraints on the compression method, the
    window size and the header check, it returns an engine that reads what
    follows the two bytes, whatever bit 5 of FLG is. *)
Theorem ZLibInflate_does_not_test_FDICT (cmf flg : Z) (rest : list Z) :
  0 <= cmf < 256 -> 0 <= flg < 256 ->
  cmf mod 16 = 8 -> cmf / 16 + 8 <= 15 -> (cmf * 256 + flg) mod 31 = 0 ->
  ZlibIterable.ZLibInflate.new (ArrayIterator (cmf :: flg :: rest))
  = Ok (Inflate.new (ArrayIterator rest) (Some ZlibIterable.ZLibInflate.verify)).
Proof.
  intros Hc Hf Hmethod Hwindow Hcheck.
  destruct (header_arithmetic cmf flg Hc Hf) as (Hand & Hshr & Hrem).
  unfold ZlibIterable.ZLibInflate.new. cbn.
  rewrite Hand, Hmethod. cbn.
  rewrite Hshr.
  destruct (Z.ltb_spec 15 (cmf / 16 + 8)) as [Hbad | _]; [lia|].
  cbn. rewrite Hrem, Hcheck. reflexivity.
Qed.

Lemma ZLibInflate_does_not_test_FDICT_witness :
  ZlibIterable.ZLibInflate.new (ArrayIterator (0x78 :: 0x20 :: [0x4B; 0x04; 0x00]))
  = Ok (Inflate.new (ArrayIterator [0x4B; 0x04; 0x00])
          (Some ZlibIterable.ZLibInflate.verify)).
Proof.
  apply (ZLibInflate_does_not_test_FDICT 0x78 0x20 [0x4B; 0x04; 0x00]);
    [lia | lia | reflexivity | vm_compute; discriminate | reflexivity].
Defined.

Lemma fill_not_OutOfFuel (count : Z) (ib : InputBuffer.t) :
  InputBuffer.fill count ib <> OutOfFuel.
Proof.
  unfold InputBuffer.fill, InputBuffer.load.
  destruct (InputBuffer._bitsInBuffer ib <? count); cbn; [|discriminate].
  destruct (InputBuffer._iterator ib) as [[|b rest]|target]; cbn; try discriminate.
  destruct (InputBuffer._bitsInBuffer ib + 8 <? count); cbn; [|discriminate].
  destruct rest; cbn; discriminate.
Qed.

Lemma Inflate_GetBits_not_OutOfFuel (n : Z) (e : Inflate.t) :
  Inflate.GetBits n e <> OutOfFuel.
Proof.
  unfold Inflate.GetBits, InputBuffer.GetBits.
  pose proof (fill_not_OutOfFuel n (Inflate._input e)) as Hfill.
  destruct (InputBuffer.fill n (Inflate._input e)); cbn; congruence.
Qed.

(** The loops of CreateTable, and with them the constructor, return or
    throw "InvalidHuffmanData" on every vector of code lengths. *)
Lemma descend_total (n : nat) (start mask : Z) (w : HuffmanTree.which)
    (index : option Z) (a : HuffmanTree.arrays) :
  match HuffmanTree.descend n start mask w index a with
  | Ok _ => True
  | Throw x => x = HuffmanTree.InvalidHuffmanData
  | Stuck | OutOfFuel => False
  end.
Proof.
  revert mask w index a. induction n as [|n IH]; intros mask w index a;
    cbn [HuffmanTree.descend].
  - exact I.
  - destruct index as [i|]; cbn; [|apply IH].
    destruct (HuffmanTree.read w a i) as [value|]; cbn; [|apply IH].
    destruct (value =? 0).
    + destruct (0 <? - HuffmanTree.avail a); [reflexivity | apply IH].
    + destruct (0 <? value); [reflexivity | apply IH].
Qed.

Lemma insert_symbol_total (tableBits : Z) (cl code : list Z)
    (a : HuffmanTree.arrays) (ch : Z) :
  match HuffmanTree.insert_symbol tableBits cl code a ch with
  | Ok _ => True
  | Throw x => x = HuffmanTree.InvalidHuffmanData
  | Stuck | OutOfFuel => False
  end.
Proof.
  unfold HuffmanTree.insert_symbol.
  destruct (0 <? default 0 (Js.get cl ch)); [|exact I].
  destruct (_ <=? tableBits).
  - destruct (Js.get code ch) as [start|]; [|exact I].
    destruct (_ <=? start); [reflexivity | exact I].
  - match goal with
    | |- context [HuffmanTree.descend ?n ?s ?m ?w ?i ?x] =>
        pose proof (descend_total n s m w i x) as Hd;
        destruct (HuffmanTree.descend n s m w i x) as [[[w' i'] a1]| | |]
    end; cbn; auto.
Qed.

Lemma insert_symbols_total (tableBits : Z) (cl code chs : list Z)
    (a : HuffmanTree.arrays) :
  match HuffmanTree.insert_symbols tableBits cl code chs a with
  | Ok _ => True
  | Throw x => x = HuffmanTree.InvalidHuffmanData
  | Stuck | OutOfFuel => False
  end.
Proof.
  revert a. induction chs as [|ch chs IH]; intros a; cbn; [exact I|].
  pose proof (insert_symbol_total tableBits cl code a ch) as H1.
  destruct (HuffmanTree.insert_symbol tableBits cl code a ch); cbn;
    [apply IH | exact H1 | exact H1 | exact H1].
Qed.

Lemma new_total (codeLengths : list Z) :
  match HuffmanTree.new codeLengths with
  | Ok _ => True
  | Throw x => x = HuffmanTree.InvalidHuffmanData
  | Stuck | OutOfFuel => False
  end.
Proof.
  unfold HuffmanTree.new, HuffmanTree.CreateTable.
  destruct (Z.of_nat (length codeLengths) =? HuffmanTree.MaxLiteralTreeElements).
  all: match goal with
       | |- context [HuffmanTree.insert_symbols ?b ?c ?d ?k ?a] =>
           pose proof (insert_symbols_total b c d k a) as Hi;
           destruct (HuffmanTree.insert_symbols b c d k a); cbn; auto
       end.
Qed.

Lemma new_not_OutOfFuel (codeLengths : list Z) :
  HuffmanTree.new codeLengths <> OutOfFuel.
Proof.
  pose proof (new_total codeLengths) as H. intros Heq. rewrite Heq in H. exact H.
Qed.

Lemma new_not_Stuck (codeLengths : list Z) :
  HuffmanTree.new codeLengths <> Stuck.
Proof.
  pose proof (new_total codeLengths) as H. intros Heq. rewrite Heq in H. exact H.
Qed.

(** The turns of the switch of Decode, by state. *)
Lemma Decode_switch_ReadingFinalBit (n : nat) (e : Inflate.t) :
  Inflate._state e = Inflate.ReadingFinalBit ->
  Inflate.Decode_switch (S n) e =
    ('(bits, e1) ← Inflate.GetBits 1 e;
     '(type, e2) ← Inflate.GetBits 2
                     (Inflate.set_state Inflate.ReadingBlockType
                        (Inflate.set_bfinal bits e1));
     match Inflate.State_of_Z type with
     | Some s => Inflate.Decode_switch n (Inflate.set_state s e2)
     | None => Throw Inflate.UnknownBlockTypeException
     end).
Proof.
  intros H. cbn [Inflate.Decode_switch]. rewrite H. reflexivity.
Qed.

Lemma Decode_switch_ReadingStatic (n : nat) (e : Inflate.t) :
  Inflate._state e = Inflate.ReadingStatic ->
  Inflate.Decode_switch (S n) e =
    (literalLengthTree ← HuffmanTree.s_staticLiteralLengthTree;
     distanceTree ← HuffmanTree.s_staticDistanceTree;
     Inflate.Decode_switch n
       (Inflate.set_state Inflate.DecodingBlock
          (Inflate.set_isDynamic false
             (Inflate.set_trees (Some literalLengthTree) (Some distanceTree) e)))).
Proof.
  intros H. cbn [Inflate.Decode_switch]. rewrite H. reflexivity.
Qed.

Lemma Decode_switch_ReadingDynamic (n : nat) (e : Inflate.t) :
  Inflate._state e = Inflate.ReadingDynamic ->
  Inflate.Decode_switch (S n) e =
    ('(_, e1) ← Inflate.DecodeDynamicBlockHeader e;
     Inflate.DecodeBlock (Inflate.set_isDynamic true e1)).
Proof.
  intros H. cbn [Inflate.Decode_switch]. rewrite H. reflexivity.
Qed.

Lemma Decode_switch_DecodingBlock (n : nat) (e : Inflate.t) :
  Inflate._state e = Inflate.DecodingBlock ->
  Inflate.Decode_switch (S n) e = Inflate.DecodeBlock e.
Proof.
  intros H. cbn [Inflate.Decode_switch]. rewrite H. reflexivity.
Qed.

Lemma Decode_switch_ReadingUncompressed (n : nat) (e : Inflate.t) :
  Inflate._state e = Inflate.ReadingUncompressed ->
  Inflate.Decode_switch (S n) e =
    ('(result, e1) ← Inflate.DecodeUncompressedBlock e;
     Ok (result, Inflate.set_seen true e1)).
Proof.
  intros H. cbn [Inflate.Decode_switch]. rewrite H. reflexivity.
Qed.

Lemma Decode_switch_UnknownBlockType (n : nat) (e : Inflate.t) :
  Inflate._state e = Inflate.UnknownBlockType ->
  Inflate.Decode_switch (S n) e = Throw Inflate.UnknownBlockTypeException.
Proof.
  intros H. cbn [Inflate.Decode_switch]. rewrite H. reflexivity.
Qed.


(** * Further properties of the code *)

(** ** input.ts: filling, reading and skipping *)

Lemma shr_int32 (x n : Z) :
  - 2 ^ 31 <= x < 2 ^ 31 -> 0 <= n <= 31 -> Js.shr x n = x / 2 ^ n.
Proof.
  intros Hx Hn. unfold Js.shr.
  rewrite ToInt32_small by lia.
  rewrite Z.mod_small by lia.
  apply Z.shiftr_div_pow2. lia.
Qed.

Lemma div_pow2_int32 (x n : Z) :
  - 2 ^ 31 <= x < 2 ^ 31 -> 0 <= n -> - 2 ^ 31 <= x / 2 ^ n < 2 ^ 31.
Proof.
  intros Hx Hn.
  assert (0 < 2 ^ n) by (apply Z.pow_pos_nonneg; lia).
  split.
  - apply Z.div_le_lower_bound; [lia|]. nia.
  - apply Z.div_lt_upper_bound; [lia|]. nia.
Qed.

(** The guarantee of the nested [if]: from a count that is not negative,
    a request for at most 16 bits is met unless the producer runs dry. *)
Theorem fill_meets_request (count bitBuffer bitsInBuffer : Z) (rest : list Z) :
  0 <= bitsInBuffer -> count <= 16 ->
  exists ib',
    InputBuffer.fill count (InputBuffer.mk bitBuffer bitsInBuffer (ArrayIterator rest))
    = Ok ib' /\
    bitsInBuffer <= InputBuffer._bitsInBuffer ib' /\
    (count <= InputBuffer._bitsInBuffer ib' \/
     InputBuffer._iterator ib' = ArrayIterator []).
Proof.
  intros Hcnt Hn.
  destruct (fill_array count bitBuffer bitsInBuffer rest) as [bb' ->].
  eexists. split; [reflexivity|]. cbn.
  unfold taken.
  destruct rest as [|b0 [|b1 rest]]; cbn.
  - split; [lia | right; reflexivity].
  - destruct (Z.ltb_spec bitsInBuffer count); cbn.
    + split; [lia | right; reflexivity].
    + split; [lia | left; lia].
  - destruct (Z.ltb_spec bitsInBuffer count); cbn.
    + destruct (Z.ltb_spec (bitsInBuffer + 8) count); cbn; split; try lia; left; lia.
    + split; [lia | left; lia].
Qed.

Lemma fill_meets_request_witness :
  exists ib',
    InputBuffer.fill 15 (InputBuffer.mk 1 1 (ArrayIterator [0xAB]))
    = Ok ib' /\
    1 <= InputBuffer._bitsInBuffer ib' /\
    (15 <= InputBuffer._bitsInBuffer ib' \/
     InputBuffer._iterator ib' = ArrayIterator []).
Proof.
  apply (fill_meets_request 15 1 1 [0xAB]); lia.
Defined.

Lemma fill_buffered (count : Z) (ib : InputBuffer.t) :
  count <= InputBuffer._bitsInBuffer ib -> InputBuffer.fill count ib = Ok ib.
Proof.
  intros H. unfold InputBuffer.fill, InputBuffer.load.
  destruct (Z.ltb_spec (InputBuffer._bitsInBuffer ib) count); [lia|]. reflexivity.
Qed.

Lemma GetBits_when_buffered (n bitBuffer bitsInBuffer : Z) (iterator : jsIterator) :
  0 <= n <= 31 -> n <= bitsInBuffer -> - 2 ^ 31 <= bitBuffer < 2 ^ 31 ->
  InputBuffer.GetBits n (InputBuffer.mk bitBuffer bitsInBuffer iterator)
  = Ok (bitBuffer mod 2 ^ n,
        InputBuffer.mk (bitBuffer / 2 ^ n) (bitsInBuffer - n) iterator).
Proof.
  intros Hn Hcnt Hbb. unfold InputBuffer.GetBits.
  rewrite fill_buffered by (cbn; lia). cbn.
  rewrite and_mask by lia. rewrite shr_int32 by lia. reflexivity.
Qed.

(** With [n] bits buffered GetBits does not touch the producer, whatever
    it is: it returns the low [n] bits of the register and keeps the
    rest, shifted down. *)
Theorem GetBits_buffered (n bitBuffer bitsInBuffer : Z) (iterator : jsIterator) :
  0 <= n <= 31 -> n <= bitsInBuffer -> - 2 ^ 31 <= bitBuffer < 2 ^ 31 ->
  InputBuffer.GetBits n (InputBuffer.mk bitBuffer bitsInBuffer iterator)
  = Ok (bitBuffer mod 2 ^ n,
        InputBuffer.mk (bitBuffer / 2 ^ n) (bitsInBuffer - n) iterator).
Proof.
  exact (GetBits_when_buffered n bitBuffer bitsInBuffer iterator).
Qed.

Lemma GetBits_buffered_witness :
  InputBuffer.GetBits 2 (InputBuffer.mk 0x25 7 (IteratorMethod (ArrayOf [])))
  = Ok (0x25 mod 2 ^ 2,
        InputBuffer.mk (0x25 / 2 ^ 2) (7 - 2) (IteratorMethod (ArrayOf []))).
Proof.
  apply (GetBits_buffered 2 0x25 7); lia.
Defined.

(** Two reads in a row return the two parts of one longer read: the bits
    come out least significant first. *)
Theorem GetBits_composes (a b bitBuffer bitsInBuffer : Z) (iterator : jsIterator) :
  0 <= a -> 0 <= b -> a + b <= 31 -> a + b <= bitsInBuffer ->
  - 2 ^ 31 <= bitBuffer < 2 ^ 31 ->
  exists lo hi ib1 ib2,
    InputBuffer.GetBits a (InputBuffer.mk bitBuffer bitsInBuffer iterator) = Ok (lo, ib1) /\
    InputBuffer.GetBits b ib1 = Ok (hi, ib2) /\
    InputBuffer.GetBits (a + b) (InputBuffer.mk bitBuffer bitsInBuffer iterator)
    = Ok (lo + hi * 2 ^ a, ib2).
Proof.
  intros Ha Hb Hab Hcnt Hbb.
  assert (0 < 2 ^ a) by (apply Z.pow_pos_nonneg; lia).
  assert (0 < 2 ^ b) by (apply Z.pow_pos_nonneg; lia).
  eexists _, _, _, _.
  split; [apply GetBits_when_buffered; lia|].
  split; [apply GetBits_when_buffered; [lia | lia | apply div_pow2_int32; lia]|].
  rewrite GetBits_when_buffered by lia.
  rewrite Z.pow_add_r by lia.
  rewrite Z.rem_mul_r by lia.
  rewrite Z.div_div by lia.
  do 2 f_equal; [ring|]. f_equal. lia.
Qed.

Lemma GetBits_composes_witness :
  exists lo hi ib1 ib2,
    InputBuffer.GetBits 1 (InputBuffer.mk 0x4B 8 (ArrayIterator [])) = Ok (lo, ib1) /\
    InputBuffer.GetBits 2 ib1 = Ok (hi, ib2) /\
    InputBuffer.GetBits (1 + 2) (InputBuffer.mk 0x4B 8 (ArrayIterator []))
    = Ok (lo + hi * 2 ^ 1, ib2).
Proof.
  apply (GetBits_composes 1 2 0x4B 8); lia.
Defined.

Lemma lor_disjoint (lo hi k : Z) :
  0 <= k -> 0 <= lo < 2 ^ k -> Z.lor lo (hi * 2 ^ k) = lo + hi * 2 ^ k.
Proof.
  intros Hk Hlo.
  assert (Hland : Z.land lo (hi * 2 ^ k) = 0).
  { apply Z.bits_inj'. intros i Hi.
    rewrite Z.land_spec, Z.bits_0.
    destruct (Z_lt_dec i k).
    - rewrite Z.mul_pow2_bits_low by lia. apply andb_false_r.
    - rewrite <- (Z.mod_small lo (2 ^ k)) by lia.
      rewrite Z.mod_pow2_bits_high by lia. reflexivity. }
  rewrite <- Z.lxor_lor by exact Hland.
  symmetry. apply Z.add_nocarry_lxor. exact Hland.
Qed.

Lemma GetBits_of_fill (n : Z) (ib ib1 : InputBuffer.t) :
  InputBuffer.fill n ib = Ok ib1 -> n <= InputBuffer._bitsInBuffer ib1 ->
  InputBuffer.GetBits n ib = InputBuffer.GetBits n ib1.
Proof.
  intros Hfill Hn. unfold InputBuffer.GetBits.
  rewrite Hfill, (fill_buffered n ib1) by exact Hn. reflexivity.
Qed.

(** At a byte boundary with an empty register the producer's bytes come
    back as they are, and a 16-bit field is read low byte first. *)
Theorem GetBits_reads_bytes_little_endian (b0 b1 : Z) (rest : list Z) :
  0 <= b0 < 256 -> 0 <= b1 < 256 ->
  InputBuffer.GetBits 8 (InputBuffer.new (ArrayIterator (b0 :: rest)))
  = Ok (b0, InputBuffer.new (ArrayIterator rest)) /\
  InputBuffer.GetBits 16 (InputBuffer.new (ArrayIterator (b0 :: b1 :: rest)))
  = Ok (b0 + 256 * b1, InputBuffer.new (ArrayIterator rest)).
Proof.
  intros H0 H1.
  assert (Hshl0 : Js.shl b0 0 = b0).
  { unfold Js.shl. change (0 mod 32) with 0. rewrite Z.shiftl_0_r.
    rewrite (ToInt32_small b0) by lia. apply ToInt32_small. lia. }
  assert (Hor0 : Js.or 0 b0 = b0).
  { unfold Js.or. rewrite (ToInt32_small b0), (ToInt32_small 0) by lia.
    apply Z.lor_0_l. }
  assert (Hshl1 : Js.shl b1 8 = b1 * 2 ^ 8).
  { unfold Js.shl. change (8 mod 32) with 8. rewrite Z.shiftl_mul_pow2 by lia.
    rewrite (ToInt32_small b1) by lia. apply ToInt32_small. lia. }
  assert (Hor1 : Js.or b0 (b1 * 2 ^ 8) = b0 + 256 * b1).
  { unfold Js.or. rewrite (ToInt32_small b0), (ToInt32_small (b1 * 2 ^ 8)) by lia.
    rewrite lor_disjoint by lia. lia. }
  split.
  - rewrite (GetBits_of_fill 8 _ (InputBuffer.mk b0 8 (ArrayIterator rest))).
    + rewrite GetBits_when_buffered by lia.
      rewrite Z.mod_small by lia. rewrite Z.div_small by lia. reflexivity.
    + unfold InputBuffer.fill, InputBuffer.load, InputBuffer.new. cbn.
      rewrite Hshl0, Hor0. reflexivity.
    + cbn. lia.
  - rewrite (GetBits_of_fill 16 _ (InputBuffer.mk (b0 + 256 * b1) 16 (ArrayIterator rest))).
    + rewrite GetBits_when_buffered by lia.
      rewrite Z.mod_small by lia. rewrite Z.div_small by lia. reflexivity.
    + unfold InputBuffer.fill, InputBuffer.load, InputBuffer.new. cbn.
      rewrite Hshl0, Hor0. change (0 + 8) with 8. cbn.
      rewrite Hshl1, Hor1. reflexivity.
    + cbn. lia.
Qed.

Lemma GetBits_reads_bytes_little_endian_witness :
  InputBuffer.GetBits 8 (InputBuffer.new (ArrayIterator (0x01 :: [0xFE; 0xFF])))
  = Ok (0x01, InputBuffer.new (ArrayIterator [0xFE; 0xFF])) /\
  InputBuffer.GetBits 16 (InputBuffer.new (ArrayIterator (0x01 :: 0x00 :: [0xFE; 0xFF])))
  = Ok (0x01 + 256 * 0x00, InputBuffer.new (ArrayIterator [0xFE; 0xFF])).
Proof.
  apply (GetBits_reads_bytes_little_endian 0x01 0x00 [0xFE; 0xFF]); lia.
Defined.

(** SkipToByteBoundary leaves a count that 8 divides, does not touch the
    producer, and has nothing left to do when it is called again; from a
    count that is not negative it drops fewer than 8 bits. *)
Theorem SkipToByteBoundary_aligns (ib : InputBuffer.t) :
  let ib' := InputBuffer.SkipToByteBoundary ib in
  InputBuffer._bitsInBuffer ib' mod 8 = 0 /\
  InputBuffer._iterator ib' = InputBuffer._iterator ib /\
  InputBuffer.SkipToByteBoundary ib' = ib' /\
  (0 <= InputBuffer._bitsInBuffer ib ->
   InputBuffer._bitsInBuffer ib' = 8 * (InputBuffer._bitsInBuffer ib / 8) /\
   InputBuffer._bitsInBuffer ib - 7 <= InputBuffer._bitsInBuffer ib'
     <= InputBuffer._bitsInBuffer ib).
Proof.
  destruct ib as [bb cnt it]. cbn. unfold Js.rem.
  pose proof (Z.quot_rem' cnt 8) as Hqr.
  assert (Hal : cnt - Z.rem cnt 8 = 8 * (cnt ÷ 8)) by lia.
  assert (Hrem0 : Z.rem (cnt - Z.rem cnt 8) 8 = 0).
  { rewrite Hal. rewrite Z.mul_comm. apply Z.rem_mul. lia. }
  split.
  - rewrite Hal. rewrite Z.mul_comm. apply Z.mod_mul. lia.
  - split; [reflexivity|]. split.
    + unfold InputBuffer.SkipToByteBoundary. cbn. unfold Js.rem.
      rewrite Hrem0. f_equal; [|lia].
      unfold Js.shr at 1. change (0 mod 32) with 0. rewrite Z.shiftr_0_r.
      apply ToInt32_small.
      unfold Js.shr. rewrite Z.shiftr_div_pow2 by (apply Z.mod_pos_bound; lia).
      apply div_pow2_int32; [apply ToInt32_range|]. apply Z.mod_pos_bound. lia.
    + intros Hcnt. rewrite Z.rem_mod_nonneg by lia.
      pose proof (Z.mod_pos_bound cnt 8 ltac:(lia)).
      pose proof (Z.div_mod cnt 8 ltac:(lia)). lia.
Qed.

Lemma SkipToByteBoundary_aligns_witness :
  InputBuffer._bitsInBuffer
    (InputBuffer.SkipToByteBoundary (InputBuffer.mk 0x09 5 (ArrayIterator [0x01])))
  = 8 * (5 / 8) /\
  5 - 7 <= InputBuffer._bitsInBuffer
             (InputBuffer.SkipToByteBoundary (InputBuffer.mk 0x09 5 (ArrayIterator [0x01])))
        <= 5.
Proof.
  apply (proj2 (proj2 (proj2
           (SkipToByteBoundary_aligns (InputBuffer.mk 0x09 5 (ArrayIterator [0x01])))))).
  cbn. lia.
Defined.

(** ** huffman-trees.ts: codes and tables *)

(** BitReverse puts bit [n - 1 - i] of the code at position [i] and
    returns nothing above position [n - 1], also when the code has bits
    above its low [n] ones. *)
Theorem BitReverse_mirrors_bits (x n i : Z) :
  1 <= n <= 16 -> 0 <= x < 2 ^ 31 ->
  0 <= HuffmanTree.BitReverse x n < 2 ^ n /\
  (0 <= i < n ->
   Z.testbit (HuffmanTree.BitReverse x n) i = Z.testbit x (n - 1 - i)).
Proof.
  intros Hn Hx. rewrite BitReverse_mirror by lia.
  pose proof (mirror_range (Z.to_nat n) x) as Hr.
  rewrite Z2Nat.id in Hr by lia.
  split; [exact Hr|].
  intros Hi. rewrite mirror_testbit by lia.
  rewrite Z2Nat.id by lia. reflexivity.
Qed.

Lemma BitReverse_mirrors_bits_witness :
  0 <= HuffmanTree.BitReverse 0x91 8 < 2 ^ 8 /\
  (0 <= 0 < 8 ->
   Z.testbit (HuffmanTree.BitReverse 0x91 8) 0 = Z.testbit 0x91 (8 - 1 - 0)).
Proof.
  apply (BitReverse_mirrors_bits 0x91 8 0); lia.
Defined.

Lemma keys_seqZ {A} (a : list A) : Js.keys a = seqZ 0 (Z.of_nat (length a)).
Proof.
  unfold Js.keys, seqZ. rewrite Nat2Z.id.
  apply list_fmap_ext. intros i x Hx. lia.
Qed.

Lemma foldl_max_keys (n : nat) :
  foldl (fun m k => Z.max k m) 0 (Z.of_nat <$> seq 0 n) = Z.max 0 (Z.of_nat n - 1).
Proof.
  induction n as [|n IH]; [reflexivity|].
  rewrite seq_S, fmap_app, foldl_app, IH. cbn. lia.
Qed.

Lemma length_set_u8 (a : list Z) (i v : Z) : length (Js.set_u8 a i v) = length a.
Proof.
  unfold Js.set_u8. destruct (i <? 0); [reflexivity | apply length_insert].
Qed.

Lemma length_new_u8 (n : Z) : length (Js.new_u8 n) = Z.to_nat n.
Proof.
  unfold Js.new_u8. apply length_replicate.
Qed.

Lemma same_lengths_write (w : HuffmanTree.which) (a : HuffmanTree.arrays) (i v : Z) :
  same_lengths a (HuffmanTree.write w a i v).
Proof.
  destruct w; repeat split; cbn; auto using length_set_u8.
Qed.

Lemma length_duplicate (locs : nat) (start increment ch : Z) (table : list Z) :
  length (HuffmanTree.duplicate locs start increment ch table) = length table.
Proof.
  revert start table. induction locs as [|locs IH]; intros start table; cbn.
  - reflexivity.
  - rewrite IH. apply length_set_u8.
Qed.

Lemma same_lengths_descend (n : nat) (start mask : Z) (w : HuffmanTree.which)
    (index : option Z) (a : HuffmanTree.arrays) w' index' a' :
  HuffmanTree.descend n start mask w index a = Ok (w', index', a') ->
  same_lengths a a'.
Proof.
  revert mask w index a. induction n as [|n IH]; intros mask w index a H;
    cbn [HuffmanTree.descend] in H.
  - injection H as _ _ <-. repeat split.
  - destruct index as [i|]; cbn in H; [|eapply IH, H].
    destruct (HuffmanTree.read w a i) as [value|]; cbn in H; [|eapply IH, H].
    destruct (value =? 0).
    + destruct (0 <? - HuffmanTree.avail a); [discriminate|].
      apply IH in H. destruct H as (Ht & Hl & Hr). cbn in Ht, Hl, Hr.
      destruct (same_lengths_write w a i (- HuffmanTree.avail a)) as (? & ? & ?).
      repeat split; congruence.
    + destruct (0 <? value); [discriminate|]. eapply IH, H.
Qed.

Lemma same_lengths_insert_symbols (tableBits : Z) (cl code chs : list Z)
    (a : HuffmanTree.arrays) a' :
  HuffmanTree.insert_symbols tableBits cl code chs a = Ok a' ->
  same_lengths a a'.
Proof.
  revert a. induction chs as [|ch chs IH]; intros a H; cbn in H.
  - injection H as <-. repeat split.
  - destruct (HuffmanTree.insert_symbol tableBits cl code a ch) as [a1| | |] eqn:H1;
      cbn in H; try discriminate.
    apply IH in H.
    assert (H0 : same_lengths a a1).
    { unfold HuffmanTree.insert_symbol in H1.
      destruct (0 <? default 0 (Js.get cl ch)); [|injection H1 as <-; repeat split].
      destruct (default 0 (Js.get cl ch) <=? tableBits).
      - destruct (Js.get code ch) as [start|]; [|injection H1 as <-; repeat split].
        destruct (_ <=? start); [discriminate|].
        injection H1 as <-. repeat split; cbn. apply length_duplicate.
      - destruct (HuffmanTree.descend _ _ _ _ _ _) as [[[w index] a2]| | |] eqn:Hd;
          cbn in H1; try discriminate.
        injection H1 as <-. apply same_lengths_descend in Hd.
        destruct index as [i|]; [|exact Hd].
        destruct Hd as (? & ? & ?).
        destruct (same_lengths_write w a2 i ch) as (? & ? & ?).
        repeat split; congruence. }
    destruct H0 as (? & ? & ?), H as (? & ? & ?). repeat split; congruence.
Qed.

Lemma new_fields (codeLengths : list Z) (tree : HuffmanTree.t) :
  HuffmanTree.new codeLengths = Ok tree ->
  HuffmanTree._codeLengthArray tree = codeLengths /\
  HuffmanTree._tableBits tree =
    if Z.of_nat (length codeLengths) =? 288 then 9 else 7.
Proof.
  unfold HuffmanTree.new, HuffmanTree.MaxLiteralTreeElements.
  destruct (Z.of_nat (length codeLengths) =? 288);
    destruct (HuffmanTree.CreateTable _ codeLengths); cbn; intros H;
    try discriminate; injection H as <-; auto.
Qed.

Lemma incr_u8_outside (blc : list Z) (k : nat) :
  (length blc <= k)%nat -> HuffmanTree.incr_u8 blc (Z.of_nat k) = blc.
Proof.
  intros Hk. unfold HuffmanTree.incr_u8, Js.get.
  destruct (Z.ltb_spec (Z.of_nat k) 0); [reflexivity|].
  rewrite Nat2Z.id. rewrite lookup_ge_None_2 by lia. reflexivity.
Qed.

Lemma foldl_incr_u8_outside (blc : list Z) (s m : nat) :
  (length blc <= s)%nat ->
  foldl (fun blc codeLength => HuffmanTree.incr_u8 blc codeLength) blc
        (Z.of_nat <$> seq s m) = blc.
Proof.
  revert s. induction m as [|m IH]; intros s Hs; [reflexivity|].
  cbn. rewrite incr_u8_outside by lia. apply IH. lia.
Qed.

(** The counts from which the canonical codes start do not depend on the
    code lengths: for every vector of at least 17 lengths, each length
    from 1 to 16 is counted once, and the first code of length [n] is
    [2^n - 2] modulo 256. *)
Theorem code_counts_ignore_the_lengths (codeLengths : list Z) :
  (17 <= length codeLengths)%nat ->
  HuffmanTree.bitLengthCount codeLengths = 0 :: replicate 16 1 /\
  HuffmanTree.nextCode_init (HuffmanTree.bitLengthCount codeLengths)
  = [0; 0; 2; 6; 14; 30; 62; 126] ++ replicate 9 254.
Proof.
  intros Hlen.
  assert (Hcount : HuffmanTree.bitLengthCount codeLengths = 0 :: replicate 16 1).
  { unfold HuffmanTree.bitLengthCount, Js.keys.
    replace (length codeLengths) with (17 + (length codeLengths - 17))%nat by lia.
    rewrite seq_app, fmap_app, foldl_app.
    rewrite foldl_incr_u8_outside; [reflexivity|].
    vm_compute. lia. }
  split; [exact Hcount|]. rewrite Hcount. reflexivity.
Qed.

Lemma code_counts_ignore_the_lengths_witness :
  HuffmanTree.bitLengthCount HuffmanTree.GetStaticDistanceTreeLength
  = 0 :: replicate 16 1 /\
  HuffmanTree.nextCode_init
    (HuffmanTree.bitLengthCount HuffmanTree.GetStaticDistanceTreeLength)
  = [0; 0; 2; 6; 14; 30; 62; 126] ++ replicate 9 254.
Proof.
  apply (code_counts_ignore_the_lengths HuffmanTree.GetStaticDistanceTreeLength).
  vm_compute. lia.
Defined.

Lemma get_set_u8 (a : list Z) (i j v : Z) :
  0 <= i < Z.of_nat (length a) ->
  Js.get (Js.set_u8 a i v) j = if j =? i then Some (v mod 256) else Js.get a j.
Proof.
  intros Hi. unfold Js.get, Js.set_u8, Js.ToUint8.
  destruct (Z.ltb_spec i 0); [lia|].
  destruct (Z.eqb_spec j i) as [-> | Hne].
  - destruct (Z.ltb_spec i 0); [lia|].
    apply list_lookup_insert_eq. lia.
  - destruct (Z.ltb_spec j 0); [reflexivity|].
    apply list_lookup_insert_ne. lia.
Qed.

Lemma shl_1 (n : Z) : 0 <= n <= 30 -> Js.shl 1 n = 2 ^ n.
Proof.
  intros Hn. unfold Js.shl.
  rewrite Z.mod_small by lia.
  rewrite (ToInt32_small 1) by lia.
  rewrite Z.shiftl_mul_pow2, Z.mul_1_l by lia.
  assert (2 ^ n <= 2 ^ 30) by (apply Z.pow_le_mono_r; lia).
  apply ToInt32_small. lia.
Qed.

(** The slots that the loop over [j] writes. *)
Lemma duplicate_get (locs : nat) (start increment ch : Z) (table : list Z) (j : Z) :
  0 <= start -> 0 < increment ->
  start + Z.of_nat locs * increment < Z.of_nat (length table) + increment ->
  Js.get (HuffmanTree.duplicate locs start increment ch table) j =
  if (start <=? j) && (j <? start + Z.of_nat locs * increment)
     && ((j - start) mod increment =? 0)
  then Some (ch mod 256) else Js.get table j.
Proof.
  revert start table. induction locs as [|locs IH]; intros start table Hs Hinc Hlen.
  - cbn [HuffmanTree.duplicate].
    destruct (Z.leb_spec start j), (Z.ltb_spec j (start + Z.of_nat 0 * increment));
      cbn; try reflexivity. lia.
  - cbn [HuffmanTree.duplicate].
    rewrite IH; [| lia | lia | rewrite length_set_u8; lia].
    rewrite get_set_u8 by nia.
    assert (Hmod : (j - (start + increment)) mod increment = (j - start) mod increment).
    { replace (j - (start + increment)) with (j - start + (-1) * increment) by ring.
      apply Z_mod_plus_full. }
    rewrite Hmod.
    replace (start + increment + Z.of_nat locs * increment)
      with (start + Z.of_nat (S locs) * increment) by lia.
    destruct (Z.eqb_spec ((j - start) mod increment) 0) as [Hz | Hnz].
    + destruct (Z.leb_spec (start + increment) j),
               (Z.ltb_spec j (start + Z.of_nat (S locs) * increment)),
               (Z.leb_spec start j), (Z.eqb_spec j start); cbn; try reflexivity; try lia.
      exfalso.
      assert (0 <= j - start < increment) as Hsmall by lia.
      rewrite (Z.mod_small _ _ Hsmall) in Hz. lia.
    + rewrite !andb_false_r.
      destruct (Z.eqb_spec j start) as [-> | _]; [|reflexivity].
      rewrite Z.sub_diag, Z.mod_0_l in Hnz by lia. congruence.
Qed.

Lemma insert_symbol_short
    (tableBits len start ch : Z) (codeLengthArray codeArray : list Z)
    (a : HuffmanTree.arrays) :
  Js.get codeLengthArray ch = Some len -> Js.get codeArray ch = Some start ->
  0 < len <= tableBits -> tableBits <= 30 -> 0 <= start < 2 ^ len ->
  Z.of_nat (length (HuffmanTree.a_table a)) = 2 ^ tableBits ->
  exists a',
    HuffmanTree.insert_symbol tableBits codeLengthArray codeArray a ch = Ok a' /\
    HuffmanTree.a_left a' = HuffmanTree.a_left a /\
    HuffmanTree.a_right a' = HuffmanTree.a_right a /\
    HuffmanTree.avail a' = HuffmanTree.avail a /\
    forall j, 0 <= j < 2 ^ tableBits ->
      Js.get (HuffmanTree.a_table a') j =
      if j mod 2 ^ len =? start then Some (ch mod 256)
      else Js.get (HuffmanTree.a_table a) j.
Proof.
  intros Hlen Hcode Hl Htb Hstart Hsize.
  unfold HuffmanTree.insert_symbol. rewrite Hlen, Hcode. cbn.
  destruct (Z.ltb_spec 0 len); [|lia].
  destruct (Z.leb_spec len tableBits); [|lia].
  rewrite !shl_1 by lia.
  destruct (Z.leb_spec (2 ^ len) start); [lia|].
  eexists. split; [reflexivity|]. cbn. repeat split.
  intros j Hj.
  assert (Hpos : 0 < 2 ^ len) by (apply Z.pow_pos_nonneg; lia).
  assert (Hprod : 2 ^ (tableBits - len) * 2 ^ len = 2 ^ tableBits).
  { rewrite <- Z.pow_add_r by lia. f_equal. lia. }
  assert (0 < 2 ^ (tableBits - len)) by (apply Z.pow_pos_nonneg; lia).
  rewrite duplicate_get; [| lia | lia | rewrite Z2Nat.id by lia; lia].
  rewrite Z2Nat.id by lia. rewrite Hprod.
  destruct (Z.eqb_spec (j mod 2 ^ len) start) as [Heq | Hne].
  - pose proof (Z.div_mod j (2 ^ len) ltac:(lia)) as Hdm.
    pose proof (Z.div_pos j (2 ^ len) ltac:(lia) ltac:(lia)).
    destruct (Z.leb_spec start j); [|nia].
    destruct (Z.ltb_spec j (start + 2 ^ tableBits)); [|lia].
    replace (j - start) with (j / 2 ^ len * 2 ^ len) by lia.
    rewrite Z.mod_mul by lia. reflexivity.
  - destruct (Z.leb_spec start j); [|reflexivity].
    destruct (Z.ltb_spec j (start + 2 ^ tableBits)); [|reflexivity].
    destruct (Z.eqb_spec ((j - start) mod 2 ^ len) 0) as [Hz|]; [|reflexivity].
    exfalso. apply Hne.
    replace j with (start + (j - start)) by ring.
    rewrite Z.add_mod, Hz, Z.add_0_r, Z.mod_mod, Z.mod_small by lia. reflexivity.
Qed.

(** A symbol whose code is not longer than the direct table is written,
    modulo 256, to every slot whose low [len] bits are its reversed code;
    no other slot and neither child array changes. *)
Theorem short_code_fills_its_slots
    (tableBits len start ch : Z) (codeLengthArray codeArray : list Z)
    (a : HuffmanTree.arrays) :
  Js.get codeLengthArray ch = Some len -> Js.get codeArray ch = Some start ->
  0 < len <= tableBits -> tableBits <= 30 -> 0 <= start < 2 ^ len ->
  Z.of_nat (length (HuffmanTree.a_table a)) = 2 ^ tableBits ->
  exists a',
    HuffmanTree.insert_symbol tableBits codeLengthArray codeArray a ch = Ok a' /\
    HuffmanTree.a_left a' = HuffmanTree.a_left a /\
    HuffmanTree.a_right a' = HuffmanTree.a_right a /\
    HuffmanTree.avail a' = HuffmanTree.avail a /\
    forall j, 0 <= j < 2 ^ tableBits ->
      Js.get (HuffmanTree.a_table a') j =
      if j mod 2 ^ len =? start then Some (ch mod 256)
      else Js.get (HuffmanTree.a_table a) j.
Proof.
  exact (insert_symbol_short tableBits len start ch codeLengthArray codeArray a).
Qed.

Lemma short_code_fills_its_slots_witness :
  exists a',
    HuffmanTree.insert_symbol 7 (replicate 30 0 ++ [1; 0]) (replicate 288 0)
      (HuffmanTree.mkArrays (Js.new_u8 128) (Js.new_u8 64) (Js.new_u8 64) 32) 30
    = Ok a' /\
    HuffmanTree.a_left a' = Js.new_u8 64 /\
    HuffmanTree.a_right a' = Js.new_u8 64 /\
    HuffmanTree.avail a' = 32 /\
    forall j, 0 <= j < 2 ^ 7 ->
      Js.get (HuffmanTree.a_table a') j =
      if j mod 2 ^ 1 =? 0 then Some (30 mod 256)
      else Js.get (Js.new_u8 128) j.
Proof.
  apply (short_code_fills_its_slots 7 1 0 30 (replicate 30 0 ++ [1; 0]) (replicate 288 0)
           (HuffmanTree.mkArrays (Js.new_u8 128) (Js.new_u8 64) (Js.new_u8 64) 32));
    try reflexivity; lia.
Defined.

Lemma bytes_incr_u8 (a : list Z) (k : Z) : bytes a -> bytes (HuffmanTree.incr_u8 a k).
Proof.
  intros Ha. unfold HuffmanTree.incr_u8.
  destruct (Js.get a k); [apply bytes_set_u8, Ha | exact Ha].
Qed.

Lemma assign_code_step (cl nextCode code : list Z) (k : Z) :
  length code = 288%nat -> bytes nextCode -> 0 <= k < 288 ->
  let acc := HuffmanTree.assign_code cl (nextCode, code) k in
  length acc.2 = 288%nat /\ bytes acc.1 /\
  code_fits cl acc.2 k /\
  (forall i, code_fits cl code i -> code_fits cl acc.2 i).
Proof.
  intros Hlen Hb Hk. cbn. unfold HuffmanTree.assign_code.
  destruct (Z.ltb_spec 0 (default 0 (Js.get cl k))) as [Hpos | Hzero]; cbn.
  - assert (Hnew : forall len, Js.get cl k = Some len -> 0 < len <= 16 ->
               0 <= HuffmanTree.BitReverse (default 0 (Js.get nextCode len)) len mod 256
               < 2 ^ len).
    { intros len Hget Hl.
      assert (Hx : 0 <= default 0 (Js.get nextCode len) < 2 ^ 31).
      { destruct (Js.get nextCode len) as [x|] eqn:Hx; cbn; [|lia].
        pose proof (bytes_get _ _ _ Hb Hx). lia. }
      rewrite (BitReverse_mirror (default 0 (Js.get nextCode len)) len ltac:(lia) Hx).
      pose proof (mirror_range (Z.to_nat len) (default 0 (Js.get nextCode len))) as Hr.
      rewrite Z2Nat.id in Hr by lia.
      pose proof (Z.mod_pos_bound (mirror (Z.to_nat len) (default 0 (Js.get nextCode len)))
                    256 ltac:(lia)).
      pose proof (Z.mod_le (mirror (Z.to_nat len) (default 0 (Js.get nextCode len)))
                    256 ltac:(lia) ltac:(lia)).
      lia. }
    split; [rewrite length_set_u8; exact Hlen|].
    split; [apply bytes_incr_u8, Hb|].
    split.
    + intros len Hget Hl. rewrite Hget in *. cbn in *.
      rewrite get_set_u8 by lia. rewrite Z.eqb_refl.
      eexists. split; [reflexivity|]. apply Hnew; [reflexivity | assumption].
    + intros i Hi len Hget Hl.
      rewrite get_set_u8 by lia.
      destruct (Z.eqb_spec i k) as [-> | Hne]; [|apply Hi; assumption].
      rewrite Hget in *. cbn in *.
      eexists. split; [reflexivity|]. apply Hnew; [reflexivity | assumption].
  - split; [exact Hlen|]. split; [exact Hb|]. split.
    + intros len Hget Hl. rewrite Hget in Hzero. cbn in Hzero. lia.
    + auto.
Qed.

Lemma assign_codes (cl keys : list Z) (nextCode code : list Z) :
  length code = 288%nat -> bytes nextCode -> Forall (fun k => 0 <= k < 288) keys ->
  let acc := foldl (HuffmanTree.assign_code cl) (nextCode, code) keys in
  length acc.2 = 288%nat /\
  (forall i, i ∈ keys \/ code_fits cl code i -> code_fits cl acc.2 i).
Proof.
  revert nextCode code. induction keys as [|k keys IH]; intros nextCode code Hlen Hb Hkeys.
  - cbn. split; [exact Hlen|]. intros i [Hin | Hi]; [inversion Hin | exact Hi].
  - inversion Hkeys as [|? ? Hk Hrest]; subst.
    cbn [foldl].
    destruct (assign_code_step cl nextCode code k Hlen Hb Hk) as (Hlen' & Hb' & Hfit & Hkeep).
    destruct (HuffmanTree.assign_code cl (nextCode, code) k) as [nextCode' code'].
    cbn in Hlen', Hb', Hfit, Hkeep.
    destruct (IH nextCode' code' Hlen' Hb' Hrest) as (Hl & Hall).
    split; [exact Hl|].
    intros i [Hin | Hi]; apply Hall.
    + apply elem_of_cons in Hin as [-> | Hin]; [right; exact Hfit | left; exact Hin].
    + right. apply Hkeep, Hi.
Qed.

Lemma bytes_nextCode_init (blc : list Z) : bytes (HuffmanTree.nextCode_init blc).
Proof.
  unfold HuffmanTree.nextCode_init.
  assert (H : forall l acc, bytes acc.2 ->
            bytes (foldl (fun '(tempCode, nextCode) bits =>
                     let tempCode := Js.shl (tempCode + default 0 (Js.get blc (bits - 1))) 1 in
                     (tempCode, Js.set_u8 nextCode bits tempCode)) acc l).2).
  { induction l as [|b l IH]; intros [t nc] Hacc; cbn; [exact Hacc|].
    apply IH. cbn. apply bytes_set_u8, Hacc. }
  apply H. cbn. apply bytes_new_u8.
Qed.

Lemma CalculateHuffmanCode_fits (cl : list Z) :
  (length cl <= 288)%nat ->
  length (HuffmanTree.CalculateHuffmanCode cl) = 288%nat /\
  forall i, 0 <= i < Z.of_nat (length cl) ->
    code_fits cl (HuffmanTree.CalculateHuffmanCode cl) i.
Proof.
  intros Hlen. unfold HuffmanTree.CalculateHuffmanCode.
  destruct (assign_codes cl (Js.keys cl)
              (HuffmanTree.nextCode_init (HuffmanTree.bitLengthCount cl))
              (Js.new_u8 HuffmanTree.MaxLiteralTreeElements)) as (Hl & Hall).
  - apply length_new_u8.
  - apply bytes_nextCode_init.
  - rewrite keys_seqZ. apply Forall_forall. intros k Hk.
    apply elem_of_seqZ in Hk. lia.
  - split; [exact Hl|]. intros i Hi. apply Hall. left.
    rewrite keys_seqZ. apply elem_of_seqZ. lia.
Qed.

Lemma insert_symbols_short (tableBits : Z) (cl code chs : list Z)
    (a : HuffmanTree.arrays) :
  0 <= tableBits <= 16 ->
  Z.of_nat (length (HuffmanTree.a_table a)) = 2 ^ tableBits ->
  Forall (fun ch => (exists len, Js.get cl ch = Some len /\ 0 <= len <= tableBits) /\
                    code_fits cl code ch) chs ->
  exists a', HuffmanTree.insert_symbols tableBits cl code chs a = Ok a'.
Proof.
  intros Htb. revert a. induction chs as [|ch chs IH]; intros a Hsize Hall; cbn.
  - eexists; reflexivity.
  - inversion Hall as [|? ? [(len & Hget & Hlen) Hfit] Hrest]; subst.
    assert (H1 : exists a1, HuffmanTree.insert_symbol tableBits cl code a ch = Ok a1 /\
                   length (HuffmanTree.a_table a1) = length (HuffmanTree.a_table a)).
    { destruct (Z.eq_dec len 0) as [-> | Hnz].
      - exists a. unfold HuffmanTree.insert_symbol. rewrite Hget. cbn. auto.
      - destruct (Hfit len Hget ltac:(lia)) as (start & Hcode & Hstart).
        destruct (insert_symbol_short tableBits len start ch cl code a
                    Hget Hcode ltac:(lia) ltac:(lia) Hstart Hsize) as (a1 & Hins & _).
        exists a1. split; [exact Hins|].
        assert (Hs : HuffmanTree.insert_symbols tableBits cl code [ch] a = Ok a1)
          by (cbn; rewrite Hins; reflexivity).
        apply same_lengths_insert_symbols in Hs. apply Hs. }
    destruct H1 as (a1 & -> & Hl1). cbn.
    apply IH; [rewrite Hl1; exact Hsize | exact Hrest].
Qed.

Lemma new_accepts_short_lengths (codeLengths : list Z) :
  (length codeLengths <= 288)%nat ->
  Forall (fun len => 0 <= len <= if Z.of_nat (length codeLengths) =? 288 then 9 else 7)
         codeLengths ->
  exists tree, HuffmanTree.new codeLengths = Ok tree.
Proof.
  intros Hlen Hall.
  destruct (CalculateHuffmanCode_fits codeLengths Hlen) as (_ & Hfits).
  unfold HuffmanTree.new, HuffmanTree.CreateTable, HuffmanTree.MaxLiteralTreeElements.
  destruct (Z.of_nat (length codeLengths) =? 288).
  all: match goal with
       | |- context [HuffmanTree.insert_symbols ?b ?c ?d ?k ?a] =>
           destruct (insert_symbols_short b c d k a) as (a' & ->);
           [lia | reflexivity | | cbn; eexists; reflexivity]
       end.
  all: rewrite keys_seqZ; apply Forall_forall; intros ch Hch;
       apply elem_of_seqZ in Hch;
       (split; [|apply Hfits; lia]);
       unfold Js.get; destruct (Z.ltb_spec ch 0); [lia|];
       destruct (codeLengths !! Z.to_nat ch) as [len|] eqn:Hget;
       [| apply lookup_ge_None in Hget; lia];
       exists len; split; [reflexivity|];
       rewrite Forall_lookup in Hall; exact (Hall _ _ Hget).
Qed.

(** The constructor accepts every vector of at most 288 code lengths that
    all fit the direct table (9 bits for 288 lengths, 7 otherwise): the
    test against an overfull table can not fail on the codes that
    CalculateHuffmanCode assigns, however many symbols share a length. *)
Theorem short_lengths_are_always_accepted (codeLengths : list Z) :
  (length codeLengths <= 288)%nat ->
  Forall (fun len => 0 <= len <= if Z.of_nat (length codeLengths) =? 288 then 9 else 7)
         codeLengths ->
  exists tree, HuffmanTree.new codeLengths = Ok tree.
Proof.
  exact (new_accepts_short_lengths codeLengths).
Qed.

Lemma short_lengths_are_always_accepted_witness :
  exists tree, HuffmanTree.new (replicate 288 1) = Ok tree.
Proof.
  apply (short_lengths_are_always_accepted (replicate 288 1)).
  - vm_compute. lia.
  - apply Forall_replicate. vm_compute. split; discriminate.
Defined.

(** ** inflate.ts: the window *)

Lemma and_WindowMask (x : Z) : Js.and x Inflate.WindowMask = x mod Inflate.WindowSize.
Proof.
  unfold Js.and, Inflate.WindowMask, Inflate.WindowSize.
  rewrite (ToInt32_small 32767) by lia.
  change 32767 with (Z.ones 15). rewrite Z.land_ones by lia.
  change 32768 with (2 ^ 15). apply ToInt32_low_bits. lia.
Qed.

Lemma writes_window (bs : list Z) : forall e : Inflate.t,
  0 <= Inflate._end e < Inflate.WindowSize ->
  Z.of_nat (length bs) <= Inflate.WindowSize ->
  Inflate._end (writes bs e) = slot e (Z.of_nat (length bs)) /\
  Inflate._lengthDecompressed (writes bs e) =
    Inflate._lengthDecompressed e + Z.of_nat (length bs) /\
  (forall i b, bs !! i = Some b ->
     Inflate._window (writes bs e) !! slot e (Z.of_nat i) = Some b) /\
  (forall p, (forall i, 0 <= i < Z.of_nat (length bs) -> p <> slot e i) ->
     Inflate._window (writes bs e) !! p = Inflate._window e !! p).
Proof.
  unfold slot, Inflate.WindowSize.
  induction bs as [|b bs IH]; intros e He Hlen; cbn [writes foldl length].
  all: cbn [length] in Hlen.
  - repeat split.
    + rewrite Z.add_0_r, Z.mod_small by exact He. reflexivity.
    + cbn. lia.
    + intros i b Hi. discriminate.
  - assert (He1 : Inflate._end (Inflate.Write b e) = (Inflate._end e + 1) mod 32768)
      by (cbn; apply and_WindowMask).
    assert (Hw1 : Inflate._window (Inflate.Write b e) =
                  <[Inflate._end e := b]> (Inflate._window e)) by reflexivity.
    assert (Hl1 : Inflate._lengthDecompressed (Inflate.Write b e) =
                  Inflate._lengthDecompressed e + 1) by reflexivity.
    destruct (IH (Inflate.Write b e)) as (IHend & IHlen & IHin & IHout).
    { rewrite He1. apply Z.mod_pos_bound. lia. }
    { lia. }
    fold (writes bs (Inflate.Write b e)).
    rewrite He1 in IHend, IHin, IHout. rewrite Hw1 in IHout. rewrite Hl1 in IHlen.
    assert (Hshift : forall i, ((Inflate._end e + 1) mod 32768 + i) mod 32768 =
                               (Inflate._end e + (1 + i)) mod 32768).
    { intros i. rewrite Zplus_mod_idemp_l. f_equal. lia. }
    repeat split.
    + rewrite IHend, Hshift. f_equal. lia.
    + lia.
    + intros [|i] x Hi; cbn in Hi.
      * injection Hi as ->. rewrite IHout.
        -- rewrite Z.add_0_r, Z.mod_small by exact He. apply lookup_insert_eq.
        -- intros i Hi. rewrite Hshift, Z.add_0_r, (Z.mod_small _ _ He).
           intros Heq.
           revert Heq.
           generalize (Inflate._end e) He. intros v Hv Heq.
           apply (f_equal (fun z => (z - v) mod 32768)) in Heq.
           rewrite Z.sub_diag, Z.mod_0_l in Heq by lia.
           rewrite Zminus_mod_idemp_l in Heq.
           replace (v + (1 + i) - v) with (1 + i) in Heq by lia.
           rewrite Z.mod_small in Heq by lia. lia.
      * replace (Z.of_nat (S i)) with (1 + Z.of_nat i) by lia.
        rewrite <- Hshift. exact (IHin i x Hi).
    + intros p Hp. rewrite IHout.
      * apply lookup_insert_ne. intros <-. apply (Hp 0); [lia|].
        rewrite Z.add_0_r, Z.mod_small by exact He. reflexivity.
      * intros i Hi. rewrite Hshift. apply Hp. lia.
Qed.

Lemma pulls_pending (bs : list Z) : forall e : Inflate.t,
  Inflate._lengthDecompressed e = Z.of_nat (length bs) ->
  (forall i b, bs !! i = Some b ->
     Inflate._window e !! slot e (Z.of_nat i - Z.of_nat (length bs)) = Some b) ->
  exists e',
    pulls (length bs) e = Ok ((fun b => Inflate.Value (Some b)) <$> bs, e') /\
    Inflate._lengthDecompressed e' = 0 /\
    Inflate._end e' = Inflate._end e /\
    Inflate._window e' = Inflate._window e.
Proof.
  unfold slot.
  induction bs as [|b bs IH]; intros e Hld Hwin; cbn [pulls length fmap list_fmap].
  - exists e. auto.
  - cbn [length] in Hld, Hwin. cbn [Inflate.next].
    destruct (Z.ltb_spec 0 (Inflate._lengthDecompressed e)) as [_|Hno]; [|lia].
    cbn [mbind outcome_bind].
    set (e1 := Inflate.set_lengthDecompressed _ _).
    destruct (IH e1) as (e' & -> & Hld' & Hend' & Hwin').
    { subst e1. cbn. lia. }
    { intros i x Hi. subst e1. cbn.
      rewrite <- (Hwin (S i) x Hi). f_equal. f_equal. lia. }
    cbn [mbind outcome_bind].
    exists e'. split; [|subst e1; cbn in *; auto].
    f_equal. f_equal. f_equal. f_equal.
    subst e1. cbn. rewrite and_WindowMask.
    rewrite <- (Hwin 0%nat b eq_refl), Hld. f_equal.
Qed.

(** The window is a queue: what Write stores, up to the size of the
    window, the following calls of [next] hand out in the same order, and
    they leave nothing pending. *)
Theorem window_is_fifo (bs : list Z) (e : Inflate.t) :
  0 <= Inflate._end e < Inflate.WindowSize ->
  Inflate._lengthDecompressed e = 0 ->
  Z.of_nat (length bs) <= Inflate.WindowSize ->
  exists e',
    pulls (length bs) (writes bs e) =
      Ok ((fun b => Inflate.Value (Some b)) <$> bs, e') /\
    Inflate._lengthDecompressed e' = 0 /\
    Inflate._end e' = slot e (Z.of_nat (length bs)).
Proof.
  intros He Hld Hlen.
  destruct (writes_window bs e He Hlen) as (Hend & Hl & Hin & _).
  destruct (pulls_pending bs (writes bs e)) as (e' & Hp & Hld' & Hend' & _).
  - lia.
  - intros i b Hi. rewrite <- (Hin i b Hi). f_equal.
    unfold slot. rewrite Hend. unfold slot, Inflate.WindowSize.
    rewrite Zplus_mod_idemp_l. f_equal. lia.
  - exists e'. rewrite Hend' , Hend. auto.
Qed.

Lemma window_is_fifo_witness :
  exists e',
    pulls 3 (writes [0x61; 0x62; 0x63] (Inflate.new (ArrayIterator []) None)) =
      Ok ([Inflate.Value (Some 0x61); Inflate.Value (Some 0x62);
           Inflate.Value (Some 0x63)], e') /\
    Inflate._lengthDecompressed e' = 0 /\
    Inflate._end e' = 3.
Proof.
  apply (window_is_fifo [0x61; 0x62; 0x63] (Inflate.new (ArrayIterator []) None)).
  - vm_compute. split; [discriminate | reflexivity].
  - reflexivity.
  - vm_compute. discriminate.
Defined.

Lemma slot_apart (e : Inflate.t) (j : Z) :
  0 <= Inflate._end e < Inflate.WindowSize ->
  0 < j < Inflate.WindowSize \/ - Inflate.WindowSize < j < 0 ->
  Inflate._end e <> slot e j.
Proof.
  unfold slot, Inflate.WindowSize. intros He Hj Heq.
  pose proof (Z.div_mod (Inflate._end e + j) 32768 ltac:(lia)) as Hdm.
  rewrite <- Heq in Hdm. lia.
Qed.

Lemma slot_0 (e : Inflate.t) :
  0 <= Inflate._end e < Inflate.WindowSize -> slot e 0 = Inflate._end e.
Proof.
  intros He. unfold slot. rewrite Z.add_0_r. apply Z.mod_small. exact He.
Qed.

(** Where neither cursor reaches the end of the window the first loop of
    WriteLengthDistance does what the second one does. *)
Lemma copy_straight_wrapping (n : nat) : forall (copyStart : Z) (e : Inflate.t),
  0 <= copyStart -> copyStart + Z.of_nat n <= Inflate.WindowSize ->
  0 <= Inflate._end e -> Inflate._end e + Z.of_nat n < Inflate.WindowSize ->
  Inflate.copy_straight n copyStart e = Inflate.copy_wrapping n copyStart e.
Proof.
  unfold Inflate.WindowSize.
  induction n as [|n IH]; intros cs e Hcs Hcsn He Hen; [reflexivity|].
  cbn [Inflate.copy_straight Inflate.copy_wrapping].
  destruct (Inflate._window e !! cs) as [source|]; [|reflexivity].
  cbn [defined mbind outcome_bind].
  rewrite !and_WindowMask. unfold Inflate.WindowSize.
  rewrite (Z.mod_small (Inflate._end e + 1)) by lia.
  destruct n as [|n']; [reflexivity|].
  rewrite (Z.mod_small (cs + 1)) by lia.
  apply IH; cbn; lia.
Qed.

Lemma copy_wrapping_spec (d : Z) (n : nat) : forall e : Inflate.t,
  0 <= Inflate._end e < Inflate.WindowSize ->
  1 <= d <= Inflate.WindowSize ->
  Z.of_nat n <= Inflate.WindowSize ->
  (forall k, 1 <= k <= d -> is_Some (Inflate._window e !! slot e (- k))) ->
  exists e',
    Inflate.copy_wrapping n (slot e (- d)) e = Ok e' /\
    Inflate._end e' = slot e (Z.of_nat n) /\
    Inflate._lengthDecompressed e' = Inflate._lengthDecompressed e /\
    (forall i, 0 <= i < Z.of_nat n ->
       exists b,
         Inflate._window e' !! slot e i = Some b /\
         (if i <? d then Inflate._window e else Inflate._window e')
           !! slot e (i - d) = Some b) /\
    (forall p, (forall i, 0 <= i < Z.of_nat n -> p <> slot e i) ->
       Inflate._window e' !! p = Inflate._window e !! p).
Proof.
  induction n as [|n IH]; intros e He Hd Hn Hback.
  - exists e. cbn [Inflate.copy_wrapping].
    repeat split; [symmetry; apply slot_0; exact He | intros i Hi; lia].
  - destruct (Hback d ltac:(lia)) as [source Hsource].
    cbn [Inflate.copy_wrapping]. rewrite Hsource. cbn [defined mbind outcome_bind].
    set (e1 := Inflate.adler_add source _).
    assert (He1 : Inflate._end e1 = slot e 1)
      by (subst e1; cbn; apply and_WindowMask).
    assert (Hw1 : Inflate._window e1 = <[Inflate._end e := source]> (Inflate._window e))
      by reflexivity.
    assert (Hl1 : Inflate._lengthDecompressed e1 = Inflate._lengthDecompressed e)
      by reflexivity.
    assert (Hshift : forall j, slot e1 j = slot e (1 + j)).
    { intros j. unfold slot at 1. rewrite He1. unfold slot, Inflate.WindowSize.
      rewrite Zplus_mod_idemp_l. f_equal. lia. }
    assert (Hcs : Js.and (slot e (- d) + 1) Inflate.WindowMask = slot e1 (- d)).
    { rewrite and_WindowMask, Hshift. unfold slot, Inflate.WindowSize.
      rewrite Zplus_mod_idemp_l. f_equal. lia. }
    rewrite Hcs.
    destruct (IH e1) as (e' & -> & IHend & IHld & IHin & IHout).
    { rewrite He1. apply Z.mod_pos_bound. unfold Inflate.WindowSize. lia. }
    { exact Hd. }
    { lia. }
    { intros k Hk. rewrite Hshift, Hw1.
      apply lookup_insert_is_Some.
      destruct (decide (Inflate._end e = slot e (1 + - k))) as [Heq|Hne];
        [left; exact Heq | right; split; [exact Hne|]].
      destruct (Z.eq_dec k 1) as [-> | Hk1].
      - exfalso. apply Hne. symmetry. apply slot_0. exact He.
      - replace (1 + - k) with (- (k - 1)) by lia. apply Hback. lia. }
    assert (Hfirst : Inflate._window e' !! Inflate._end e = Some source).
    { rewrite IHout.
      - rewrite Hw1. apply lookup_insert_eq.
      - intros i Hi. rewrite Hshift. apply slot_apart; [exact He|].
        unfold Inflate.WindowSize in *. lia. }
    exists e'. split; [reflexivity|]. split; [|split; [|split]].
    + rewrite IHend, Hshift. f_equal. lia.
    + congruence.
    + intros i Hi.
      destruct (Z.eq_dec i 0) as [-> | Hi0].
      * exists source. rewrite (slot_0 e He).
        split; [exact Hfirst|].
        destruct (Z.ltb_spec 0 d) as [_|Hno]; [exact Hsource | lia].
      * destruct (IHin (i - 1) ltac:(lia)) as (b & Hb & Hsrc).
        rewrite !Hshift in Hb, Hsrc.
        replace (1 + (i - 1)) with i in Hb by lia.
        replace (1 + (i - 1 - d)) with (i - d) in Hsrc by lia.
        exists b. split; [exact Hb|].
        destruct (Z.ltb_spec i d) as [Hlt|Hge].
        -- destruct (Z.ltb_spec (i - 1) d) as [_|Hno]; [|lia].
           rewrite Hw1, lookup_insert_ne in Hsrc; [exact Hsrc|].
           apply slot_apart; [exact He|]. unfold Inflate.WindowSize in *. lia.
        -- destruct (Z.ltb_spec (i - 1) d) as [Hlt1|_]; [|exact Hsrc].
           assert (i = d) by lia. subst i.
           rewrite Z.sub_diag, (slot_0 e He) in *.
           rewrite Hw1, lookup_insert_eq in Hsrc. rewrite Hfirst. exact Hsrc.
    + intros p Hp. rewrite IHout.
      * rewrite Hw1. apply lookup_insert_ne. intros <-. apply (Hp 0); [lia|].
        symmetry. apply slot_0. exact He.
      * intros i Hi. rewrite Hshift. apply Hp. lia.
Qed.

(** WriteLengthDistance is the copy of LZ77, whichever of its two loops
    runs: with the last [distance] bytes in the window, byte [i] of the
    [length] bytes that it appends is the byte [distance] places before
    it, an old one for [i < distance] and one of the new ones from there
    on (the copy overlaps itself); the rest of the window is untouched. *)
Theorem WriteLengthDistance_copies (length_ distance : Z) (e : Inflate.t) :
  0 <= Inflate._end e < Inflate.WindowSize ->
  1 <= distance <= Inflate.WindowSize ->
  0 <= length_ <= Inflate.WindowSize ->
  (forall k, 1 <= k <= distance -> is_Some (Inflate._window e !! slot e (- k))) ->
  exists e',
    Inflate.WriteLengthDistance length_ distance e = Ok e' /\
    Inflate._end e' = slot e length_ /\
    Inflate._lengthDecompressed e' = Inflate._lengthDecompressed e + length_ /\
    (forall i, 0 <= i < length_ ->
       exists b,
         Inflate._window e' !! slot e i = Some b /\
         (if i <? distance then Inflate._window e else Inflate._window e')
           !! slot e (i - distance) = Some b) /\
    (forall p, (forall i, 0 <= i < length_ -> p <> slot e i) ->
       Inflate._window e' !! p = Inflate._window e !! p).
Proof.
  intros He Hd Hl Hback.
  unfold Inflate.WriteLengthDistance.
  set (e0 := Inflate.set_lengthDecompressed _ e).
  assert (Hcs : Js.and (Inflate._end e0 - distance) Inflate.WindowMask = slot e0 (- distance)).
  { rewrite and_WindowMask. reflexivity. }
  rewrite Hcs.
  destruct (copy_wrapping_spec distance (Z.to_nat length_) e0)
    as (e' & Hcopy & Hend & Hld & Hin & Hout).
  { exact He. }
  { exact Hd. }
  { lia. }
  { exact Hback. }
  rewrite Z2Nat.id in Hend, Hin, Hout by lia.
  exists e'. split; [|split; [exact Hend | split; [exact Hld | split; [exact Hin | exact Hout]]]].
  destruct (_ && _) eqn:Hstraight; [|exact Hcopy].
  apply andb_true_iff in Hstraight as [H1 H2].
  apply Z.leb_le in H1. apply Z.ltb_lt in H2.
  rewrite copy_straight_wrapping; [exact Hcopy | | | |].
  - unfold slot, Inflate.WindowSize. apply Z.mod_pos_bound. lia.
  - rewrite Z2Nat.id by lia. lia.
  - apply He.
  - rewrite Z2Nat.id by lia. lia.
Qed.

Lemma WriteLengthDistance_copies_witness :
  exists e',
    Inflate.WriteLengthDistance 5 2 two_written = Ok e' /\
    Inflate._end e' = slot two_written 5 /\
    Inflate._lengthDecompressed e' = Inflate._lengthDecompressed two_written + 5 /\
    (forall i, 0 <= i < 5 ->
       exists b,
         Inflate._window e' !! slot two_written i = Some b /\
         (if i <? 2 then Inflate._window two_written else Inflate._window e')
           !! slot two_written (i - 2) = Some b) /\
    (forall p, (forall i, 0 <= i < 5 -> p <> slot two_written i) ->
       Inflate._window e' !! p = Inflate._window two_written !! p).
Proof.
  apply (WriteLengthDistance_copies 5 2 two_written).
  - vm_compute. split; [discriminate | reflexivity].
  - vm_compute. split; discriminate.
  - vm_compute. split; discriminate.
  - intros k Hk. assert (Hcases : k = 1 \/ k = 2) by lia.
    destruct Hcases as [-> | ->]; vm_compute; eexists; reflexivity.
Defined.

(** ** inflate.ts: the running checksum *)

Lemma writes_sums (bs : list Z) : forall e : Inflate.t,
  bytes bs -> 0 <= Inflate.s1 e -> 0 <= Inflate.s2 e ->
  0 <= Inflate.s1 (writes bs e) /\ 0 <= Inflate.s2 (writes bs e) /\
  (Inflate.s1 (writes bs e) mod 65521, Inflate.s2 (writes bs e) mod 65521) =
  foldl rfc1950_adler32_step (Inflate.s1 e mod 65521, Inflate.s2 e mod 65521) bs.
Proof.
  induction bs as [|b bs IH]; intros e Hbs H1 H2; cbn [writes foldl].
  - auto.
  - inversion Hbs as [|? ? Hb Hbs']; subst.
    fold (writes bs (Inflate.Write b e)).
    destruct (IH (Inflate.Write b e) Hbs') as (G1 & G2 & ->);
      [cbn; lia | cbn; lia |].
    repeat split; [exact G1 | exact G2 |].
    f_equal. unfold rfc1950_adler32_step. cbn [fst snd Inflate.s1 Inflate.s2 Inflate.Write
      Inflate.adler_add Inflate.set_adler Inflate.set_lengthDecompressed Inflate.set_window].
    rewrite Zplus_mod_idemp_l, Zplus_mod_idemp_r, Zplus_mod_idemp_l.
    reflexivity.
Qed.

(** The sums that Write keeps are those of Adler-32: reduced as [next]
    reduces them, the sums of an engine that has written [bs] are the
    sums that RFC 1950 defines, continued from the engine's own.  Only the
    residues of the sums enter, so it makes no difference at which writes
    [next] has reduced them. *)
Theorem Write_keeps_Adler32_sums (bs : list Z) (e : Inflate.t) :
  bytes bs -> 0 <= Inflate.s1 e -> 0 <= Inflate.s2 e ->
  (Js.rem (Inflate.s1 (writes bs e)) Inflate.BASE,
   Js.rem (Inflate.s2 (writes bs e)) Inflate.BASE) =
  foldl rfc1950_adler32_step
        (Inflate.s1 e mod Inflate.BASE, Inflate.s2 e mod Inflate.BASE) bs.
Proof.
  intros Hbs H1 H2. unfold Js.rem, Inflate.BASE.
  destruct (writes_sums bs e Hbs H1 H2) as (G1 & G2 & <-).
  rewrite !Z.rem_mod_nonneg by lia. reflexivity.
Qed.

Lemma Write_keeps_Adler32_sums_witness :
  (Js.rem (Inflate.s1 (writes [0x61; 0x62; 0x63] (Inflate.new (ArrayIterator []) None)))
          Inflate.BASE,
   Js.rem (Inflate.s2 (writes [0x61; 0x62; 0x63] (Inflate.new (ArrayIterator []) None)))
          Inflate.BASE) =
  rfc1950_adler32 [0x61; 0x62; 0x63].
Proof.
  apply (Write_keeps_Adler32_sums [0x61; 0x62; 0x63] (Inflate.new (ArrayIterator []) None)).
  - repeat constructor; lia.
  - cbn. lia.
  - cbn. lia.
Defined.

(** ** zlib-iterable.ts: the trailer and the header *)

Lemma trailer_byte_ops (v : Z) :
  0 <= v < 256 ->
  Js.and (Js.shl (Js.and v 0xff) 24) 0xff000000 = Js.ToInt32 (v * 2 ^ 24) /\
  Js.and (Js.shl (Js.and v 0xff) 16) 0xff0000 = v * 2 ^ 16 /\
  Js.and (Js.shl (Js.and v 0xff) 8) 0xff00 = v * 2 ^ 8 /\
  Js.and (Js.and v 0xff) 0xff = v.
Proof.
  intros Hv.
  pose (f := fun v =>
    (Js.and (Js.shl (Js.and v 0xff) 24) 0xff000000 =? Js.ToInt32 (v * 2 ^ 24)) &&
    (Js.and (Js.shl (Js.and v 0xff) 16) 0xff0000 =? v * 2 ^ 16) &&
    (Js.and (Js.shl (Js.and v 0xff) 8) 0xff00 =? v * 2 ^ 8) &&
    (Js.and (Js.and v 0xff) 0xff =? v)).
  assert (H : f v = true).
  { apply (seqZ_forallb f 0 256); [vm_compute; reflexivity | lia]. }
  unfold f in H.
  repeat (apply andb_true_iff in H as [H ?]).
  repeat split; apply Z.eqb_eq; assumption.
Qed.

Lemma ToInt32_top_byte (v low : Z) :
  0 <= v < 256 -> 0 <= low < 2 ^ 24 ->
  Js.ToInt32 (v * 2 ^ 24) + low = Js.ToInt32 (v * 2 ^ 24 + low).
Proof.
  intros Hv Hlow.
  destruct (Z_lt_le_dec v 128) as [Hs|Hb].
  - rewrite !ToInt32_small by lia. reflexivity.
  - unfold Js.ToInt32.
    replace (v * 2 ^ 24 + 2 ^ 31) with (v * 2 ^ 24 - 2 ^ 31 + 1 * 2 ^ 32) by lia.
    replace (v * 2 ^ 24 + low + 2 ^ 31)
      with (v * 2 ^ 24 + low - 2 ^ 31 + 1 * 2 ^ 32) by lia.
    rewrite !Z.mod_add by lia.
    rewrite !Z.mod_small by lia. lia.
Qed.

Lemma read_need_big_endian (bs : list Z) :
  bytes bs ->
  ZlibIterable.ZLibInflate.read_need 4 0 (ArrayIterator bs) =
  Ok (Js.ToInt32 (big_endian_32 bs), ArrayIterator (drop 4 bs)).
Proof.
  intros Hbs. unfold big_endian_32.
  destruct bs as [|t3 bs]; [reflexivity|].
  inversion Hbs as [|? ? H3 Hbs3]; subst.
  destruct (trailer_byte_ops t3 H3) as (E3 & _).
  cbn [ZlibIterable.ZLibInflate.read_need iterator_next mbind outcome_bind
       lookup list_lookup default id].
  rewrite E3.
  destruct bs as [|t2 bs].
  { cbn. do 2 f_equal. f_equal; lia. }
  inversion Hbs3 as [|? ? H2 Hbs2]; subst.
  destruct (trailer_byte_ops t2 H2) as (_ & E2 & _).
  cbn [ZlibIterable.ZLibInflate.read_need iterator_next mbind outcome_bind
       lookup list_lookup default id].
  rewrite E2.
  destruct bs as [|t1 bs].
  { cbn. do 2 f_equal. rewrite ToInt32_top_byte by lia. f_equal; lia. }
  inversion Hbs2 as [|? ? H1 Hbs1]; subst.
  destruct (trailer_byte_ops t1 H1) as (_ & _ & E1 & _).
  cbn [ZlibIterable.ZLibInflate.read_need iterator_next mbind outcome_bind
       lookup list_lookup default id].
  rewrite E1.
  destruct bs as [|t0 bs].
  { cbn. do 2 f_equal.
    rewrite <- Z.add_assoc, ToInt32_top_byte by lia. f_equal; lia. }
  inversion Hbs1 as [|? ? H0 Hbs0]; subst.
  destruct (trailer_byte_ops t0 H0) as (_ & _ & _ & E0).
  cbn [ZlibIterable.ZLibInflate.read_need iterator_next mbind outcome_bind
       lookup list_lookup default id].
  rewrite E0. cbn [drop].
  do 2 f_equal.
  rewrite <- !Z.add_assoc, ToInt32_top_byte by lia. f_equal; lia.
Qed.

(** The checksum callback reads up to four bytes, most significant
    first, and compares the signed 32-bit number they spell with its
    argument.  A trailer cut short is not refused as such: the missing
    low bytes count as zero. *)
Theorem verify_reads_big_endian (adler32 : Z) (bs : list Z) :
  bytes bs ->
  ZlibIterable.ZLibInflate.verify adler32 (ArrayIterator bs) =
  if Js.ToInt32 (big_endian_32 bs) =? adler32
  then Ok (ArrayIterator (drop 4 bs))
  else Throw (Thrown "Invalid Adler-32 checksum").
Proof.
  intros Hbs. unfold ZlibIterable.ZLibInflate.verify.
  rewrite (read_need_big_endian bs Hbs). cbn [mbind outcome_bind].
  destruct (_ =? _); reflexivity.
Qed.

Lemma verify_reads_big_endian_witness :
  ZlibIterable.ZLibInflate.verify (- 2 ^ 31 + 0x0102)
    (ArrayIterator [0x80; 0x00; 0x01; 0x02; 0x07]) =
  if Js.ToInt32 (big_endian_32 [0x80; 0x00; 0x01; 0x02; 0x07]) =? - 2 ^ 31 + 0x0102
  then Ok (ArrayIterator (drop 4 [0x80; 0x00; 0x01; 0x02; 0x07]))
  else Throw (Thrown "Invalid Adler-32 checksum").
Proof.
  apply (verify_reads_big_endian (- 2 ^ 31 + 0x0102) [0x80; 0x00; 0x01; 0x02; 0x07]).
  repeat constructor; lia.
Defined.

Lemma ToInt32_idem (z : Z) : Js.ToInt32 (Js.ToInt32 z) = Js.ToInt32 z.
Proof.
  apply ToInt32_small, ToInt32_range.
Qed.

Lemma ToInt32_inj (x y : Z) :
  0 <= x < 2 ^ 32 -> 0 <= y < 2 ^ 32 -> Js.ToInt32 x = Js.ToInt32 y -> x = y.
Proof.
  intros Hx Hy H.
  rewrite <- (Z.mod_small x (2 ^ 32)), <- (Z.mod_small y (2 ^ 32)) by lia.
  rewrite <- (ToInt32_low_bits x 32), <- (ToInt32_low_bits y 32) by lia.
  rewrite H. reflexivity.
Qed.

(** [(b << 16) | a] for two numbers below 2^16. *)
Lemma checksum_word (a b : Z) :
  0 <= a < 2 ^ 16 -> 0 <= b < 2 ^ 16 ->
  Js.or (Js.shl b 16) a = Js.ToInt32 (b * 2 ^ 16 + a).
Proof.
  intros Ha Hb. unfold Js.or, Js.shl.
  rewrite ToInt32_idem, (ToInt32_small a), (ToInt32_small b) by lia.
  change (16 mod 32) with 16. rewrite Z.shiftl_mul_pow2 by lia.
  destruct (Z_lt_le_dec b (2 ^ 15)) as [Hs|Hl].
  - rewrite !ToInt32_small by lia.
    rewrite Z.lor_comm, lor_disjoint by lia. lia.
  - assert (H1 : Js.ToInt32 (b * 2 ^ 16) = (b - 2 ^ 16) * 2 ^ 16).
    { unfold Js.ToInt32.
      replace (b * 2 ^ 16 + 2 ^ 31) with (b * 2 ^ 16 - 2 ^ 31 + 1 * 2 ^ 32) by lia.
      rewrite Z.mod_add, Z.mod_small by lia. lia. }
    assert (H2 : Js.ToInt32 (b * 2 ^ 16 + a) = (b - 2 ^ 16) * 2 ^ 16 + a).
    { unfold Js.ToInt32.
      replace (b * 2 ^ 16 + a + 2 ^ 31)
        with (b * 2 ^ 16 + a - 2 ^ 31 + 1 * 2 ^ 32) by lia.
      rewrite Z.mod_add, Z.mod_small by lia. lia. }
    rewrite H1, H2, Z.lor_comm, lor_disjoint by lia. lia.
Qed.

Lemma big_endian_32_range (bs : list Z) : bytes bs -> 0 <= big_endian_32 bs < 2 ^ 32.
Proof.
  intros Hbs.
  assert (H : forall i, 0 <= default 0 (bs !! i) < 256).
  { intros i. destruct (bs !! i) as [x|] eqn:Hi; cbn; [|lia].
    unfold bytes in Hbs. rewrite Forall_lookup in Hbs. exact (Hbs i x Hi). }
  unfold big_endian_32.
  pose proof (H 0%nat). pose proof (H 1%nat). pose proof (H 2%nat). pose proof (H 3%nat).
  lia.
Qed.

(** The last call of [next] on a ZLIB stream: an engine that has reached
    [Done] with nothing pending hands its checksum, [s2] in the upper and
    [s1] in the lower half, both reduced, to the callback, which takes
    the next four bytes; the call reports the end when they spell that
    number and throws otherwise. *)
Theorem next_at_Done_checks_the_trailer (fuel : nat) (e : Inflate.t) (bs : list Z) :
  Inflate._state e = Inflate.Done ->
  Inflate._lengthDecompressed e <= 0 ->
  Inflate._lengthUncompressed e <= 0 ->
  Inflate._verifyAdler e = Some ZlibIterable.ZLibInflate.verify ->
  InputBuffer._iterator (Inflate._input e) = ArrayIterator bs ->
  bytes bs -> 0 <= Inflate.s1 e -> 0 <= Inflate.s2 e ->
  Inflate.next (S fuel) e =
  if big_endian_32 bs =?
     (Inflate.s2 e mod Inflate.BASE) * 2 ^ 16 + Inflate.s1 e mod Inflate.BASE
  then Ok (Inflate.DoneResult,
           Inflate.set_current (-1)
             (Inflate.set_input
                (InputBuffer.mk (InputBuffer._bitBuffer (Inflate._input e))
                                (InputBuffer._bitsInBuffer (Inflate._input e))
                                (ArrayIterator (drop 4 bs)))
                (Inflate.set_adler (Js.rem (Inflate.s1 e) Inflate.BASE)
                                   (Js.rem (Inflate.s2 e) Inflate.BASE) e)))
  else Throw (Thrown "Invalid Adler-32 checksum").
Proof.
  intros Hstate Hld Hlu Hverify Hit Hbs H1 H2.
  cbn [Inflate.next].
  destruct (Z.ltb_spec 0 (Inflate._lengthDecompressed e)) as [Hno|_]; [lia|].
  destruct (Z.ltb_spec 0 (Inflate._lengthUncompressed e)) as [Hno|_]; [lia|].
  cbn [Inflate._state Inflate.set_adler]. rewrite Hstate.
  cbn [Inflate.is_Done mbind outcome_bind].
  unfold Inflate.finish.
  cbn [Inflate._verifyAdler Inflate._input Inflate.s1 Inflate.s2 Inflate.set_adler].
  rewrite Hverify, Hit.
  unfold ZlibIterable.ZLibInflate.verify.
  rewrite (read_need_big_endian bs Hbs). cbn [mbind outcome_bind].
  unfold Js.rem, Inflate.BASE.
  pose proof (Z.mod_pos_bound (Inflate.s1 e) 65521 ltac:(lia)) as Ha.
  pose proof (Z.mod_pos_bound (Inflate.s2 e) 65521 ltac:(lia)) as Hb.
  rewrite !Z.rem_mod_nonneg by lia.
  rewrite !Z.mod_mod by lia.
  rewrite checksum_word by lia.
  pose proof (big_endian_32_range bs Hbs) as Hr.
  destruct (Z.eqb_spec (big_endian_32 bs)
              (Inflate.s2 e mod 65521 * 2 ^ 16 + Inflate.s1 e mod 65521)) as [Heq|Hne].
  - rewrite Heq, Z.eqb_refl. reflexivity.
  - destruct (Z.eqb_spec (Js.ToInt32 (big_endian_32 bs))
                (Js.ToInt32 (Inflate.s2 e mod 65521 * 2 ^ 16 + Inflate.s1 e mod 65521)))
      as [Heq|_]; [|reflexivity].
    exfalso. apply Hne. apply ToInt32_inj; [lia | lia | exact Heq].
Qed.

Lemma next_at_Done_checks_the_trailer_witness :
  Inflate.next 1 finished_abc =
  if big_endian_32 [0x02; 0x4d; 0x01; 0x27] =?
     (Inflate.s2 finished_abc mod Inflate.BASE) * 2 ^ 16 +
     Inflate.s1 finished_abc mod Inflate.BASE
  then Ok (Inflate.DoneResult,
           Inflate.set_current (-1)
             (Inflate.set_input
                (InputBuffer.mk (InputBuffer._bitBuffer (Inflate._input finished_abc))
                                (InputBuffer._bitsInBuffer (Inflate._input finished_abc))
                                (ArrayIterator (drop 4 [0x02; 0x4d; 0x01; 0x27])))
                (Inflate.set_adler (Js.rem (Inflate.s1 finished_abc) Inflate.BASE)
                                   (Js.rem (Inflate.s2 finished_abc) Inflate.BASE)
                                   finished_abc)))
  else Throw (Thrown "Invalid Adler-32 checksum").
Proof.
  apply (next_at_Done_checks_the_trailer 0 finished_abc [0x02; 0x4d; 0x01; 0x27]).
  - reflexivity.
  - cbn. lia.
  - cbn. lia.
  - reflexivity.
  - reflexivity.
  - repeat constructor; lia.
  - cbn. lia.
  - cbn. lia.
Defined.

(** The constructor of ZLibInflate tests the header in a fixed order:
    the compression method (the low four bits of CMF must be 8), then the
    window size (the high four bits of CMF at most 7), both before the
    second byte is taken, then the check that CMF and FLG as a 16-bit
    number are a multiple of 31.  Nothing else is tested, and what follows
    the two bytes is left to the engine. *)
Theorem ZLibInflate_header_tests (cmf flg : Z) (rest : list Z) :
  0 <= cmf < 256 -> 0 <= flg < 256 ->
  ZlibIterable.ZLibInflate.new (ArrayIterator (cmf :: flg :: rest)) =
  if negb (cmf mod 16 =? 8) then Throw (Thrown "unknown compression method")
  else if 7 <? cmf / 16 then Throw (Thrown "invalid window size")
  else if negb ((cmf * 256 + flg) mod 31 =? 0) then Throw (Thrown "incorrect header check")
  else Ok (Inflate.new (ArrayIterator rest) (Some ZlibIterable.ZLibInflate.verify)).
Proof.
  intros Hc Hf.
  destruct (header_arithmetic cmf flg Hc Hf) as (Hand & Hshr & Hrem).
  unfold ZlibIterable.ZLibInflate.new.
  cbn [iterator_next mbind outcome_bind].
  rewrite Hand, Hshr. rewrite (Z.eqb_sym 8).
  destruct (cmf mod 16 =? 8); cbn [negb]; [|reflexivity].
  destruct (Z.ltb_spec 15 (cmf / 16 + 8)), (Z.ltb_spec 7 (cmf / 16)); try lia;
    [reflexivity|].
  cbn [iterator_next mbind outcome_bind].
  rewrite Hrem. destruct (_ =? 0); reflexivity.
Qed.

Lemma ZLibInflate_header_tests_witness :
  ZlibIterable.ZLibInflate.new (ArrayIterator (0x78 :: 0x9d :: [0x4b])) =
  if negb (0x78 mod 16 =? 8) then Throw (Thrown "unknown compression method")
  else if 7 <? 0x78 / 16 then Throw (Thrown "invalid window size")
  else if negb ((0x78 * 256 + 0x9d) mod 31 =? 0) then Throw (Thrown "incorrect header check")
  else Ok (Inflate.new (ArrayIterator [0x4b]) (Some ZlibIterable.ZLibInflate.verify)).
Proof.
  apply (ZLibInflate_header_tests 0x78 0x9d [0x4b]); lia.
Defined.

(** ** inflate.ts: lengths and distances *)

Lemma length_tables (k : Z) :
  8 <= k < 28 ->
  exists extraBits base,
    Js.get Inflate.s_extraLengthBits k = Some extraBits /\
    Js.get Inflate.s_lengthBase k = Some base /\
    1 <= extraBits <= 5 /\ 3 <= base /\ base + 2 ^ extraBits <= 259.
Proof.
  intros Hk.
  pose (f := fun k =>
    match Js.get Inflate.s_extraLengthBits k, Js.get Inflate.s_lengthBase k with
    | Some x, Some b => (1 <=? x) && (x <=? 5) && (3 <=? b) && (b + 2 ^ x <=? 259)
    | _, _ => false
    end).
  assert (H : f k = true).
  { apply (seqZ_forallb f 8 20); [vm_compute; reflexivity | lia]. }
  unfold f in H.
  destruct (Js.get Inflate.s_extraLengthBits k) as [x|]; [|discriminate].
  destruct (Js.get Inflate.s_lengthBase k) as [b|]; [|discriminate].
  repeat (apply andb_true_iff in H as [H ?]).
  exists x, b. repeat split; try reflexivity; lia.
Qed.

Lemma distance_table (code : Z) :
  4 <= code < 30 ->
  exists base,
    Js.get Inflate.s_distanceBasePosition code = Some base /\
    1 <= base /\ base + 2 ^ ((code - 2) / 2) <= 32769.
Proof.
  intros Hc.
  pose (f := fun c =>
    match Js.get Inflate.s_distanceBasePosition c with
    | Some b => (1 <=? b) && (b + 2 ^ ((c - 2) / 2) <=? 32769)
    | None => false
    end).
  assert (H : f code = true).
  { apply (seqZ_forallb f 4 26); [vm_compute; reflexivity | lia]. }
  unfold f in H.
  destruct (Js.get Inflate.s_distanceBasePosition code) as [b|]; [|discriminate].
  apply andb_true_iff in H as [H ?].
  exists b. repeat split; lia.
Qed.

(** The length that a length code stands for: the codes 257 to 285 give
    a length from 3 to 258, which is what the guard [freeBytes > 258] of
    DecodeBlock allows for, and the codes above 285 are refused. *)
Theorem DecodeLength_range (smbl : Z) (e : Inflate.t) :
  over_array e -> 257 <= smbl ->
  match Inflate.DecodeLength smbl e with
  | Ok (length_, e') => smbl <= 285 /\ 3 <= length_ <= 258 /\ over_array e'
  | Throw x => 285 < smbl /\ x = Inflate.GenericInvalidData
  | _ => False
  end.
Proof.
  intros Harr Hs. unfold Inflate.DecodeLength.
  destruct (Z.ltb_spec (smbl - 257) 8) as [H8|H8].
  { cbn. repeat split; first [lia | assumption | reflexivity]. }
  destruct (Z.eqb_spec (smbl - 257) 28) as [H28|H28].
  { cbn. repeat split; first [lia | assumption | reflexivity]. }
  destruct (Z.ltb_spec (smbl - 257) 0) as [H0|_]; [lia|].
  cbn [orb].
  destruct (Z.leb_spec (Z.of_nat (length Inflate.s_extraLengthBits)) (smbl - 257))
    as [Hbig|Hin].
  { cbn in Hbig |- *. split; [lia | reflexivity]. }
  change (Z.of_nat (length Inflate.s_extraLengthBits)) with 29 in Hin.
  destruct (length_tables (smbl - 257) ltac:(lia))
    as (extraBits & base & -> & Hbase & Hx & Hb & Hmax).
  cbn [defined mbind outcome_bind].
  destruct (Z.ltb_spec 0 extraBits) as [_|Hno]; [|lia].
  assert (Hx' : 0 <= extraBits <= 31) by lia.
  destruct (Inflate_GetBits_array extraBits e Harr Hx')
    as (bits & e' & -> & Hbits & Harr').
  cbn [mbind outcome_bind].
  destruct (Z.ltb_spec (smbl - 257) 0) as [H0|_]; [lia|].
  destruct (Z.leb_spec (Z.of_nat (length Inflate.s_lengthBase)) (smbl - 257))
    as [Hbig|_]; [cbn in Hbig; lia|].
  cbn [orb]. rewrite Hbase. cbn [defined mbind outcome_bind].
  repeat split; first [lia | assumption | reflexivity].
Qed.

Lemma DecodeLength_range_witness :
  match Inflate.DecodeLength 265 (Inflate.new (ArrayIterator [0x01]) None) with
  | Ok (length_, e') => 265 <= 285 /\ 3 <= length_ <= 258 /\ over_array e'
  | Throw x => 285 < 265 /\ x = Inflate.GenericInvalidData
  | _ => False
  end.
Proof.
  apply (DecodeLength_range 265 (Inflate.new (ArrayIterator [0x01]) None)).
  - eexists. reflexivity.
  - lia.
Defined.

(** The distance that a distance code stands for: the codes 0 to 29 give
    a distance from 1 to 32768, the size of the window, after
    [(distanceCode - 2) >> 1] extra bits for the codes above 3. *)
Theorem DecodeOffset_range (distanceCode : Z) (e : Inflate.t) :
  over_array e -> 0 <= distanceCode <= 29 ->
  exists offset e',
    Inflate.DecodeOffset distanceCode e = Ok (offset, e') /\
    1 <= offset <= Inflate.WindowSize /\ over_array e' /\
    (distanceCode <= 3 -> offset = distanceCode + 1 /\ e' = e).
Proof.
  intros Harr Hc. unfold Inflate.DecodeOffset, Inflate.WindowSize.
  destruct (Z.ltb_spec 3 distanceCode) as [Hbig|Hsmall].
  - rewrite shr_int32 by lia. change (2 ^ 1) with 2.
    assert (Hx : 1 <= (distanceCode - 2) / 2 <= 13).
    { split; [apply Z.div_le_lower_bound; lia|].
      assert ((distanceCode - 2) / 2 < 14) by (apply Z.div_lt_upper_bound; lia). lia. }
    assert (Hx' : 0 <= (distanceCode - 2) / 2 <= 31) by lia.
    destruct (Inflate_GetBits_array ((distanceCode - 2) / 2) e Harr Hx')
      as (bits & e' & -> & Hbits & Harr').
    cbn [mbind outcome_bind].
    destruct (distance_table distanceCode ltac:(lia)) as (base & -> & Hb & Hmax).
    cbn [defined mbind outcome_bind].
    exists (base + bits), e'. repeat split; first [lia | assumption | reflexivity].
  - exists (distanceCode + 1), e. repeat split; first [lia | assumption | reflexivity].
Qed.

Lemma DecodeOffset_range_witness :
  exists offset e',
    Inflate.DecodeOffset 29 (Inflate.new (ArrayIterator [0xff; 0xff]) None) =
      Ok (offset, e') /\
    1 <= offset <= Inflate.WindowSize /\ over_array e' /\
    (29 <= 3 -> offset = 29 + 1 /\ e' = Inflate.new (ArrayIterator [0xff; 0xff]) None).
Proof.
  apply (DecodeOffset_range 29 (Inflate.new (ArrayIterator [0xff; 0xff]) None)).
  - eexists. reflexivity.
  - lia.
Defined.

(** ** inflate.ts: the header of a dynamic block *)

Lemma Inflate_GetBits_range (n : Z) (e e' : Inflate.t) (bits : Z) :
  0 <= n <= 31 -> Inflate.GetBits n e = Ok (bits, e') -> 0 <= bits < 2 ^ n.
Proof.
  intros Hn Hg. unfold Inflate.GetBits, InputBuffer.GetBits in Hg.
  destruct (InputBuffer.fill n (Inflate._input e)) as [ib| | |]; cbn in Hg;
    try discriminate.
  injection Hg as <- _.
  apply and_mask_range. lia.
Qed.

(** The loop that reads the code lengths stops with exactly
    [codeArraySize] of them: a repeat that would pass the end throws. *)
Lemma read_code_list_length (fuel : nat) (tree : HuffmanTree.t) (codeArraySize : Z) :
  forall (codeList : list Z) (e : Inflate.t) (codeList' : list Z) (e' : Inflate.t),
  Z.of_nat (length codeList) <= codeArraySize ->
  Inflate.read_code_list fuel tree codeArraySize codeList e = Ok (codeList', e') ->
  Z.of_nat (length codeList') = codeArraySize.
Proof.
  induction fuel as [|fuel IH]; intros codeList e codeList' e' Hlen Hrun.
  - cbn in Hrun.
    destruct (Z.ltb_spec (Z.of_nat (length codeList)) codeArraySize);
      [discriminate | injection Hrun as <- _; lia].
  - cbn [Inflate.read_code_list] in Hrun.
    destruct (Z.ltb_spec (Z.of_nat (length codeList)) codeArraySize) as [Hlt|Hge];
      [| injection Hrun as <- _; lia].
    destruct (Inflate.GetNextSymbol (Some tree) e) as [[lengthCode e1]| | |];
      cbn [mbind outcome_bind] in Hrun; try discriminate.
    assert (Hone : forall r,
               Inflate.read_code_list fuel tree codeArraySize
                 (codeList ++ [lengthCode]) e1 = r -> r = Ok (codeList', e') ->
               Z.of_nat (length codeList') = codeArraySize).
    { intros r <- Hr. apply (IH (codeList ++ [lengthCode]) e1 codeList' e'); [|exact Hr].
      rewrite length_app. cbn. lia. }
    assert (Hrep : forall n (e0 e2 : Inflate.t) bits k v,
               0 <= n <= 7 -> 0 <= k ->
               Inflate.GetBits n e0 = Ok (bits, e2) ->
               (if codeArraySize <? Z.of_nat (length codeList) + (bits + k)
                then Throw Inflate.InvalidDataException
                else Inflate.read_code_list fuel tree codeArraySize
                       (codeList ++ replicate (Z.to_nat (bits + k)) v) e2)
               = Ok (codeList', e') ->
               Z.of_nat (length codeList') = codeArraySize).
    { intros n e0 e2 bits k v Hn Hk Hg Hr.
      pose proof (Inflate_GetBits_range n e0 e2 bits ltac:(lia) Hg) as Hb.
      destruct (Z.ltb_spec codeArraySize (Z.of_nat (length codeList) + (bits + k)));
        [discriminate|].
      apply (IH (codeList ++ replicate (Z.to_nat (bits + k)) v) e2 codeList' e');
        [|exact Hr].
      rewrite length_app, length_replicate. lia. }
    destruct lengthCode as [|p|p]; try (eapply Hone; [reflexivity | exact Hrun]).
    do 5 (destruct p as [p|p|]; try (eapply Hone; [reflexivity | exact Hrun])).
    + (* 17 *)
      destruct (Inflate.GetBits 3 e1) as [[bits e2]| | |] eqn:E;
        cbn [mbind outcome_bind] in Hrun; try discriminate.
      exact (Hrep 3 e1 e2 bits 3 0 ltac:(lia) ltac:(lia) E Hrun).
    + (* 18 *)
      destruct (Inflate.GetBits 7 e1) as [[bits e2]| | |] eqn:E;
        cbn [mbind outcome_bind] in Hrun; try discriminate.
      exact (Hrep 7 e1 e2 bits 11 0 ltac:(lia) ltac:(lia) E Hrun).
    + (* 16 *)
      destruct (_ =? 0); [discriminate|].
      destruct (Js.get codeList _) as [previousCode|];
        cbn [defined mbind outcome_bind] in Hrun; [|discriminate].
      destruct (Inflate.GetBits 2 e1) as [[bits e2]| | |] eqn:E;
        cbn [mbind outcome_bind] in Hrun; try discriminate.
      exact (Hrep 2 e1 e2 bits 3 previousCode ltac:(lia) ltac:(lia) E Hrun).
Qed.

Lemma length_slice_pad (a : list Z) (from to size : Z) :
  0 <= from <= to -> to <= Z.of_nat (length a) -> to - from <= size ->
  Z.of_nat (length (Inflate.slice_pad a from to size)) = size.
Proof.
  intros Hft Hto Hsize. unfold Inflate.slice_pad.
  rewrite length_app, length_replicate, length_take, length_drop. lia.
Qed.

Lemma first_bits (n b : Z) (rest : list Z) :
  1 <= n <= 8 -> 0 <= b < 256 ->
  InputBuffer.GetBits n (InputBuffer.new (ArrayIterator (b :: rest))) =
  Ok (b mod 2 ^ n, InputBuffer.mk (b / 2 ^ n) (8 - n) (ArrayIterator rest)).
Proof.
  intros Hn Hb.
  assert (Hfill : InputBuffer.fill n (InputBuffer.new (ArrayIterator (b :: rest))) =
                  Ok (InputBuffer.mk b 8 (ArrayIterator rest))).
  { unfold InputBuffer.fill, InputBuffer.load, InputBuffer.new.
    cbn [InputBuffer._bitsInBuffer InputBuffer._bitBuffer InputBuffer._iterator].
    destruct (Z.ltb_spec 0 n); [|lia].
    cbn [iterator_next mbind outcome_bind
         InputBuffer._bitsInBuffer InputBuffer._bitBuffer InputBuffer._iterator].
    destruct (Z.ltb_spec (0 + 8) n); [lia|].
    cbn [mbind outcome_bind]. do 2 f_equal.
    unfold Js.or, Js.shl. change (0 mod 32) with 0.
    rewrite Z.shiftl_0_r, !ToInt32_idem, (ToInt32_small b) by lia.
    change (Js.ToInt32 0) with 0. apply Z.lor_0_l. }
  rewrite (GetBits_of_fill n _ _ Hfill) by (cbn; lia).
  apply GetBits_when_buffered; lia.
Qed.

Lemma Inflate_GetBits_eq (n : Z) (e : Inflate.t) (bits : Z) (input : InputBuffer.t) :
  InputBuffer.GetBits n (Inflate._input e) = Ok (bits, input) ->
  Inflate.GetBits n e = Ok (bits, Inflate.set_input input e).
Proof.
  intros H. unfold Inflate.GetBits. rewrite H. reflexivity.
Qed.

(** A first byte that announces the reserved block type makes the first
    call of [next] throw, whatever follows it and with or without a
    checksum callback. *)
Theorem reserved_block_type_is_refused
    (b : Z) (rest : list Z) (verify : option Inflate.verifier) (fuel : nat) :
  0 <= b < 256 -> (b / 2) mod 4 = 3 ->
  Inflate.next (S fuel) (Inflate.new (ArrayIterator (b :: rest)) verify) =
  Throw Inflate.UnknownBlockTypeException.
Proof.
  intros Hb Htype.
  set (e := Inflate.new (ArrayIterator (b :: rest)) verify).
  assert (Hdecode : Inflate.Decode
                      (Inflate.set_adler (Js.rem (Inflate.s1 e) Inflate.BASE)
                                         (Js.rem (Inflate.s2 e) Inflate.BASE) e) =
                    Throw Inflate.UnknownBlockTypeException).
  { unfold Inflate.Decode.
    rewrite Decode_switch_ReadingFinalBit by reflexivity.
    assert (Hhalf : 0 <= b / 2 < 128)
      by (split; [apply Z.div_pos; lia | apply Z.div_lt_upper_bound; lia]).
    rewrite (Inflate_GetBits_eq 1 _ (b mod 2 ^ 1)
               (InputBuffer.mk (b / 2 ^ 1) (8 - 1) (ArrayIterator rest)))
      by (apply first_bits; lia).
    cbn [mbind outcome_bind].
    rewrite (Inflate_GetBits_eq 2 _ ((b / 2 ^ 1) mod 2 ^ 2)
               (InputBuffer.mk (b / 2 ^ 1 / 2 ^ 2) (8 - 1 - 2) (ArrayIterator rest)))
      by (apply GetBits_when_buffered; change (2 ^ 1) with 2; lia).
    cbn [mbind outcome_bind].
    change (2 ^ 1) with 2. change (2 ^ 2) with 4. rewrite Htype.
    cbn [Inflate.State_of_Z].
    rewrite Decode_switch_UnknownBlockType by reflexivity.
    reflexivity. }
  cbn [Inflate.next].
  change (0 <? Inflate._lengthDecompressed e) with false.
  change (0 <? Inflate._lengthUncompressed e) with false.
  cbn match.
  change (Inflate.is_Done (Inflate._state _)) with false.
  cbn match.
  rewrite Hdecode. reflexivity.
Qed.

Lemma reserved_block_type_is_refused_witness :
  Inflate.next 1 (Inflate.new (ArrayIterator (0x07 :: [0x00])) None) =
  Throw Inflate.UnknownBlockTypeException.
Proof.
  apply (reserved_block_type_is_refused 0x07 [0x00] None 0); [lia | reflexivity].
Defined.

(** ** inflate.ts: the private method adler32 *)

Lemma adler32_rest_app (n m : nat) : forall (index : Z) (e : Inflate.t),
  Inflate.adler32_rest (n + m) index e =
  (e1 ← Inflate.adler32_rest n index e;
   Inflate.adler32_rest m (index + Z.of_nat n) e1).
Proof.
  induction n as [|n IH]; intros index e.
  - cbn. rewrite Z.add_0_r. reflexivity.
  - cbn [Nat.add Inflate.adler32_rest].
    destruct (Inflate.adler32_byte index e) as [e1| | |]; cbn [mbind outcome_bind];
      try reflexivity.
    rewrite IH. do 2 f_equal. lia.
Qed.

Lemma adler32_sixteen_rest (index : Z) (e : Inflate.t) :
  Inflate.adler32_sixteen index e = Inflate.adler32_rest 16 index e.
Proof.
  unfold Inflate.adler32_sixteen. cbn [Inflate.adler32_rest].
  repeat (match goal with
          | |- (Inflate.adler32_byte ?i ?x ≫= _) = (Inflate.adler32_byte ?j ?x ≫= _) =>
              try (replace j with i by lia);
              destruct (Inflate.adler32_byte i x) as [?e| | |];
              cbn [mbind outcome_bind]; try reflexivity
          end).
  match goal with
  | |- Inflate.adler32_byte ?i ?x = (Inflate.adler32_byte ?j ?x ≫= _) =>
      replace j with i by lia; destruct (Inflate.adler32_byte i x); reflexivity
  end.
Qed.

Lemma adler32_rest_sums (n : nat) : forall (index : Z) (e : Inflate.t),
  (forall i, 0 <= i < Z.of_nat n -> is_Some (Inflate._window e !! (index + i))) ->
  exists e',
    Inflate.adler32_rest n index e = Ok e' /\
    Inflate._window e' = Inflate._window e /\
    (Inflate.s1 e', Inflate.s2 e') =
      foldl (fun ab x => (fst ab + x, snd ab + (fst ab + x)))
            (Inflate.s1 e, Inflate.s2 e) (window_slice (Inflate._window e) index n).
Proof.
  induction n as [|n IH]; intros index e Hwindow.
  - exists e. cbn. auto.
  - cbn [Inflate.adler32_rest window_slice]. unfold Inflate.adler32_byte.
    destruct (Hwindow 0 ltac:(lia)) as [b Hb]. rewrite Z.add_0_r in Hb.
    rewrite Hb. cbn [defined mbind outcome_bind default].
    destruct (IH (index + 1) (Inflate.adler_add b e)) as (e' & Hrun & Hw & Hsums).
    { intros i Hi. cbn.
      replace (index + 1 + i) with (index + (i + 1)) by lia. apply Hwindow. lia. }
    exists e'. split; [exact Hrun|]. split; [exact Hw|].
    rewrite Hsums. reflexivity.
Qed.

Lemma adler32_unrolled (fuel : nat) : forall (index len : Z) (e : Inflate.t),
  0 <= len -> len / 16 < Z.of_nat fuel ->
  Inflate.adler32 fuel index len e = Inflate.adler32_rest (Z.to_nat len) index e.
Proof.
  induction fuel as [|fuel IH]; intros index len e Hlen Hfuel.
  - assert (0 <= len / 16) by (apply Z.div_pos; lia). lia.
  - cbn [Inflate.adler32].
    destruct (Z.ltb_spec 0 len) as [Hpos|Hzero].
    + destruct (Z.leb_spec 16 len) as [Hbig|Hsmall]; [|reflexivity].
      replace (Z.to_nat len) with (16 + Z.to_nat (len - 16))%nat by lia.
      rewrite adler32_rest_app, adler32_sixteen_rest.
      destruct (Inflate.adler32_rest 16 index e) as [e1| | |]; cbn [mbind outcome_bind];
        try reflexivity.
      apply IH; [lia|].
      replace len with (len - 16 + 1 * 16) in Hfuel by lia.
      rewrite Z.div_add in Hfuel by lia. lia.
    + replace len with 0 by lia. reflexivity.
Qed.

(** The unrolled branch of the private method adler32 is an optimisation
    only.  When the window holds the [len] bytes from [index] on, the
    method returns what its inner loop returns alone, one byte at a time:
    the window is as it was and the two sums have grown by those bytes,
    without a reduction modulo 65521.  One turn of the outer loop per
    sixteen bytes, plus one, is enough. *)
Theorem adler32_unrolling_is_bytewise (fuel : nat) (index len : Z) (e : Inflate.t) :
  0 <= len -> len / 16 < Z.of_nat fuel ->
  (forall i, 0 <= i < len -> is_Some (Inflate._window e !! (index + i))) ->
  exists e',
    Inflate.adler32 fuel index len e = Ok e' /\
    Inflate.adler32_rest (Z.to_nat len) index e = Ok e' /\
    Inflate._window e' = Inflate._window e /\
    (Inflate.s1 e', Inflate.s2 e') =
      foldl (fun ab x => (fst ab + x, snd ab + (fst ab + x)))
            (Inflate.s1 e, Inflate.s2 e)
            (window_slice (Inflate._window e) index (Z.to_nat len)).
Proof.
  intros Hlen Hfuel Hwindow.
  destruct (adler32_rest_sums (Z.to_nat len) index e) as (e' & Hrun & Hw & Hsums).
  { intros i Hi. apply Hwindow. lia. }
  exists e'. rewrite adler32_unrolled by assumption. auto.
Qed.

Lemma adler32_unrolling_is_bytewise_witness :
  exists e',
    Inflate.adler32 3 0 33 filled_window = Ok e' /\
    Inflate.adler32_rest (Z.to_nat 33) 0 filled_window = Ok e' /\
    Inflate._window e' = Inflate._window filled_window /\
    (Inflate.s1 e', Inflate.s2 e') =
      foldl (fun ab x => (fst ab + x, snd ab + (fst ab + x)))
            (Inflate.s1 filled_window, Inflate.s2 filled_window)
            (window_slice (Inflate._window filled_window) 0 (Z.to_nat 33)).
Proof.
  apply (adler32_unrolling_is_bytewise 3 0 33 filled_window).
  - lia.
  - vm_compute. reflexivity.
  - intros i Hi.
    assert (Hall : forallb (fun i => match Inflate._window filled_window !! (0 + i) with
                                     | Some _ => true
                                     | None => false
                                     end) (seqZ 0 33) = true).
    { vm_compute. reflexivity. }
    rewrite forallb_forall in Hall.
    specialize (Hall i).
    destruct (Inflate._window filled_window !! (0 + i)) as [b|]; [exists b; reflexivity|].
    assert (Hin : In i (seqZ 0 33)).
    { apply list_elem_of_In, elem_of_seqZ. lia. }
    specialize (Hall Hin). discriminate Hall.
Defined.

(** ** inflate.ts: the bytes of a stored block *)

(** While [_lengthUncompressed] is positive and nothing is pending,
    [next] hands out the producer's bytes as they are, taken from the
    iterator itself and not through the bit register, and adds them to
    the two sums like written bytes. *)
Theorem stored_bytes_pass_through (bs : list Z) : forall (rest : list Z) (e : Inflate.t),
  Inflate._lengthDecompressed e <= 0 ->
  Z.of_nat (length bs) <= Inflate._lengthUncompressed e ->
  InputBuffer._iterator (Inflate._input e) = ArrayIterator (bs ++ rest) ->
  exists e',
    pulls (length bs) e = Ok ((fun b => Inflate.Value (Some b)) <$> bs, e') /\
    InputBuffer._iterator (Inflate._input e') = ArrayIterator rest /\
    InputBuffer._bitBuffer (Inflate._input e') = InputBuffer._bitBuffer (Inflate._input e) /\
    InputBuffer._bitsInBuffer (Inflate._input e') =
      InputBuffer._bitsInBuffer (Inflate._input e) /\
    Inflate._lengthUncompressed e' = Inflate._lengthUncompressed e - Z.of_nat (length bs) /\
    (Inflate.s1 e', Inflate.s2 e') =
      foldl (fun ab x => (fst ab + x, snd ab + (fst ab + x)))
            (Inflate.s1 e, Inflate.s2 e) bs.
Proof.
  induction bs as [|b bs IH]; intros rest e Hld Hlu Hit.
  - exists e. cbn. rewrite Z.sub_0_r, app_nil_l in *. repeat split; auto.
  - cbn [length] in Hlu. cbn [pulls length Inflate.next].
    destruct (Z.ltb_spec 0 (Inflate._lengthDecompressed e)) as [Hno|_]; [lia|].
    destruct (Z.ltb_spec 0 (Inflate._lengthUncompressed e)) as [_|Hno]; [|lia].
    rewrite Hit. cbn [app iterator_next mbind outcome_bind].
    set (e1 := Inflate.adler_add b _).
    destruct (IH rest e1) as (e' & -> & Hit' & Hbb & Hcnt & Hlu' & Hsums).
    { exact Hld. }
    { subst e1. cbn. lia. }
    { reflexivity. }
    cbn [mbind outcome_bind].
    exists e'. split; [reflexivity|].
    split; [exact Hit'|]. split; [exact Hbb|]. split; [exact Hcnt|].
    split; [rewrite Hlu'; subst e1; cbn; lia|].
    rewrite Hsums. reflexivity.
Qed.

Lemma stored_bytes_pass_through_witness :
  exists e',
    pulls (length [0x61; 0x62])
          (Inflate.set_lengthUncompressed 2 (Inflate.new (ArrayIterator [0x61; 0x62; 0x63]) None))
    = Ok ((fun b => Inflate.Value (Some b)) <$> [0x61; 0x62], e') /\
    InputBuffer._iterator (Inflate._input e') = ArrayIterator [0x63] /\
    InputBuffer._bitBuffer (Inflate._input e') = 0 /\
    InputBuffer._bitsInBuffer (Inflate._input e') = 0 /\
    Inflate._lengthUncompressed e' = 2 - Z.of_nat (length [0x61; 0x62]) /\
    (Inflate.s1 e', Inflate.s2 e') =
      foldl (fun ab x => (fst ab + x, snd ab + (fst ab + x))) (1, 0) [0x61; 0x62].
Proof.
  apply (stored_bytes_pass_through [0x61; 0x62] [0x63]
           (Inflate.set_lengthUncompressed 2
              (Inflate.new (ArrayIterator [0x61; 0x62; 0x63]) None))).
  - cbn. lia.
  - cbn. lia.
  - reflexivity.
Defined.


Lemma read_code_length_lengths_small (n : nat) :
  forall (loopCounter : Z) (cl : list Z) (e : Inflate.t),
  over_array e -> 0 <= loopCounter -> loopCounter + Z.of_nat n <= 19 ->
  exists cl' e',
    Inflate.read_code_length_lengths n loopCounter cl e = Ok (cl', e') /\
    over_array e' /\ length cl' = length cl /\
    (Forall (fun x => 0 <= x <= 7) cl -> Forall (fun x => 0 <= x <= 7) cl').
Proof.
  induction n as [|n IH]; intros loopCounter cl e Harr Hlc Hn.
  - exists cl, e. cbn. auto.
  - cbn [Inflate.read_code_length_lengths].
    destruct (Inflate_GetBits_array 3 e Harr ltac:(lia)) as (bits & e1 & -> & Hbits & Harr1).
    cbn [mbind outcome_bind].
    destruct (Js.get Inflate.s_codeOrder loopCounter) as [position|] eqn:Hpos.
    + cbn [defined mbind outcome_bind].
      destruct (IH (loopCounter + 1) (<[Z.to_nat position := bits]> cl) e1 Harr1)
        as (cl' & e' & -> & Harr' & Hlen & Hsmall); [lia | lia |].
      exists cl', e'. split; [reflexivity|]. split; [exact Harr'|].
      split; [rewrite Hlen; apply length_insert|].
      intros Hcl. apply Hsmall. apply Forall_insert; [exact Hcl|].
      change (2 ^ 3) with 8 in Hbits. lia.
    + exfalso. unfold Js.get in Hpos.
      destruct (Z.ltb_spec loopCounter 0); [lia|].
      apply lookup_ge_None in Hpos. cbn in Hpos. lia.
Qed.

Lemma clear_code_length_lengths_small (count : Z) (cl : list Z) :
  length (Inflate.clear_code_length_lengths count cl) = length cl /\
  (Forall (fun x => 0 <= x <= 7) cl ->
   Forall (fun x => 0 <= x <= 7) (Inflate.clear_code_length_lengths count cl)).
Proof.
  unfold Inflate.clear_code_length_lengths.
  generalize (seqZ count (Z.of_nat (length Inflate.s_codeOrder) - count)).
  intros l. revert cl. induction l as [|i l IH]; intros cl; cbn [foldl].
  - auto.
  - destruct (IH (<[Z.to_nat (default 0 (Js.get Inflate.s_codeOrder i)) := 0]> cl))
      as (Hlen & Hsmall).
    split; [rewrite Hlen; apply length_insert|].
    intros Hcl. apply Hsmall. apply Forall_insert; [exact Hcl | lia].
Qed.

(** The table of the code length code is always built: over an iterator
    of numbers the two loops that fill [_codeLengthTreeCodeLength] leave
    19 lengths of at most 7, which all fit the direct table, so the
    constructor can not refuse them, however many symbols share a
    length. *)
Theorem code_length_table_is_always_built (codeLengthCodeCount : Z) (e : Inflate.t) :
  over_array e -> 0 <= codeLengthCodeCount <= 19 ->
  exists codeLengthTreeCodeLength e' codeLengthTree,
    Inflate.read_code_length_lengths (Z.to_nat codeLengthCodeCount) 0
      (replicate (Z.to_nat HuffmanTree.NumberOfCodeLengthTreeElements) 0) e
    = Ok (codeLengthTreeCodeLength, e') /\
    over_array e' /\
    HuffmanTree.new
      (Inflate.clear_code_length_lengths codeLengthCodeCount codeLengthTreeCodeLength)
    = Ok codeLengthTree /\
    length (HuffmanTree._codeLengthArray codeLengthTree) = 19%nat.
Proof.
  intros Harr Hc.
  destruct (read_code_length_lengths_small (Z.to_nat codeLengthCodeCount) 0
              (replicate (Z.to_nat HuffmanTree.NumberOfCodeLengthTreeElements) 0) e Harr)
    as (cl & e' & Hrun & Harr' & Hlen & Hsmall); [lia | lia |].
  destruct (clear_code_length_lengths_small codeLengthCodeCount cl) as (Hlen' & Hsmall').
  rewrite length_replicate in Hlen.
  change (Z.to_nat HuffmanTree.NumberOfCodeLengthTreeElements) with 19%nat in Hlen.
  destruct (new_accepts_short_lengths
              (Inflate.clear_code_length_lengths codeLengthCodeCount cl))
    as (tree & Htree).
  { rewrite Hlen', Hlen. lia. }
  { rewrite Hlen', Hlen. cbn. apply Hsmall', Hsmall, Forall_replicate. lia. }
  exists cl, e', tree. split; [exact Hrun|]. split; [exact Harr'|].
  split; [exact Htree|].
  destruct (new_fields _ _ Htree) as (-> & _). rewrite Hlen', Hlen. reflexivity.
Qed.

Lemma code_length_table_is_always_built_witness :
  exists codeLengthTreeCodeLength e' codeLengthTree,
    Inflate.read_code_length_lengths (Z.to_nat 4) 0
      (replicate (Z.to_nat HuffmanTree.NumberOfCodeLengthTreeElements) 0)
      (Inflate.new (ArrayIterator [0xff; 0xff]) None)
    = Ok (codeLengthTreeCodeLength, e') /\
    over_array e' /\
    HuffmanTree.new (Inflate.clear_code_length_lengths 4 codeLengthTreeCodeLength)
    = Ok codeLengthTree /\
    length (HuffmanTree._codeLengthArray codeLengthTree) = 19%nat.
Proof.
  apply (code_length_table_is_always_built 4 (Inflate.new (ArrayIterator [0xff; 0xff]) None)).
  - eexists. reflexivity.
  - lia.
Defined.

Lemma static_distance_table_reverses (bits : Z) :
  0 <= bits < 32 ->
  Js.get Inflate.s_staticDistanceTreeTable bits = Some (HuffmanTree.BitReverse bits 5).
Proof.
  intros Hb.
  pose (f := fun i =>
    match Js.get Inflate.s_staticDistanceTreeTable i with
    | Some v => v =? HuffmanTree.BitReverse i 5
    | None => false
    end).
  assert (H : f bits = true).
  { apply (seqZ_forallb f 0 32); [vm_compute; reflexivity | lia]. }
  unfold f in H.
  destruct (Js.get Inflate.s_staticDistanceTreeTable bits) as [v|]; [|discriminate].
  apply Z.eqb_eq in H. congruence.
Qed.

(** In a static block the distance code is read as five plain bits and
    looked up in [s_staticDistanceTreeTable], which holds what BitReverse
    gives for five bits: the code is the mirror image of the bits read. *)
Theorem static_distance_code_is_mirrored (e : Inflate.t) :
  over_array e -> Inflate._isDynamic e = false ->
  exists bits e',
    Inflate.GetBits 5 e = Ok (bits, e') /\ 0 <= bits < 32 /\
    Inflate.DecodeDistanceCode e = Ok (HuffmanTree.BitReverse bits 5, e').
Proof.
  intros Harr Hstatic. unfold Inflate.DecodeDistanceCode. rewrite Hstatic.
  destruct (Inflate_GetBits_array 5 e Harr ltac:(lia)) as (bits & e' & -> & Hbits & _).
  change (2 ^ 5) with 32 in Hbits.
  exists bits, e'. split; [reflexivity|]. split; [exact Hbits|].
  cbn [mbind outcome_bind].
  destruct (Z.leb_spec 0 bits) as [_|Hneg]; [|lia].
  rewrite (static_distance_table_reverses bits Hbits). reflexivity.
Qed.

Lemma static_distance_code_is_mirrored_witness :
  exists bits e',
    Inflate.GetBits 5 (Inflate.new (ArrayIterator [0x0f]) None) = Ok (bits, e') /\
    0 <= bits < 32 /\
    Inflate.DecodeDistanceCode (Inflate.new (ArrayIterator [0x0f]) None)
    = Ok (HuffmanTree.BitReverse bits 5, e').
Proof.
  apply (static_distance_code_is_mirrored (Inflate.new (ArrayIterator [0x0f]) None)).
  - eexists. reflexivity.
  - reflexivity.
Defined.

(** ** huffman-trees.ts: every table that the constructor returns *)

Lemma new_shape (codeLengths : list Z) (tree : HuffmanTree.t) :
  HuffmanTree.new codeLengths = Ok tree ->
  HuffmanTree._codeLengthArray tree = codeLengths /\
  HuffmanTree._maxCodeLength tree = Z.max 0 (Z.of_nat (length codeLengths) - 1) /\
  (if Z.of_nat (length codeLengths) =? 288
   then HuffmanTree._tableBits tree = 9 /\ HuffmanTree._tableMask tree = 511 /\
        length (HuffmanTree._table tree) = 512%nat
   else HuffmanTree._tableBits tree = 7 /\ HuffmanTree._tableMask tree = 127 /\
        length (HuffmanTree._table tree) = 128%nat) /\
  length (HuffmanTree._left tree) = (2 * length codeLengths)%nat /\
  length (HuffmanTree._right tree) = (2 * length codeLengths)%nat /\
  bytes (HuffmanTree._table tree) /\
  bytes (HuffmanTree._left tree) /\
  bytes (HuffmanTree._right tree).
Proof.
  intros Hnew.
  destruct (constructed_tables_hold_bytes _ _ Hnew) as (Hbt & Hbl & Hbr).
  unfold HuffmanTree.new, HuffmanTree.CreateTable in Hnew.
  unfold HuffmanTree.MaxLiteralTreeElements in Hnew.
  destruct (Z.of_nat (length codeLengths) =? 288).
  all: match type of Hnew with
       | context [HuffmanTree.insert_symbols ?b ?c ?d ?k ?a] =>
           destruct (HuffmanTree.insert_symbols b c d k a) as [a'| | |] eqn:Hi;
           cbn in Hnew; try discriminate;
           apply same_lengths_insert_symbols in Hi;
           destruct Hi as (Ht & Hl & Hr); cbn in Ht, Hl, Hr;
           rewrite length_new_u8 in Ht, Hl, Hr
       end.
  all: injection Hnew as <-; cbn.
  all: split; [reflexivity|].
  all: split; [apply foldl_max_keys|].
  all: repeat split; try assumption; try lia.
  all: rewrite Ht; reflexivity.
Qed.

(** What the constructor does, whatever the code lengths: it returns a
    table or throws "InvalidHuffmanData", also where a code needs more
    nodes than [_left] and [_right] have elements (the reads outside
    give [undefined] and nothing more is written).  A table it returns
    keeps the given code lengths; its [_maxCodeLength] is the largest
    index of the vector and not a code length; the direct table has 512
    entries for a vector of 288 lengths and 128 otherwise; the two child
    arrays have twice as many entries as there are lengths; all entries
    are bytes. *)
Theorem constructed_table_shape (codeLengths : list Z) :
  match HuffmanTree.new codeLengths with
  | Ok tree =>
      HuffmanTree._codeLengthArray tree = codeLengths /\
      HuffmanTree._maxCodeLength tree = Z.max 0 (Z.of_nat (length codeLengths) - 1) /\
      (if Z.of_nat (length codeLengths) =? 288
       then HuffmanTree._tableBits tree = 9 /\ HuffmanTree._tableMask tree = 511 /\
            length (HuffmanTree._table tree) = 512%nat
       else HuffmanTree._tableBits tree = 7 /\ HuffmanTree._tableMask tree = 127 /\
            length (HuffmanTree._table tree) = 128%nat) /\
      length (HuffmanTree._left tree) = (2 * length codeLengths)%nat /\
      length (HuffmanTree._right tree) = (2 * length codeLengths)%nat /\
      bytes (HuffmanTree._table tree) /\
      bytes (HuffmanTree._left tree) /\
      bytes (HuffmanTree._right tree)
  | Throw x => x = HuffmanTree.InvalidHuffmanData
  | Stuck | OutOfFuel => False
  end.
Proof.
  pose proof (new_total codeLengths) as Htotal.
  pose proof (new_shape codeLengths) as Hshape.
  destruct (HuffmanTree.new codeLengths) as [tree| | |];
    [apply Hshape; reflexivity | exact Htotal | exact Htotal | exact Htotal].
Qed.

Lemma constructed_table_shape_witness :
  exists tree,
    HuffmanTree.new deep_code_lengths = Ok tree /\
    HuffmanTree._codeLengthArray tree = deep_code_lengths /\
    HuffmanTree._maxCodeLength tree = Z.max 0 (Z.of_nat (length deep_code_lengths) - 1) /\
    (if Z.of_nat (length deep_code_lengths) =? 288
     then HuffmanTree._tableBits tree = 9 /\ HuffmanTree._tableMask tree = 511 /\
          length (HuffmanTree._table tree) = 512%nat
     else HuffmanTree._tableBits tree = 7 /\ HuffmanTree._tableMask tree = 127 /\
          length (HuffmanTree._table tree) = 128%nat) /\
    length (HuffmanTree._left tree) = (2 * length deep_code_lengths)%nat /\
    length (HuffmanTree._right tree) = (2 * length deep_code_lengths)%nat /\
    bytes (HuffmanTree._table tree) /\
    bytes (HuffmanTree._left tree) /\
    bytes (HuffmanTree._right tree).
Proof.
  pose proof (constructed_table_shape deep_code_lengths) as H.
  destruct (HuffmanTree.new deep_code_lengths) as [tree| | |] eqn:Hnew.
  - exists tree. split; [reflexivity | exact H].
  - vm_compute in Hnew. discriminate.
  - destruct H.
  - destruct H.
Defined.

(** ** huffman-trees.ts: GetNextSymbol on a table whose entries all have
    a code length *)

Lemma insert_symbols_short_symbols (tableBits n : Z) (cl code chs : list Z) :
  forall a : HuffmanTree.arrays,
  0 <= tableBits <= 16 ->
  Z.of_nat (length (HuffmanTree.a_table a)) = 2 ^ tableBits ->
  Forall (fun ch => (exists len, Js.get cl ch = Some len /\ 0 <= len <= tableBits) /\
                    code_fits cl code ch /\ 0 <= ch mod 256 < n) chs ->
  Forall (fun s => 0 <= s < n) (HuffmanTree.a_table a) ->
  forall a', HuffmanTree.insert_symbols tableBits cl code chs a = Ok a' ->
  Forall (fun s => 0 <= s < n) (HuffmanTree.a_table a').
Proof.
  induction chs as [|ch chs IH]; intros a Htb Hsize Hall Hinv a' Hrun; cbn in Hrun.
  - injection Hrun as <-. exact Hinv.
  - inversion Hall as [|? ? [(len & Hget & Hlen) [Hfit Hch]] Hrest]; subst.
    destruct (HuffmanTree.insert_symbol tableBits cl code a ch) as [a1| | |] eqn:Hins;
      cbn in Hrun; try discriminate.
    assert (Hl1 : length (HuffmanTree.a_table a1) = length (HuffmanTree.a_table a)).
    { assert (Hs : HuffmanTree.insert_symbols tableBits cl code [ch] a = Ok a1)
        by (cbn; rewrite Hins; reflexivity).
      apply same_lengths_insert_symbols in Hs. apply Hs. }
    apply (IH a1 Htb); [rewrite Hl1; exact Hsize | exact Hrest | | exact Hrun].
    destruct (Z.eq_dec len 0) as [-> | Hnz].
    + unfold HuffmanTree.insert_symbol in Hins. rewrite Hget in Hins. cbn in Hins.
      injection Hins as <-. exact Hinv.
    + destruct (Hfit len Hget ltac:(lia)) as (start & Hcode & Hstart).
      destruct (insert_symbol_short tableBits len start ch cl code a
                  Hget Hcode ltac:(lia) ltac:(lia) Hstart Hsize)
        as (a1' & Hins' & _ & _ & _ & Hentries).
      rewrite Hins in Hins'. injection Hins' as <-.
      apply Forall_lookup. intros i x Hi.
      assert (Hrange : 0 <= Z.of_nat i < 2 ^ tableBits).
      { apply lookup_lt_Some in Hi. lia. }
      specialize (Hentries (Z.of_nat i) Hrange).
      unfold Js.get in Hentries.
      destruct (Z.ltb_spec (Z.of_nat i) 0); [lia|].
      rewrite Nat2Z.id, Hi in Hentries.
      destruct (_ =? start).
      * injection Hentries as ->. exact Hch.
      * rewrite Forall_lookup in Hinv. symmetry in Hentries. exact (Hinv i x Hentries).
Qed.

Lemma short_table_symbols (codeLengths : list Z) (tree : HuffmanTree.t) :
  HuffmanTree.new codeLengths = Ok tree ->
  codeLengths <> [] -> Z.of_nat (length codeLengths) < 256 ->
  Forall (fun len => 0 <= len <= 7) codeLengths ->
  Forall (fun s => 0 <= s < Z.of_nat (length codeLengths)) (HuffmanTree._table tree).
Proof.
  intros Hnew Hne Hlen Hall.
  destruct (CalculateHuffmanCode_fits codeLengths ltac:(lia)) as (_ & Hfits).
  unfold HuffmanTree.new, HuffmanTree.CreateTable, HuffmanTree.MaxLiteralTreeElements in Hnew.
  destruct (Z.eqb_spec (Z.of_nat (length codeLengths)) 288) as [Heq|_]; [lia|].
  match type of Hnew with
  | context [HuffmanTree.insert_symbols ?b ?c ?d ?k ?a] =>
      destruct (HuffmanTree.insert_symbols b c d k a) as [a'| | |] eqn:Hi;
      cbn in Hnew; try discriminate;
      injection Hnew as <-; cbn;
      apply (insert_symbols_short_symbols b (Z.of_nat (length codeLengths)) c d k a);
      [lia | reflexivity | | | exact Hi]
  end.
  - rewrite keys_seqZ. apply Forall_forall. intros ch Hch.
    apply elem_of_seqZ in Hch.
    split; [|split; [apply Hfits; lia | rewrite Z.mod_small; lia]].
    unfold Js.get. destruct (Z.ltb_spec ch 0); [lia|].
    destruct (codeLengths !! Z.to_nat ch) as [len|] eqn:Hget;
      [| apply lookup_ge_None in Hget; lia].
    exists len. split; [reflexivity|].
    rewrite Forall_lookup in Hall. exact (Hall _ _ Hget).
  - cbn. unfold Js.new_u8. apply Forall_replicate.
    destruct codeLengths; [congruence | cbn; lia].
Qed.

Lemma fill_not_Stuck (count : Z) (ib : InputBuffer.t) :
  InputBuffer.fill count ib <> Stuck.
Proof.
  unfold InputBuffer.fill, InputBuffer.load.
  destruct (InputBuffer._bitsInBuffer ib <? count); cbn; [|discriminate].
  destruct (InputBuffer._iterator ib) as [[|b rest]|target]; cbn; try discriminate.
  destruct (InputBuffer._bitsInBuffer ib + 8 <? count); cbn; [|discriminate].
  destruct rest; cbn; discriminate.
Qed.

Lemma table_entry_defined (codeLengths : list Z) (tree : HuffmanTree.t) (bitBuffer : Z) :
  HuffmanTree.new codeLengths = Ok tree ->
  is_Some (Js.get (HuffmanTree._table tree)
                  (Js.and bitBuffer (HuffmanTree._tableMask tree))).
Proof.
  intros Hnew.
  destruct (new_shape _ _ Hnew) as (_ & _ & Hsize & _).
  assert (H : exists n, 0 <= n <= 31 /\ HuffmanTree._tableMask tree = Js.shl 1 n - 1 /\
                        Z.of_nat (length (HuffmanTree._table tree)) = 2 ^ n).
  { destruct (_ =? 288); destruct Hsize as (_ & -> & Hl); rewrite Hl;
      [exists 9 | exists 7]; repeat split; lia. }
  destruct H as (n & Hn & -> & Hl).
  rewrite and_mask by lia.
  pose proof (Z.mod_pos_bound bitBuffer (2 ^ n) ltac:(lia)) as Hm.
  unfold Js.get. destruct (Z.ltb_spec (bitBuffer mod 2 ^ n) 0); [lia|].
  apply lookup_lt_is_Some. lia.
Qed.

Lemma symbol_has_length (codeLengths : list Z) (tree : HuffmanTree.t) (index symbol : Z) :
  HuffmanTree.new codeLengths = Ok tree ->
  256 <= Z.of_nat (length codeLengths) \/
    (codeLengths <> [] /\ Forall (fun len => 0 <= len <= 7) codeLengths) ->
  Js.get (HuffmanTree._table tree) index = Some symbol ->
  0 <= symbol < 256 /\ is_Some (Js.get codeLengths symbol).
Proof.
  intros Hnew Hcases Hget.
  destruct (constructed_tables_hold_bytes _ _ Hnew) as (Hbytes & _).
  pose proof (bytes_get _ _ _ Hbytes Hget) as Hbyte.
  split; [exact Hbyte|].
  assert (Hlt : symbol < Z.of_nat (length codeLengths)).
  { destruct (Z_lt_le_dec (Z.of_nat (length codeLengths)) 256) as [Hsmall|Hbig]; [|lia].
    destruct Hcases as [Hbig | [Hne Hall]]; [lia|].
    pose proof (short_table_symbols _ _ Hnew Hne Hsmall Hall) as Hsym.
    unfold Js.get in Hget. destruct (index <? 0); [discriminate|].
    rewrite Forall_lookup in Hsym. apply (Hsym _ _ Hget). }
  unfold Js.get. destruct (Z.ltb_spec symbol 0); [lia|].
  apply lookup_lt_is_Some. lia.
Qed.

(** GetNextSymbol over an iterator of numbers, on a table whose entries
    all have a code length (one built from at least 256 code lengths, or
    from lengths of at most 7): it returns or throws
    "EndOfStreamException()", and never takes the branch [symbol < 0].
    When it returns, the symbol is below 256, at most two bytes were
    taken from the iterator (those that TryGetBits(_maxCodeLength)
    loads), and the bit count has gone up by eight per byte and down by
    the code length of the symbol; it is not negative. *)
Theorem GetNextSymbol_spends_the_code_length
    (codeLengths : list Z) (tree : HuffmanTree.t)
    (bitBuffer bitsInBuffer : Z) (rest : list Z) :
  HuffmanTree.new codeLengths = Ok tree ->
  256 <= Z.of_nat (length codeLengths) \/
    (codeLengths <> [] /\ Forall (fun len => 0 <= len <= 7) codeLengths) ->
  let k := taken (HuffmanTree._maxCodeLength tree) bitsInBuffer rest in
  match HuffmanTree.GetNextSymbol tree
          (InputBuffer.mk bitBuffer bitsInBuffer (ArrayIterator rest)) with
  | Ok (symbol, input') =>
      0 <= symbol < 256 /\
      exists codeLength,
        Js.get codeLengths symbol = Some codeLength /\
        InputBuffer._bitsInBuffer input' = bitsInBuffer + 8 * Z.of_nat k - codeLength /\
        0 <= InputBuffer._bitsInBuffer input' /\
        InputBuffer._iterator input' = ArrayIterator (drop k rest)
  | Throw x => x = HuffmanTree.EndOfStreamException
  | Stuck | OutOfFuel => False
  end.
Proof.
  intros Hnew Hcases k.
  destruct (new_fields _ _ Hnew) as (Hcl & _).
  destruct (GetNextSymbol_never_walks codeLengths tree
              (InputBuffer.mk bitBuffer bitsInBuffer (ArrayIterator rest)) Hnew)
    as [Heq _].
  rewrite Heq. clear Heq.
  unfold HuffmanTree.consult, InputBuffer.TryGetBits in *.
  destruct (fill_array (HuffmanTree._maxCodeLength tree) bitBuffer bitsInBuffer rest)
    as [bb' Hfill].
  rewrite Hfill. cbn [mbind outcome_bind InputBuffer._bitBuffer].
  destruct (table_entry_defined codeLengths tree bb' Hnew) as [symbol Hsym].
  rewrite Hsym. cbn [defined mbind outcome_bind].
  destruct (symbol_has_length _ _ _ _ Hnew Hcases Hsym) as (Hbyte & codeLength & Hlen).
  rewrite Hcl, Hlen. cbn [defined mbind outcome_bind].
  unfold InputBuffer.AvailableBits. cbn.
  match goal with |- context [?a <? ?b] => destruct (Z.ltb_spec a b) end.
  - reflexivity.
  - cbn. split; [exact Hbyte|]. exists codeLength.
    split; [exact Hlen|]. subst k. split; [reflexivity|]. split; [lia|].
    reflexivity.
Qed.

Lemma GetNextSymbol_spends_the_code_length_witness :
  let k := taken (HuffmanTree._maxCodeLength static_literal_tree) 5 [0x04; 0x00] in
  match HuffmanTree.GetNextSymbol static_literal_tree
          (InputBuffer.mk 0x09 5 (ArrayIterator [0x04; 0x00])) with
  | Ok (symbol, input') =>
      0 <= symbol < 256 /\
      exists codeLength,
        Js.get HuffmanTree.GetStaticLiteralTreeLength symbol = Some codeLength /\
        InputBuffer._bitsInBuffer input' = 5 + 8 * Z.of_nat k - codeLength /\
        0 <= InputBuffer._bitsInBuffer input' /\
        InputBuffer._iterator input' = ArrayIterator (drop k [0x04; 0x00])
  | _ => False
  end.
Proof.
  intros k.
  assert (Hnew : HuffmanTree.new HuffmanTree.GetStaticLiteralTreeLength =
                 Ok static_literal_tree).
  { vm_compute. reflexivity. }
  assert (Hwide : 256 <= Z.of_nat (length HuffmanTree.GetStaticLiteralTreeLength) \/
                  (HuffmanTree.GetStaticLiteralTreeLength <> [] /\
                   Forall (fun len => 0 <= len <= 7) HuffmanTree.GetStaticLiteralTreeLength)).
  { left. vm_compute. discriminate. }
  pose proof (GetNextSymbol_spends_the_code_length HuffmanTree.GetStaticLiteralTreeLength
                static_literal_tree 0x09 5 [0x04; 0x00] Hnew Hwide) as H.
  cbv zeta in H. fold k in H.
  assert (Hrun : match HuffmanTree.GetNextSymbol static_literal_tree
                         (InputBuffer.mk 0x09 5 (ArrayIterator [0x04; 0x00])) with
                 | Ok _ => True
                 | _ => False
                 end).
  { vm_compute. exact I. }
  destruct (HuffmanTree.GetNextSymbol static_literal_tree
              (InputBuffer.mk 0x09 5 (ArrayIterator [0x04; 0x00])))
    as [[symbol input']| | |].
  - exact H.
  - exact Hrun.
  - exact Hrun.
  - exact Hrun.
Defined.

(** ** inflate.ts: what a pull ends in *)

Lemma Inflate_GetBits_not_Stuck (n : Z) (e : Inflate.t) :
  Inflate.GetBits n e <> Stuck.
Proof.
  unfold Inflate.GetBits, InputBuffer.GetBits.
  pose proof (fill_not_Stuck n (Inflate._input e)) as Hfill.
  destruct (InputBuffer.fill n (Inflate._input e)); cbn; congruence.
Qed.

Lemma fill_throws_only_TypeError (count : Z) (ib : InputBuffer.t) (x : exn) :
  InputBuffer.fill count ib = Throw x -> x = TypeError.
Proof.
  unfold InputBuffer.fill, InputBuffer.load.
  destruct (InputBuffer._bitsInBuffer ib <? count); cbn; [|discriminate].
  destruct (InputBuffer._iterator ib) as [[|b rest]|target]; cbn; try discriminate.
  - destruct (InputBuffer._bitsInBuffer ib + 8 <? count); cbn; [|discriminate].
    destruct rest; cbn; discriminate.
  - intros H. injection H as <-. reflexivity.
Qed.

Lemma Inflate_GetBits_throws (n : Z) (e : Inflate.t) (x : exn) :
  Inflate.GetBits n e = Throw x -> x <> Inflate.GenericInvalidData.
Proof.
  intros H. apply GetBits_throws_only_TypeError in H. subst x. discriminate.
Qed.

Lemma new_throws (codeLengths : list Z) (x : exn) :
  HuffmanTree.new codeLengths = Throw x -> x <> Inflate.GenericInvalidData.
Proof.
  intros H. pose proof (new_total codeLengths) as Ht. rewrite H in Ht.
  subst x. discriminate.
Qed.

Lemma decodable_wide (codeLengths : list Z) (tree : HuffmanTree.t) :
  HuffmanTree.new codeLengths = Ok tree ->
  256 <= Z.of_nat (length codeLengths) -> decodable tree.
Proof.
  intros Hnew Hlen. exists codeLengths. split; [exact Hnew | left; exact Hlen].
Qed.

Lemma GetNextSymbol_decodable (tree : HuffmanTree.t) (input : InputBuffer.t) :
  decodable tree ->
  match HuffmanTree.GetNextSymbol tree input with
  | Ok (symbol, _) => 0 <= symbol < 256
  | Throw x => x <> Inflate.GenericInvalidData
  | Stuck | OutOfFuel => False
  end.
Proof.
  intros (cl & Hnew & Hcases).
  destruct (new_fields _ _ Hnew) as (Hcl & _).
  destruct (GetNextSymbol_never_walks cl tree input Hnew) as [-> _].
  unfold HuffmanTree.consult, InputBuffer.TryGetBits.
  pose proof (fill_not_Stuck (HuffmanTree._maxCodeLength tree) input) as Hs.
  pose proof (fill_not_OutOfFuel (HuffmanTree._maxCodeLength tree) input) as Ho.
  destruct (InputBuffer.fill _ input) as [ib|x| |] eqn:Hfill; cbn [mbind outcome_bind];
    [| | congruence | congruence].
  2: { apply fill_throws_only_TypeError in Hfill. subst x. discriminate. }
  destruct (table_entry_defined cl tree (InputBuffer._bitBuffer ib) Hnew) as [symbol Hsym].
  rewrite Hsym. cbn [defined mbind outcome_bind].
  destruct (symbol_has_length _ _ _ _ Hnew Hcases Hsym) as (Hbyte & codeLength & Hlen).
  rewrite Hcl, Hlen. cbn [defined mbind outcome_bind].
  destruct (_ <? codeLength); [discriminate | exact Hbyte].
Qed.

(** A constructed literal/length table yields symbols below 256 only, so
    DecodeBlock never sees the end-of-block symbol nor a length code: it
    writes literals until the window is full up to its last 258 bytes. *)
Lemma DecodeBlock_loop_only_writes_literals (fuel : nat) (freeBytes : Z)
    (e : Inflate.t) (tree : HuffmanTree.t) :
  Inflate._literalLengthTree e = Some tree -> decodable tree ->
  freeBytes <= Z.of_nat fuel ->
  freeBytes = Inflate.WindowSize - Inflate._lengthDecompressed e ->
  match Inflate.DecodeBlock_loop fuel freeBytes e with
  | Ok (result, e') =>
      result = true /\
      Inflate._state e' = Inflate.DecodingBlock /\
      Inflate._end_of_block_code_seen e' = false /\
      Inflate._literalLengthTree e' = Some tree /\
      Inflate.WindowSize - Inflate._lengthDecompressed e' <= 258
  | Throw x => x <> Inflate.GenericInvalidData
  | Stuck | OutOfFuel => False
  end.
Proof.
  intros Htree Hd. revert freeBytes e Htree.
  induction fuel as [|fuel IH]; intros freeBytes e Htree Hfuel Hfree.
  - cbn. destruct (Z.ltb_spec 258 freeBytes); [lia|]. cbn. repeat split; auto; lia.
  - cbn [Inflate.DecodeBlock_loop].
    destruct (Z.ltb_spec 258 freeBytes); [|cbn; repeat split; auto; lia].
    rewrite Htree. unfold Inflate.GetNextSymbol.
    pose proof (GetNextSymbol_decodable tree (Inflate._input e) Hd) as Hs.
    destruct (HuffmanTree.GetNextSymbol tree (Inflate._input e))
      as [[smbl input]| | |]; cbn [mbind outcome_bind]; try exact Hs.
    destruct (Z.ltb_spec smbl 256); [|lia].
    apply IH; [exact Htree | lia | cbn; lia].
Qed.

Lemma DecodeBlock_decoded_some (e : Inflate.t) (tree : HuffmanTree.t) :
  Inflate._literalLengthTree e = Some tree -> decodable tree ->
  decoded_some (Inflate.DecodeBlock e).
Proof.
  intros Htree Hd. unfold Inflate.DecodeBlock.
  pose proof (DecodeBlock_loop_only_writes_literals
                (Z.to_nat (Inflate.WindowSize - Inflate._lengthDecompressed e))
                (Inflate.WindowSize - Inflate._lengthDecompressed e) e tree
                Htree Hd ltac:(lia) eq_refl) as H.
  unfold decoded_some.
  destruct (Inflate.DecodeBlock_loop _ _ e) as [[r e']| | |]; auto.
  destruct H as (? & ? & ? & ? & ?). repeat split; eauto.
Qed.

Lemma read_code_length_lengths_outcome (n : nat) :
  forall (loopCounter : Z) (cl : list Z) (e : Inflate.t),
  0 <= loopCounter -> loopCounter + Z.of_nat n <= 19 ->
  match Inflate.read_code_length_lengths n loopCounter cl e with
  | Ok (cl', _) =>
      length cl' = length cl /\
      (Forall (fun x => 0 <= x <= 7) cl -> Forall (fun x => 0 <= x <= 7) cl')
  | Throw x => x <> Inflate.GenericInvalidData
  | Stuck | OutOfFuel => False
  end.
Proof.
  induction n as [|n IH]; intros loopCounter cl e Hlc Hn.
  - cbn. auto.
  - cbn [Inflate.read_code_length_lengths].
    pose proof (Inflate_GetBits_not_Stuck 3 e) as Hs.
    pose proof (Inflate_GetBits_not_OutOfFuel 3 e) as Ho.
    destruct (Inflate.GetBits 3 e) as [[bits e1]| | |] eqn:E; cbn [mbind outcome_bind];
      [| exact (Inflate_GetBits_throws _ _ _ E) | congruence | congruence].
    pose proof (Inflate_GetBits_range 3 e e1 bits ltac:(lia) E) as Hbits.
    change (2 ^ 3) with 8 in Hbits.
    destruct (Js.get Inflate.s_codeOrder loopCounter) as [position|] eqn:Hpos.
    + cbn [defined mbind outcome_bind].
      specialize (IH (loopCounter + 1) (<[Z.to_nat position := bits]> cl) e1
                    ltac:(lia) ltac:(lia)).
      destruct (Inflate.read_code_length_lengths n _ _ e1) as [[cl' e']| | |]; auto.
      destruct IH as (Hlen & Hsmall).
      split; [rewrite Hlen; apply length_insert|].
      intros Hcl. apply Hsmall. apply Forall_insert; [exact Hcl | lia].
    + exfalso. unfold Js.get in Hpos.
      destruct (Z.ltb_spec loopCounter 0); [lia|].
      apply lookup_ge_None in Hpos. cbn in Hpos. lia.
Qed.

(** The loop that reads the code lengths adds at least one of them at
    every turn, so [codeArraySize] turns are enough; its table, built
    from lengths of at most 7, has a code length for every entry. *)
Lemma read_code_list_outcome (fuel : nat) (tree : HuffmanTree.t) (codeArraySize : Z) :
  decodable tree ->
  forall (codeList : list Z) (e : Inflate.t),
  codeArraySize - Z.of_nat (length codeList) <= Z.of_nat fuel ->
  match Inflate.read_code_list fuel tree codeArraySize codeList e with
  | Ok _ => True
  | Throw x => x <> Inflate.GenericInvalidData
  | Stuck | OutOfFuel => False
  end.
Proof.
  intros Hd. induction fuel as [|fuel IH]; intros codeList e Hfuel.
  - cbn. destruct (Z.ltb_spec (Z.of_nat (length codeList)) codeArraySize); [lia | exact I].
  - cbn [Inflate.read_code_list].
    destruct (Z.ltb_spec (Z.of_nat (length codeList)) codeArraySize); [|exact I].
    unfold Inflate.GetNextSymbol.
    pose proof (GetNextSymbol_decodable tree (Inflate._input e) Hd) as Hs.
    destruct (HuffmanTree.GetNextSymbol tree (Inflate._input e))
      as [[lengthCode input]| | |]; cbn [mbind outcome_bind]; try exact Hs.
    set (e1 := Inflate.set_input input e).
    assert (Hone : match Inflate.read_code_list fuel tree codeArraySize
                           (codeList ++ [lengthCode]) e1 with
                   | Ok _ => True
                   | Throw x => x <> Inflate.GenericInvalidData
                   | Stuck | OutOfFuel => False
                   end).
    { apply IH. rewrite length_app. cbn. lia. }
    assert (Hrep : forall n k v, 0 <= n <= 7 -> 1 <= k ->
               match ('(bits, e2) ← Inflate.GetBits n e1;
                      if codeArraySize <? Z.of_nat (length codeList) + (bits + k)
                      then Throw Inflate.InvalidDataException
                      else Inflate.read_code_list fuel tree codeArraySize
                             (codeList ++ replicate (Z.to_nat (bits + k)) v) e2) with
               | Ok _ => True
               | Throw x => x <> Inflate.GenericInvalidData
               | Stuck | OutOfFuel => False
               end).
    { intros n k v Hn Hk.
      pose proof (Inflate_GetBits_not_Stuck n e1) as Hgs.
      pose proof (Inflate_GetBits_not_OutOfFuel n e1) as Hgo.
      destruct (Inflate.GetBits n e1) as [[bits e2]| | |] eqn:E; cbn [mbind outcome_bind];
        [| exact (Inflate_GetBits_throws _ _ _ E) | congruence | congruence].
      pose proof (Inflate_GetBits_range n e1 e2 bits ltac:(lia) E) as Hb.
      destruct (_ <? _); [discriminate|].
      apply IH. rewrite length_app, length_replicate. lia. }
    destruct lengthCode as [|p|p]; try exact Hone.
    do 5 (destruct p as [p|p|]; try exact Hone).
    + exact (Hrep 3 3 0 ltac:(lia) ltac:(lia)).
    + exact (Hrep 7 11 0 ltac:(lia) ltac:(lia)).
    + destruct (Z.eqb_spec (Z.of_nat (length codeList)) 0) as [_|Hpos]; [discriminate|].
      assert (Hprev : is_Some (Js.get codeList (Z.of_nat (length codeList) - 1))).
      { unfold Js.get. destruct (Z.ltb_spec (Z.of_nat (length codeList) - 1) 0); [lia|].
        apply lookup_lt_is_Some. lia. }
      destruct Hprev as [previousCode ->]. cbn [defined mbind outcome_bind].
      exact (Hrep 2 3 previousCode ltac:(lia) ltac:(lia)).
Qed.

Lemma DecodeDynamicBlockHeader_outcome (e : Inflate.t) :
  match Inflate.DecodeDynamicBlockHeader e with
  | Ok (result, e') =>
      result = true /\
      exists literalLengthTree distanceTree,
        Inflate._literalLengthTree e' = Some literalLengthTree /\
        Inflate._distanceTree e' = Some distanceTree /\
        constructed literalLengthTree /\ constructed distanceTree /\
        length (HuffmanTree._codeLengthArray literalLengthTree) = 288%nat /\
        length (HuffmanTree._codeLengthArray distanceTree) = 32%nat /\
        HuffmanTree._tableBits literalLengthTree = 9 /\
        HuffmanTree._tableBits distanceTree = 7 /\
        exists len256,
          Js.get (HuffmanTree._codeLengthArray literalLengthTree) 256 = Some len256 /\
          len256 <> 0
  | Throw x => x <> Inflate.GenericInvalidData
  | Stuck | OutOfFuel => False
  end.
Proof.
  unfold Inflate.DecodeDynamicBlockHeader.
  pose proof (Inflate_GetBits_not_Stuck 5 e) as S1.
  pose proof (Inflate_GetBits_not_OutOfFuel 5 e) as O1.
  destruct (Inflate.GetBits 5 e) as [[hlit e1]| | |] eqn:E1; cbn [mbind outcome_bind];
    [| exact (Inflate_GetBits_throws _ _ _ E1) | congruence | congruence].
  pose proof (Inflate_GetBits_not_Stuck 5 e1) as S2.
  pose proof (Inflate_GetBits_not_OutOfFuel 5 e1) as O2.
  destruct (Inflate.GetBits 5 e1) as [[hdist e2]| | |] eqn:E2; cbn [mbind outcome_bind];
    [| exact (Inflate_GetBits_throws _ _ _ E2) | congruence | congruence].
  pose proof (Inflate_GetBits_not_Stuck 4 e2) as S3.
  pose proof (Inflate_GetBits_not_OutOfFuel 4 e2) as O3.
  destruct (Inflate.GetBits 4 e2) as [[hclen e3]| | |] eqn:E3; cbn [mbind outcome_bind];
    [| exact (Inflate_GetBits_throws _ _ _ E3) | congruence | congruence].
  pose proof (Inflate_GetBits_range 5 e e1 hlit ltac:(lia) E1) as Hhlit.
  pose proof (Inflate_GetBits_range 5 e1 e2 hdist ltac:(lia) E2) as Hhdist.
  pose proof (Inflate_GetBits_range 4 e2 e3 hclen ltac:(lia) E3) as Hhclen.
  change (2 ^ 5) with 32 in Hhlit, Hhdist. change (2 ^ 4) with 16 in Hhclen.
  pose proof (read_code_length_lengths_outcome (Z.to_nat (hclen + 4)) 0
                (replicate (Z.to_nat HuffmanTree.NumberOfCodeLengthTreeElements) 0) e3
                ltac:(lia) ltac:(lia)) as H4.
  destruct (Inflate.read_code_length_lengths _ 0 _ e3) as [[cl e4]| | |];
    cbn [mbind outcome_bind]; [| exact H4 | exact H4 | exact H4].
  destruct H4 as (Hlen4 & Hsmall4).
  rewrite length_replicate in Hlen4.
  change (Z.to_nat HuffmanTree.NumberOfCodeLengthTreeElements) with 19%nat in Hlen4.
  destruct (clear_code_length_lengths_small (hclen + 4) cl) as (Hlen5 & Hsmall5).
  pose proof (new_total (Inflate.clear_code_length_lengths (hclen + 4) cl)) as H5.
  destruct (HuffmanTree.new (Inflate.clear_code_length_lengths (hclen + 4) cl))
    as [codeLengthTree| | |] eqn:Hclt; cbn [mbind outcome_bind];
    [| exact (new_throws _ _ Hclt) | exact H5 | exact H5].
  assert (Hd : decodable codeLengthTree).
  { eexists. split; [exact Hclt|]. right. split.
    - intros Hnil. rewrite Hnil in Hlen5. rewrite Hlen4 in Hlen5. discriminate.
    - apply Hsmall5, Hsmall4, Forall_replicate. lia. }
  pose proof (read_code_list_outcome (Z.to_nat (hlit + 257 + (hdist + 1)))
                codeLengthTree (hlit + 257 + (hdist + 1)) Hd [] e4
                ltac:(cbn; lia)) as H6.
  destruct (Inflate.read_code_list _ codeLengthTree _ [] e4) as [[codeList e5]| | |] eqn:E6;
    cbn [mbind outcome_bind]; [| exact H6 | exact H6 | exact H6].
  apply read_code_list_length in E6; [|cbn; lia].
  unfold HuffmanTree.MaxLiteralTreeElements, HuffmanTree.MaxDistTreeElements,
    HuffmanTree.EndOfBlockCode.
  destruct (_ =? 0) eqn:H256; [discriminate|].
  pose proof (new_total (Inflate.slice_pad codeList 0 (hlit + 257) 288)) as H7.
  destruct (HuffmanTree.new (Inflate.slice_pad codeList 0 (hlit + 257) 288))
    as [literalLengthTree| | |] eqn:Hll; cbn [mbind outcome_bind];
    [| exact (new_throws _ _ Hll) | exact H7 | exact H7].
  pose proof (new_total (Inflate.slice_pad codeList (hlit + 257)
                           (hlit + 257 + (hdist + 1)) 32)) as H8.
  destruct (HuffmanTree.new (Inflate.slice_pad codeList (hlit + 257)
                               (hlit + 257 + (hdist + 1)) 32))
    as [distanceTree| | |] eqn:Hdt; cbn [mbind outcome_bind];
    [| exact (new_throws _ _ Hdt) | exact H8 | exact H8].
  split; [reflexivity|].
  exists literalLengthTree, distanceTree.
  destruct (new_fields _ _ Hll) as (Hlla & Hllb).
  destruct (new_fields _ _ Hdt) as (Hda & Hdb).
  assert (Hl1 : Z.of_nat (length (Inflate.slice_pad codeList 0 (hlit + 257) 288)) = 288)
    by (apply length_slice_pad; lia).
  assert (Hl2 : Z.of_nat (length (Inflate.slice_pad codeList (hlit + 257)
                                    (hlit + 257 + (hdist + 1)) 32)) = 32)
    by (apply length_slice_pad; lia).
  rewrite Hl1 in Hllb. rewrite Hl2 in Hdb. cbn in Hllb, Hdb.
  rewrite Hlla, Hda.
  split; [reflexivity|]. split; [reflexivity|].
  split; [eexists; exact Hll|]. split; [eexists; exact Hdt|].
  repeat split; try lia; try assumption.
  destruct (Js.get (Inflate.slice_pad codeList 0 (hlit + 257) 288) 256) as [x|];
    cbn in H256; [|discriminate].
  exists x. split; [reflexivity|]. apply Z.eqb_neq. exact H256.
Qed.

(** The header of a dynamic block: DecodeDynamicBlockHeader returns or
    throws, whatever the engine reads, and what it throws is not
    "GenericInvalidData".  When it returns, it returns true; the
    literal/length table is built from exactly 288 code lengths and the
    distance table from exactly 32, the lengths that were sent followed
    by zeros, whatever HLIT and HDIST are; their direct tables have 9
    and 7 bits; and the length of the end-of-block symbol is not zero. *)
Theorem DecodeDynamicBlockHeader_table_sizes (e : Inflate.t) :
  match Inflate.DecodeDynamicBlockHeader e with
  | Ok (result, e') =>
      result = true /\
      exists literalLengthTree distanceTree,
        Inflate._literalLengthTree e' = Some literalLengthTree /\
        Inflate._distanceTree e' = Some distanceTree /\
        constructed literalLengthTree /\ constructed distanceTree /\
        length (HuffmanTree._codeLengthArray literalLengthTree) = 288%nat /\
        length (HuffmanTree._codeLengthArray distanceTree) = 32%nat /\
        HuffmanTree._tableBits literalLengthTree = 9 /\
        HuffmanTree._tableBits distanceTree = 7 /\
        exists len256,
          Js.get (HuffmanTree._codeLengthArray literalLengthTree) 256 = Some len256 /\
          len256 <> 0
  | Throw x => x <> Inflate.GenericInvalidData
  | Stuck | OutOfFuel => False
  end.
Proof.
  exact (DecodeDynamicBlockHeader_outcome e).
Qed.

(** On [deep_block_bytes] the header is read to its end, and the
    distance table is built from [deep_code_lengths]. *)
Lemma DecodeDynamicBlockHeader_table_sizes_witness :
  match Inflate.DecodeDynamicBlockHeader deep_block_header with
  | Ok (result, e') =>
      result = true /\
      option_map HuffmanTree._codeLengthArray (Inflate._distanceTree e') =
        Some deep_code_lengths /\
      exists literalLengthTree distanceTree,
        Inflate._literalLengthTree e' = Some literalLengthTree /\
        Inflate._distanceTree e' = Some distanceTree /\
        constructed literalLengthTree /\ constructed distanceTree /\
        length (HuffmanTree._codeLengthArray literalLengthTree) = 288%nat /\
        length (HuffmanTree._codeLengthArray distanceTree) = 32%nat /\
        HuffmanTree._tableBits literalLengthTree = 9 /\
        HuffmanTree._tableBits distanceTree = 7 /\
        exists len256,
          Js.get (HuffmanTree._codeLengthArray literalLengthTree) 256 = Some len256 /\
          len256 <> 0
  | _ => False
  end.
Proof.
  pose proof (DecodeDynamicBlockHeader_table_sizes deep_block_header) as H.
  assert (Hrun : match Inflate.DecodeDynamicBlockHeader deep_block_header with
                 | Ok (_, e') =>
                     option_map HuffmanTree._codeLengthArray (Inflate._distanceTree e') =
                       Some deep_code_lengths
                 | _ => False
                 end).
  { vm_compute. reflexivity. }
  destruct (Inflate.DecodeDynamicBlockHeader deep_block_header) as [[result e']| | |].
  - destruct H as [Hresult Htables].
    split; [exact Hresult|]. split; [exact Hrun | exact Htables].
  - exact Hrun.
  - exact Hrun.
  - exact Hrun.
Defined.

Lemma static_trees_decodable :
  exists literalLengthTree distanceTree,
    HuffmanTree.s_staticLiteralLengthTree = Ok literalLengthTree /\
    HuffmanTree.s_staticDistanceTree = Ok distanceTree /\
    decodable literalLengthTree.
Proof.
  eexists _, _. split; [vm_compute; reflexivity|]. split; [vm_compute; reflexivity|].
  exists HuffmanTree.GetStaticLiteralTreeLength.
  split; [vm_compute; reflexivity | left; vm_compute; discriminate].
Qed.

Lemma Decode_switch_between_pulls (e : Inflate.t) :
  between_pulls e -> decoded_some (Inflate.Decode_switch 3 e).
Proof.
  intros [[Hstate Harr] | [Hstate (tree & Htree & Hc)]].
  - rewrite Decode_switch_ReadingFinalBit by exact Hstate.
    destruct (Inflate_GetBits_array 1 e Harr ltac:(lia)) as (b & e1 & -> & _ & H1).
    cbn [mbind outcome_bind].
    set (e1' := Inflate.set_state _ _).
    assert (H1' : over_array e1') by exact H1.
    destruct (Inflate_GetBits_array 2 e1' H1' ltac:(lia)) as (bits & e2 & -> & Hbits & H2).
    cbn [mbind outcome_bind].
    assert (bits = 0 \/ bits = 1 \/ bits = 2 \/ bits = 3) as [-> | [-> | [-> | ->]]]
      by (change (2 ^ 2) with 4 in Hbits; lia); cbn [Inflate.State_of_Z].
    + rewrite Decode_switch_ReadingUncompressed by reflexivity.
      rewrite DecodeUncompressedBlock_always_throws by exact H2. cbn. discriminate.
    + rewrite Decode_switch_ReadingStatic by reflexivity.
      destruct static_trees_decodable as (ll & d & -> & -> & Hll).
      cbn [mbind outcome_bind].
      rewrite Decode_switch_DecodingBlock by reflexivity.
      apply (DecodeBlock_decoded_some _ ll); [reflexivity | exact Hll].
    + rewrite Decode_switch_ReadingDynamic by reflexivity.
      pose proof (DecodeDynamicBlockHeader_outcome
                    (Inflate.set_state Inflate.ReadingDynamic e2)) as Hh.
      destruct (Inflate.DecodeDynamicBlockHeader _) as [[r e3]| | |];
        cbn [mbind outcome_bind];
        [| exact Hh | exact Hh | exact Hh].
      destruct Hh as (_ & ll & dt & Hll & _ & (cl & Hnew) & _ & Hlen & _).
      apply (DecodeBlock_decoded_some _ ll); [exact Hll|].
      apply (decodable_wide cl); [exact Hnew|].
      destruct (new_fields _ _ Hnew) as (Hcl & _). rewrite Hcl in Hlen. lia.
    + rewrite Decode_switch_UnknownBlockType by reflexivity. cbn. discriminate.
  - rewrite Decode_switch_DecodingBlock by exact Hstate.
    apply (DecodeBlock_decoded_some _ tree); assumption.
Qed.

Lemma Decode_between_pulls (e : Inflate.t) :
  between_pulls e -> decoded_some (Inflate.Decode e).
Proof.
  intros He. unfold Inflate.Decode.
  assert (He' : between_pulls (Inflate.set_seen false e)) by exact He.
  pose proof (Decode_switch_between_pulls _ He') as H.
  destruct (Inflate.Decode_switch 3 _) as [[r e']| | |]; cbn in *; auto.
  destruct H as (Hr & Hs & Hseen & Ht & Hw).
  rewrite Hseen. cbn. repeat split; assumption.
Qed.

(** No block ever ends.  Whatever the input and however many bytes have
    been pulled, a call of [next] on an engine that was created over an
    iterator of numbers ends in a byte or in an exception: it does not
    report the end of the output, two turns of its loop are always
    enough, and the engine is left as the next call expects it.  The
    exception is never "GenericInvalidData": DecodeBlock writes every
    symbol as a literal and does not reach its tests on length symbols. *)
Theorem next_never_done (fuel : nat) (e : Inflate.t) :
  between_pulls e ->
  match Inflate.next (S (S fuel)) e with
  | Ok (Inflate.Value _, e') => between_pulls e'
  | Ok (Inflate.DoneResult, _) => False
  | Throw x => x <> Inflate.GenericInvalidData
  | Stuck | OutOfFuel => False
  end.
Proof.
  intros He.
  assert (Hpending : forall n e0, between_pulls e0 ->
            0 < Inflate._lengthDecompressed e0 ->
            match Inflate.next (S n) e0 with
            | Ok (Inflate.Value _, e') => between_pulls e'
            | Ok (Inflate.DoneResult, _) => False
            | Throw x => x <> Inflate.GenericInvalidData
            | Stuck | OutOfFuel => False
            end).
  { intros n e0 Hbetween Hpos. cbn [Inflate.next].
    destruct (Z.ltb_spec 0 (Inflate._lengthDecompressed e0)); [|lia].
    exact Hbetween. }
  cbn [Inflate.next].
  destruct (Z.ltb_spec 0 (Inflate._lengthDecompressed e)); [exact He|].
  destruct (Z.ltb_spec 0 (Inflate._lengthUncompressed e)).
  - destruct (InputBuffer._iterator (Inflate._input e)) as [[|b rest]|target] eqn:Hit;
      cbn; try discriminate.
    destruct He as [[Hstate Harr] | Hblock]; [left | right; exact Hblock].
    split; [exact Hstate|]. exists rest. reflexivity.
  - set (e0 := Inflate.set_adler _ _ e).
    assert (He0 : between_pulls e0) by exact He.
    assert (Hnd : Inflate.is_Done (Inflate._state e0) = false).
    { destruct He0 as [[-> _] | [-> _]]; reflexivity. }
    rewrite Hnd.
    pose proof (Decode_between_pulls e0 He0) as Hd.
    destruct (Inflate.Decode e0) as [[r e1]| | |]; cbn [mbind outcome_bind];
      [| exact Hd | exact Hd | exact Hd].
    destruct Hd as (-> & Hs & _ & Ht & Hw).
    apply Hpending.
    + right. split; assumption.
    + unfold Inflate.WindowSize in Hw. lia.
Qed.

(** On [distance_30_block] the first call of [next] goes through Decode,
    the header of the block and DecodeBlock, and returns the byte 0x41. *)
Lemma next_never_done_witness :
  match Inflate.next 2 (Inflate.new (ArrayIterator distance_30_block) None) with
  | Ok (Inflate.Value value, e') => value = Some 0x41 /\ between_pulls e'
  | _ => False
  end.
Proof.
  assert (Hstart : between_pulls (Inflate.new (ArrayIterator distance_30_block) None)).
  { left. split; [reflexivity|]. exists distance_30_block. reflexivity. }
  pose proof (next_never_done 0 (Inflate.new (ArrayIterator distance_30_block) None) Hstart)
    as H.
  pose proof distance_30_block_pulls as Hrun.
  destruct (Inflate.next 2 (Inflate.new (ArrayIterator distance_30_block) None))
    as [[[value|] e']| | |].
  - destruct Hrun as [Hvalue _]. split; [exact Hvalue | exact H].
  - exact Hrun.
  - exact Hrun.
  - exact Hrun.
  - exact Hrun.
Defined.
